(** * A shallow embedding of [vector.h]

    The container of [src/vector.h] is a class template over an element
    type [T] that manages a raw buffer with placement construction and
    explicit destructor calls.  The embedding keeps the program's own
    structure:

    - [size_t] values are integers in [Z] with the wrap-around modulo
      [2^64] written out at every arithmetic operation; the [int]
      parameter of [destroy_all] is a 32-bit two's complement integer;
    - raw memory is a finite map from block identifiers to arrays of
      slots, a slot holding a live object or nothing;
    - vector objects live in an object store indexed by their address, so
      that [this == &other] and [swap] on two objects mean what they mean
      in the source;
    - exceptions and undefined behaviour are the two abnormal outcomes of
      a computation in the monad [M];
    - the element type enters through the behaviour of its copy
      constructor and of [std::swap] on it, and the allocator through
      the behaviour of [operator new]: each may throw, as decided by an
      arbitrary function of the invocation count and the arguments. *)

From stdpp Require Import base gmap list.
From Stdlib Require Import ZArith.

Local Open Scope Z_scope.

(** ** Machine integers *)

(** [size_t] arithmetic: results are reduced modulo [2^64]. *)
Definition wrap (z : Z) : Z := z mod 2 ^ 64.

(** Conversion of a [size_t] to [int] (32 bits, two's complement), as at
    the call [destroy_all(dst, i)] whose second parameter is an [int]:
    the value is reduced modulo [2^32] into the range of [int], which is
    what C++20 prescribes and what the implementations with a 64-bit
    [size_t] did before it. *)
Definition to_int (z : Z) : Z := (z + 2 ^ 31) mod 2 ^ 32 - 2 ^ 31.

(** ** Pointers, objects and memory *)

(** A [T*]: null, or an element offset into an allocated block. *)
Inductive ptr : Type :=
  | Null
  | Ptr (b : nat) (off : Z).

#[global] Instance ptr_eq_dec : EqDecision ptr.
Proof. solve_decision. Defined.

(** The three data members of [vector<T>]. *)
Record vec : Type := Vec { data_ : ptr; size_ : Z; capacity_ : Z }.

(** The state of the program: raw memory blocks, the vector objects by
    address, and how many times [operator new], the copy constructor of
    [T] and [std::swap] on [T] have been invoked so far. *)
Record world (T : Type) : Type := World {
  heap : gmap nat (list (option T));
  vecs : gmap nat vec;
  allocs : Z;
  copies : Z;
  swaps : Z
}.

Arguments World {T} _ _ _ _ _.
Arguments heap {T} _.
Arguments vecs {T} _.
Arguments allocs {T} _.
Arguments copies {T} _.
Arguments swaps {T} _.

(** Outcome of a computation: normal return, a propagating exception, or
    undefined behaviour. *)
Inductive res (T A : Type) : Type :=
  | Ok (a : A) (w : world T)
  | Throw (w : world T)
  | UB.

Arguments Ok {T A} _ _.
Arguments Throw {T A} _.
Arguments UB {T A}.

Definition M (T A : Type) : Type := world T -> res T A.

Definition ret {T A} (a : A) : M T A := fun w => Ok a w.

Definition bind {T A B} (m : M T A) (k : A -> M T B) : M T B :=
  fun w =>
    match m w with
    | Ok a w' => k a w'
    | Throw w' => Throw w'
    | UB => UB
    end.

Definition throw {T A} : M T A := fun w => Throw w.
Definition undefined {T A} : M T A := fun _ => UB.

(** [try { m } catch (...) { h; throw; }] *)
Definition catch_rethrow {T A} (m : M T A) (h : M T unit) : M T A :=
  fun w =>
    match m w with
    | Ok a w' => Ok a w'
    | Throw w' =>
        match h w' with
        | Ok _ w'' => Throw w''
        | Throw w'' => Throw w''
        | UB => UB
        end
    | UB => UB
    end.

(** A block whose exit, normal or by exception, runs [d] (the destructor
    of a local object). *)
Definition finally {T A} (m : M T A) (d : M T unit) : M T A :=
  fun w =>
    match m w with
    | Ok a w' =>
        match d w' with
        | Ok _ w'' => Ok a w''
        | Throw w'' => Throw w''
        | UB => UB
        end
    | Throw w' =>
        match d w' with
        | Ok _ w'' => Throw w''
        | Throw w'' => Throw w''
        | UB => UB
        end
    | UB => UB
    end.

Declare Scope vec_scope.
Delimit Scope vec_scope with vec.
Notation "x <~ m ;; k" := (bind m (fun x => k))
  (at level 100, m at next level, right associativity) : vec_scope.
Notation "m ;;; k" := (bind m (fun _ => k))
  (at level 100, right associativity) : vec_scope.
Local Open Scope vec_scope.

Definition of_option {T A} (o : option A) : M T A :=
  match o with Some a => ret a | None => undefined end.

(** Pointer arithmetic [p + k].  Only [nullptr + 0] is defined on the
    null pointer. *)
Definition ptr_add (p : ptr) (k : Z) : option ptr :=
  match p with
  | Null => if decide (k = 0) then Some Null else None
  | Ptr b off => Some (Ptr b (off + k))
  end.

(** Pointer difference [p - q] (a [ptrdiff_t]): defined inside one block
    and between two null pointers. *)
Definition ptr_diff (p q : ptr) : option Z :=
  match p, q with
  | Null, Null => Some 0
  | Ptr b o, Ptr b' o' => if decide (b = b') then Some (o - o') else None
  | _, _ => None
  end.

(** A counted loop: [n] rounds of [body] on an index that starts at [i]
    and is advanced by [next] after each round.  The loops of the source
    that run on [size_t] or [int] indices are such loops, the number of
    rounds being fixed by the bounds on entry. *)
Fixpoint iterate {T} (n : nat) (next : Z -> Z) (i : Z) (body : Z -> M T unit)
  : M T unit :=
  match n with
  | O => ret tt
  | S n' => body i ;;; iterate n' next (next i) body
  end.

(** ** Weakest preconditions

    [wpg ub m Q E w]: running [m] from [w] returns in a state satisfying
    [Q], or throws in a state satisfying [E]; undefined behaviour is
    allowed exactly when [ub] holds.  With [ub := False] this is total
    correctness, with [ub := True] it constrains the defined runs. *)

Definition wpg {T A} (ub : Prop) (m : M T A) (Q : A -> world T -> Prop)
    (E : world T -> Prop) (w : world T) : Prop :=
  match m w with
  | Ok a w' => Q a w'
  | Throw w' => E w'
  | UB => ub
  end.

(** Number of slots of the block a pointer points into. *)
Definition room {T} (h : gmap nat (list (option T))) (d : ptr) : nat :=
  match d with
  | Null => O
  | Ptr b _ => default O (length <$> h !! b)
  end.

(** ** The element type and the allocator

    What the container needs from [T]: its size, a copy constructor and
    [std::swap].  The last two may throw; whether a given invocation does
    is an arbitrary function of how many invocations came before and of
    the values involved. *)
Class Element (T : Type) : Type := {
  (** [sizeof(T)]. *)
  sizeofT : Z;
  (** [copy_throws k v]: the [k]-th invocation of [T]'s copy constructor,
      copying [v], throws. *)
  copy_throws : Z -> T -> bool;
  (** [swap_throws k a b]: [None] when the [k]-th [std::swap] on [T]
      succeeds; [Some (a', b')] when it throws, leaving [a'] and [b'] in
      the two objects. *)
  swap_throws : Z -> T -> T -> option (T * T)
}.

(** [alloc_throws k n]: the [k]-th call of [operator new], asking for
    [n] bytes, throws. *)
Class Allocator : Type := { alloc_throws : Z -> Z -> bool }.

Section Vector.
Context {T : Type} {elem : Element T} {alloc : Allocator}.

(** *** Raw memory *)

Definition set_heap (h : gmap nat (list (option T))) (w : world T) : world T :=
  World h (vecs w) (allocs w) (copies w) (swaps w).

Definition set_vecs (vs : gmap nat vec) (w : world T) : world T :=
  World (heap w) vs (allocs w) (copies w) (swaps w).

(** The slot designated by a pointer, when it lies in a live block. *)
Definition slot (w : world T) (p : ptr) : option (option T) :=
  match p with
  | Null => None
  | Ptr b off =>
      if decide (0 <= off) then
        sl ← heap w !! b; sl !! Z.to_nat off
      else None
  end.

Definition write (p : ptr) (x : option T) (w : world T) : world T :=
  match p with
  | Null => w
  | Ptr b off =>
      match heap w !! b with
      | Some sl => set_heap (<[b := <[Z.to_nat off := x]> sl]> (heap w)) w
      | None => w
      end
  end.

(** [operator new(bytes)]: throws, or returns a fresh block with room
    for [bytes / sizeof(T)] objects, none of them constructed.  A
    request for zero bytes returns a non-null pointer too. *)
Definition operator_new (bytes : Z) : M T ptr := fun w =>
  let w1 := World (heap w) (vecs w) (allocs w + 1) (copies w) (swaps w) in
  if alloc_throws (allocs w) bytes then Throw w1
  else
    let b := fresh (dom (heap w)) in
    Ok (Ptr b 0)
       (set_heap (<[b := replicate (Z.to_nat (bytes / @sizeofT T _)) None]> (heap w)) w1).

(** [operator delete(p)]: no effect on the null pointer; otherwise [p]
    must be the start of a live block, which is released. *)
Definition operator_delete (p : ptr) : M T unit := fun w =>
  match p with
  | Null => Ok tt w
  | Ptr b off =>
      if decide (off = 0) then
        match heap w !! b with
        | Some _ => Ok tt (set_heap (delete b (heap w)) w)
        | None => UB
        end
      else UB
  end.

(** Reading the object at [p]: it must be live. *)
Definition load (p : ptr) : M T T := fun w =>
  match slot w p with
  | Some (Some v) => Ok v w
  | _ => UB
  end.

(** [T tmp(v)]: a copy construction into a local variable. *)
Definition copy_local (v : T) : M T T := fun w =>
  let w1 := World (heap w) (vecs w) (allocs w) (copies w + 1) (swaps w) in
  if copy_throws (copies w) v then Throw w1 else Ok v w1.

(** [new (p) T(v)]: [p] must designate a slot of a live block; the copy
    constructor may throw, in which case the slot is left as it was. *)
Definition construct_at (p : ptr) (v : T) : M T unit := fun w =>
  match slot w p with
  | Some _ =>
      let w1 := World (heap w) (vecs w) (allocs w) (copies w + 1) (swaps w) in
      if copy_throws (copies w) v then Throw w1
      else Ok tt (write p (Some v) w1)
  | None => UB
  end.

(** [p->~T()]: the object must be live. *)
Definition destroy_at (p : ptr) : M T unit := fun w =>
  match slot w p with
  | Some (Some _) => Ok tt (write p None w)
  | _ => UB
  end.

(** [std::swap] on the two live objects that [p] and [q] point to. *)
Definition swap_at (p q : ptr) : M T unit := fun w =>
  match slot w p, slot w q with
  | Some (Some a), Some (Some b) =>
      let w1 := World (heap w) (vecs w) (allocs w) (copies w) (swaps w + 1) in
      match swap_throws (swaps w) a b with
      | None => Ok tt (write q (Some a) (write p (Some b) w1))
      | Some (a', b') => Throw (write q (Some b') (write p (Some a') w1))
      end
  | _, _ => UB
  end.

(** *** The object store *)

Definition get_vec (this : nat) : M T vec := fun w =>
  match vecs w !! this with
  | Some v => Ok v w
  | None => UB
  end.

Definition set_vec (this : nat) (v : vec) : M T unit := fun w =>
  Ok tt (set_vecs (<[this := v]> (vecs w)) w).

Definition drop_vec (this : nat) : M T unit := fun w =>
  Ok tt (set_vecs (delete this (vecs w)) w).

(** Address of a new local object. *)
Definition new_address : M T nat := fun w => Ok (fresh (dom (vecs w))) w.

Definition set_data (this : nat) (p : ptr) : M T unit :=
  v <~ get_vec this;; set_vec this (Vec p (size_ v) (capacity_ v)).

Definition set_size (this : nat) (n : Z) : M T unit :=
  v <~ get_vec this;; set_vec this (Vec (data_ v) n (capacity_ v)).

Definition set_capacity (this : nat) (n : Z) : M T unit :=
  v <~ get_vec this;; set_vec this (Vec (data_ v) (size_ v) n).

(** *** The free functions of [vector.h] *)

(** [destroy_all(T* vec, int size)]: [for (int i = 0; i < size; i++)
    vec[i].~T();].  The loop runs [size] times when [size] is positive
    and not at all otherwise; [i] stays below [size], so [i++] does
    not overflow. *)
Definition destroy_all (p : ptr) (size : Z) : M T unit :=
  iterate (Z.to_nat size) (fun i => i + 1) 0
    (fun i => q <~ of_option (ptr_add p i);; destroy_at q).

(** [copy_construct_all(T* dst, T const* src, size_t size)].  The
    placement construction is the one statement of the [try] block
    that can throw, so the handler is attached to it, with the value
    that [i] has there.  The handler passes the [size_t] [i] to the
    [int] parameter of [destroy_all]. *)
Definition copy_construct_all (dst src : ptr) (size : Z) : M T unit :=
  iterate (Z.to_nat size) (fun i => wrap (i + 1)) 0
    (fun i =>
       p <~ of_option (ptr_add dst i);;
       q <~ of_option (ptr_add src i);;
       v <~ load q;;
       catch_rethrow (construct_at p v) (destroy_all dst (to_int i))).

(** *** The members of [vector<T>] *)

(** [vector()] at address [this]. *)
Definition vector_default (this : nat) : M T unit :=
  set_vec this (Vec Null 0 0).

(** [vector(vector const& other)] at address [this]. *)
Definition vector_copy (this other : nat) : M T unit :=
  o <~ get_vec other;;
  ptr <~ operator_new (wrap (capacity_ o * @sizeofT T _));;
  catch_rethrow (copy_construct_all ptr (data_ o) (size_ o))
                (operator_delete ptr);;;
  set_vec this (Vec ptr (size_ o) (capacity_ o)).

(** [~vector()]; the object then leaves the store. *)
Definition vector_dtor (this : nat) : M T unit :=
  v <~ get_vec this;;
  destroy_all (data_ v) (to_int (size_ v));;;
  operator_delete (data_ v);;;
  drop_vec this.

(** [swap(vector& other)]: the three members are exchanged. *)
Definition swap (this other : nat) : M T unit :=
  a <~ get_vec this;;
  b <~ get_vec other;;
  set_vec this (Vec (data_ b) (size_ b) (capacity_ b));;;
  set_vec other (Vec (data_ a) (size_ a) (capacity_ a)).

(** [operator=(vector const& other)]. *)
Definition assign (this other : nat) : M T unit :=
  if decide (this = other) then ret tt
  else
    tmp <~ new_address;;
    vector_copy tmp other;;;
    finally (swap this tmp) (vector_dtor tmp).

(** [operator[](size_t i)]: the address of [data_[i]]. *)
Definition index (this : nat) (i : Z) : M T ptr :=
  v <~ get_vec this;; of_option (ptr_add (data_ v) i).

(** [front()] and [back()]: the addresses of [*data_] and of
    [data_[size_ - 1]]. *)
Definition front (this : nat) : M T ptr :=
  v <~ get_vec this;; ret (data_ v).

Definition back (this : nat) : M T ptr :=
  v <~ get_vec this;; of_option (ptr_add (data_ v) (wrap (size_ v - 1))).

(** [T* data()]. *)
Definition data (this : nat) : M T ptr :=
  v <~ get_vec this;;
  if decide (capacity_ v = 0) then ret Null else ret (data_ v).

(** [T const* data() const]. *)
Definition data_const (this : nat) : M T ptr :=
  v <~ get_vec this;; ret (data_ v).

Definition size (this : nat) : M T Z :=
  v <~ get_vec this;; ret (size_ v).

Definition capacity (this : nat) : M T Z :=
  v <~ get_vec this;; ret (capacity_ v).

Definition empty (this : nat) : M T bool :=
  v <~ get_vec this;; ret (bool_decide (size_ v = 0)).

Definition begin (this : nat) : M T ptr :=
  v <~ get_vec this;; ret (data_ v).

Definition end_ (this : nat) : M T ptr :=
  v <~ get_vec this;; of_option (ptr_add (data_ v) (size_ v)).

(** [increase_capacity()]. *)
Definition increase_capacity (v : vec) : Z :=
  if decide (capacity_ v = 0) then 1 else wrap (capacity_ v * 2).

(** [new_buffer(size_t new_capacity)].  The local [tmp] is an object
    of its own; its destructor runs when the function is left, by
    return or by exception. *)
Definition new_buffer (this : nat) (new_capacity : Z) : M T unit :=
  tmp <~ new_address;;
  vector_default tmp;;;
  finally
    ((if decide (new_capacity ≠ 0) then
        p <~ operator_new (wrap (new_capacity * @sizeofT T _));;
        set_data tmp p;;;
        v <~ get_vec this;;
        copy_construct_all p (data_ v) (size_ v);;;
        set_capacity tmp new_capacity;;;
        v <~ get_vec this;;
        set_size tmp (size_ v)
      else ret tt);;;
     swap this tmp)
    (vector_dtor tmp).

(** [push_back_realloc(T const& value)]. *)
Definition push_back_realloc (this : nat) (value : T) : M T unit :=
  tmp <~ copy_local value;;
  v <~ get_vec this;;
  new_buffer this (increase_capacity v);;;
  v <~ get_vec this;;
  p <~ of_option (ptr_add (data_ v) (size_ v));;
  construct_at p tmp;;;
  set_size this (wrap (size_ v + 1)).

(** [push_back(T const& value)]. *)
Definition push_back (this : nat) (value : T) : M T unit :=
  v <~ get_vec this;;
  if decide (size_ v ≠ capacity_ v) then
    p <~ of_option (ptr_add (data_ v) (size_ v));;
    construct_at p value;;;
    set_size this (wrap (size_ v + 1))
  else push_back_realloc this value.

(** [pop_back()]. *)
Definition pop_back (this : nat) : M T unit :=
  v <~ get_vec this;;
  p <~ of_option (ptr_add (data_ v) (wrap (size_ v - 1)));;
  destroy_at p;;;
  set_size this (wrap (size_ v - 1)).

(** [reserve(size_t new_capacity)]. *)
Definition reserve (this : nat) (new_capacity : Z) : M T unit :=
  v <~ get_vec this;;
  if decide (capacity_ v >= new_capacity) then ret tt
  else new_buffer this new_capacity.

(** [shrink_to_fit()]. *)
Definition shrink_to_fit (this : nat) : M T unit :=
  v <~ get_vec this;;
  if decide (size_ v < capacity_ v) then new_buffer this (size_ v)
  else ret tt.

(** [clear()]. *)
Definition clear (this : nat) : M T unit :=
  v <~ get_vec this;;
  destroy_all (data_ v) (to_int (size_ v));;;
  set_size this 0.

(** [std::swap(data_[i], data_[j])]. *)
Definition swap_elems (this : nat) (i j : Z) : M T unit :=
  v <~ get_vec this;;
  p <~ of_option (ptr_add (data_ v) i);;
  q <~ of_option (ptr_add (data_ v) j);;
  swap_at p q.

(** [insert(const_iterator pos, T const& val)].  The loop
    [for (size_t i = size_ - 1; i != ind; i--)] makes
    [(size_ - 1 - ind) mod 2^64] rounds. *)
Definition insert (this : nat) (pos : ptr) (val : T) : M T ptr :=
  b <~ begin this;;
  d <~ of_option (ptr_diff pos b);;
  let ind := wrap d in
  push_back this val;;;
  v <~ get_vec this;;
  iterate (Z.to_nat (wrap (size_ v - 1 - ind))) (fun i => wrap (i - 1))
    (wrap (size_ v - 1))
    (fun i => swap_elems this i (wrap (i - 1)));;;
  b <~ begin this;;
  of_option (ptr_add b ind).

(** [erase(const_iterator pos)].  The loop
    [for (size_t i = pos - begin(); i + 1 != size_; i++)] makes
    [(size_ - 1 - i) mod 2^64] rounds. *)
Definition erase (this : nat) (pos : ptr) : M T ptr :=
  result <~ of_option (ptr_add pos 1);;
  b <~ begin this;;
  d <~ of_option (ptr_diff pos b);;
  v <~ get_vec this;;
  iterate (Z.to_nat (wrap (size_ v - 1 - wrap d))) (fun i => wrap (i + 1))
    (wrap d)
    (fun i => swap_elems this i (wrap (i + 1)));;;
  pop_back this;;;
  ret result.

(** The first loop of [erase(first, last)]:
    [for (i = first, j = last; j != end(); i++, j++)], whose body is
    [std::swap] on the objects that [i] and [j] point to.
    Every round dereferences [j] and moves it one slot to the right,
    so the loop has returned, thrown or run out of the block of [j]
    after at most as many rounds as [fuel], which the caller sets to
    the length of that block plus one. *)
Fixpoint shift_down (fuel : nat) (this : nat) (i j : ptr) : M T unit :=
  match fuel with
  | O => undefined
  | S fuel' =>
      e <~ end_ this;;
      if decide (j ≠ e) then
        swap_at i j;;;
        i' <~ of_option (ptr_add i 1);;
        j' <~ of_option (ptr_add j 1);;
        shift_down fuel' this i' j'
      else ret tt
  end.

(** [erase(const_iterator first, const_iterator last)]. *)
Definition erase_range (this : nat) (first last : ptr) : M T ptr :=
  (fun w => shift_down (S (room (heap w) last)) this first last w);;;
  d <~ of_option (ptr_diff last first);;
  iterate (Z.to_nat (wrap d)) (fun i => wrap (i + 1)) 0
    (fun _ => pop_back this);;;
  b <~ begin this;;
  of_option (ptr_add b d).

End Vector.

(** * Programs over vectors *)

(** A call of a public operation.  The two constructors build their
    object at a new address; the other operations name the objects they
    act on by address. *)
Inductive op (T : Type) : Type :=
  | OpDefault
  | OpCopy (other : nat)
  | OpAssign (this other : nat)
  | OpPushBack (this : nat) (v : T)
  | OpPopBack (this : nat)
  | OpReserve (this : nat) (n : Z)
  | OpShrinkToFit (this : nat)
  | OpClear (this : nat)
  | OpSwap (this other : nat)
  | OpInsert (this : nat) (pos : ptr) (v : T)
  | OpErase (this : nat) (pos : ptr)
  | OpEraseRange (this : nat) (first last : ptr).

Arguments OpDefault {T}.
Arguments OpCopy {T} _.
Arguments OpAssign {T} _ _.
Arguments OpPushBack {T} _ _.
Arguments OpPopBack {T} _.
Arguments OpReserve {T} _ _.
Arguments OpShrinkToFit {T} _.
Arguments OpClear {T} _.
Arguments OpSwap {T} _ _.
Arguments OpInsert {T} _ _ _.
Arguments OpErase {T} _ _.
Arguments OpEraseRange {T} _ _ _.

Section Programs.
Context {T : Type} {elem : Element T} {alloc : Allocator}.

Definition run_op (o : op T) : M T unit :=
  match o with
  | OpDefault => this <~ new_address;; vector_default this
  | OpCopy other => this <~ new_address;; vector_copy this other
  | OpAssign this other => assign this other
  | OpPushBack this v => push_back this v
  | OpPopBack this => pop_back this
  | OpReserve this n => reserve this n
  | OpShrinkToFit this => shrink_to_fit this
  | OpClear this => clear this
  | OpSwap this other => swap this other
  | OpInsert this pos v => insert this pos v;;; ret tt
  | OpErase this pos => erase this pos;;; ret tt
  | OpEraseRange this first last => erase_range this first last;;; ret tt
  end.

(** The arguments of a call are values of their C++ types: the
    argument of [reserve] is a [size_t]. *)
Definition well_typed (o : op T) : Prop :=
  match o with
  | OpReserve _ n => 0 <= n < 2 ^ 64
  | _ => True
  end.

(** The states a program can be in: it starts without objects and
    without memory, and calls public operations, each of which returns
    or throws.  A call with undefined behaviour leads nowhere. *)
Inductive reachable : world T -> Prop :=
  | reachable_start a c s : reachable (World ∅ ∅ a c s)
  | reachable_return o w w' :
      reachable w -> well_typed o -> run_op o w = Ok tt w' -> reachable w'
  | reachable_throw o w w' :
      reachable w -> well_typed o -> run_op o w = Throw w' -> reachable w'.

End Programs.

(** Every block has fewer than [2^64] slots. *)
Definition heap_ok {T} (h : gmap nat (list (option T))) : Prop :=
  forall b sl, h !! b = Some sl -> Z.of_nat (length sl) < 2 ^ 64.

(** What holds of the members of every vector object between calls. *)
Definition vec_ok (v : vec) : Prop :=
  0 <= size_ v < 2 ^ 64 /\
  0 <= capacity_ v < 2 ^ 64 /\
  (capacity_ v = 0 -> size_ v = 0) /\
  (0 < capacity_ v -> data_ v <> Null) /\
  (data_ v = Null \/ exists b, data_ v = Ptr b 0).

Definition state_ok {T} (w : world T) : Prop :=
  heap_ok (heap w) /\ map_Forall (fun _ v => vec_ok v) (vecs w).

(** [keeps m]: [m] works on raw memory only; it leaves the objects
    alone and creates no block of [2^64] slots or more. *)
Definition keeps {T A} (m : M T A) : Prop :=
  forall w, heap_ok (heap w) ->
    wpg True m (fun _ w' => heap_ok (heap w') /\ vecs w' = vecs w)
               (fun w' => heap_ok (heap w') /\ vecs w' = vecs w) w.

(** [safe m]: [m] takes a good state to a good state, whether it returns
    or throws. *)
Definition safe {T A} (m : M T A) : Prop :=
  forall w, state_ok w ->
    wpg True m (fun _ w' => state_ok w') (fun w' => state_ok w') w.

(** * Abstract view of a vector *)

(** [content h d l]: the buffer [d] starts a block of [h] whose first
    slots hold the live objects [l], in this order; a null buffer holds
    nothing. *)
Definition content {T} (h : gmap nat (list (option T))) (d : ptr) (l : list T)
  : Prop :=
  match d with
  | Null => l = []
  | Ptr b off => off = 0 /\ exists rest, h !! b = Some ((Some <$> l) ++ rest)
  end.

(** The memory once the block of buffer [d] has been released. *)
Definition release {T} (d : ptr) (h : gmap nat (list (option T)))
  : gmap nat (list (option T)) :=
  match d with
  | Null => h
  | Ptr b _ => delete b h
  end.

(** [owns w this l cap]: in [w] the object at [this] is a vector whose
    elements are [l], in this order, with capacity [cap]: its buffer, when
    it has one, starts a block of at most [cap] slots, the first
    [length l] of which hold [l].  Without a buffer the vector has no
    capacity. *)
Definition owns {T} (w : world T) (this : nat) (l : list T) (cap : Z) : Prop :=
  exists v,
    vecs w !! this = Some v /\
    size_ v = Z.of_nat (length l) /\
    capacity_ v = cap /\
    0 <= cap < 2 ^ 64 /\
    content (heap w) (data_ v) l /\
    Z.of_nat (room (heap w) (data_ v)) <= cap /\
    (data_ v = Null -> cap = 0).

(** Number of objects that fit in the block [operator new] returns for a
    buffer of capacity [n]. *)
Definition slots_for {T} `{!Element T} (n : Z) : nat :=
  Z.to_nat (wrap (n * @sizeofT T _) / @sizeofT T _).

(** Number of slots of the block behind the vector at [this]. *)
Definition room_of {T} (w : world T) (this : nat) : nat :=
  match vecs w !! this with
  | Some v => room (heap w) (data_ v)
  | None => O
  end.

(** The capacity [increase_capacity] asks for when the capacity is [cap]. *)
Definition grown (cap : Z) : Z := if decide (cap = 0) then 1 else wrap (cap * 2).

(** The effect of a successful [std::swap] of the elements at positions
    [i] and [j] of a sequence. *)
Definition swap_list {A} (i j : nat) (l : list A) : list A :=
  match l !! i, l !! j with
  | Some a, Some b => <[j := a]> (<[i := b]> l)
  | _, _ => l
  end.

(** [m] successive swaps of the positions [(i, j)], [(i+1, j+1)], ... *)
Fixpoint shift_list {A} (m : nat) (i j : nat) (l : list A) : list A :=
  match m with
  | O => l
  | S m' => shift_list m' (S i) (S j) (swap_list i j l)
  end.

(** [copies_ok c l]: the copies of the elements of [l], made in order
    from invocation [c] of the copy constructor on, all succeed. *)
Definition copies_ok {T} `{!Element T} (c : Z) (l : list T) : Prop :=
  forall k x, l !! k = Some x -> copy_throws (c + Z.of_nat k) x = false.

(** [copy_fails c l]: one of these copies throws. *)
Definition copy_fails {T} `{!Element T} (c : Z) (l : list T) : Prop :=
  exists k x, l !! k = Some x /\ copy_throws (c + Z.of_nat k) x = true.

(** [failed_swap s s']: one of the [std::swap] invocations numbered from
    [s] up to [s'] throws, on some pair of values. *)
Definition failed_swap {T} `{!Element T} (s s' : Z) : Prop :=
  exists k x y, s <= k < s' /\ @swap_throws T _ k x y <> None.

(** [m] successive swaps of the positions [(i, i-1)], [(i-1, i-2)], ...:
    the loop of [insert] on a sequence. *)
Fixpoint bubble_list {A} (m : nat) (i : nat) (l : list A) : list A :=
  match m with
  | O => l
  | S m' => bubble_list m' (i - 1) (swap_list i (i - 1) l)
  end.

(** Two buffers that do not share a block. *)
Definition apart (d1 d2 : ptr) : Prop :=
  match d1, d2 with
  | Ptr b1 _, Ptr b2 _ => b1 <> b2
  | _, _ => True
  end.

(** The buffer of the vector at [this]. *)
Definition buffer_of {T} (w : world T) (this : nat) : option ptr :=
  data_ <$> vecs w !! this.

(** The copy constructor or the allocator throws on some invocation. *)
Definition copy_or_alloc_throws {T} `{!Element T} `{!Allocator} : Prop :=
  (exists k (x : T), copy_throws k x = true) \/
  (exists k n, alloc_throws k n = true).

(** [std::swap] throws on some invocation. *)
Definition swap_may_throw {T} `{!Element T} : Prop :=
  exists k (x y : T), swap_throws k x y <> None.

(** [all_own w]: every vector of [w] owns its elements, no two vectors
    have their buffers in the same block, and every block is the buffer
    of a vector. *)
Definition all_own {T} (w : world T) : Prop :=
  (forall this v, vecs w !! this = Some v ->
     exists l, owns w this l (capacity_ v)) /\
  (forall a b va vb, a <> b ->
     vecs w !! a = Some va -> vecs w !! b = Some vb ->
     apart (data_ va) (data_ vb)) /\
  (forall b, is_Some (heap w !! b) ->
     exists this v off, vecs w !! this = Some v /\ data_ v = Ptr b off).

(** [maintains m]: from a state in which every vector owns its elements,
    [m] returns or throws in such a state. *)
Definition maintains {T A} (m : M T A) : Prop :=
  forall w, all_own w ->
    wpg True m (fun _ w' => all_own w') (fun w' => all_own w') w.

(** * Concrete element types, allocators and states

    The statements below are exercised on vectors of integers. *)

(** Integers whose copy constructor throws on its invocation number
    [k], counting from zero, and never otherwise; [std::swap] on them
    never throws. *)
Definition int_failing_copy (k : Z) : Element Z :=
  {| sizeofT := 4;
     copy_throws := fun i _ => i =? k;
     swap_throws := fun _ _ _ => None |}.

(** Integers whose copy constructor never throws. *)
Definition int_elem : Element Z :=
  {| sizeofT := 4;
     copy_throws := fun _ _ => false;
     swap_throws := fun _ _ _ => None |}.

(** Integers for which [std::swap] throws on its invocation number [k],
    counting from zero, leaving the two objects as they were, and never
    otherwise; their copy constructor never throws. *)
Definition int_failing_swap (k : Z) : Element Z :=
  {| sizeofT := 4;
     copy_throws := fun _ _ => false;
     swap_throws := fun i a b => if i =? k then Some (a, b) else None |}.

(** An allocator that never throws, and one that always does. *)
Definition plain_alloc : Allocator := {| alloc_throws := fun _ _ => false |}.
Definition no_memory : Allocator := {| alloc_throws := fun _ _ => true |}.

(** The state without objects and without memory. *)
Definition empty_world : world Z := World ∅ ∅ 0 0 0.

(** A vector at address 0 that holds [1, 2, 3] in a buffer of four
    slots. *)
Definition world_123 : world Z :=
  World {[ 5%nat := [Some 1; Some 2; Some 3; None] ]}
        {[ 0%nat := Vec (Ptr 5 0) 3 4 ]} 0 0 0.

(** A full vector at address 0 that holds [1, 2]. *)
Definition world_12_full : world Z :=
  World {[ 5%nat := [Some 1; Some 2] ]}
        {[ 0%nat := Vec (Ptr 5 0) 2 2 ]} 0 0 0.

(** A vector at address 0 that holds [1, 2, 3, 4, 5] in a buffer of
    eight slots. *)
Definition world_12345 : world Z :=
  World {[ 5%nat := [Some 1; Some 2; Some 3; Some 4; Some 5; None; None; None] ]}
        {[ 0%nat := Vec (Ptr 5 0) 5 8 ]} 0 0 0.

(** A default-constructed vector at address 0 and a copy of it at
    address 1, as left by [vector a; vector b(a);]. *)
Definition world_copy_of_empty : world Z :=
  World {[ 0%nat := [] ]}
        {[ 0%nat := Vec Null 0 0; 1%nat := Vec (Ptr 0 0) 0 0 ]} 1 0 0.

(** A source block of [n + 1] integers and a destination block of as
    many raw slots. *)
Definition world_blocks (n : nat) : world Z :=
  World {[ 0%nat := Some <$> replicate (S n) 7;
           1%nat := replicate (S n) None ]} ∅ 0 0 0.

(** A vector at address 0 that holds [1, 2, 3] and a vector at address 1
    that holds [7, 8], each full. *)
Definition world_two : world Z :=
  World {[ 5%nat := [Some 1; Some 2; Some 3]; 6%nat := [Some 7; Some 8] ]}
        {[ 0%nat := Vec (Ptr 5 0) 3 3; 1%nat := Vec (Ptr 6 0) 2 2 ]} 0 0 0.

(** A vector at address 0 without elements but with a buffer of four
    slots, as left by [reserve(4)] or [clear()]. *)
Definition world_spare : world Z :=
  World {[ 5%nat := [None; None; None; None] ]}
        {[ 0%nat := Vec (Ptr 5 0) 0 4 ]} 0 0 0.

(** * Reasoning principles *)

(** ** Machine arithmetic *)

Lemma wrap_small (z : Z) : 0 <= z < 2 ^ 64 -> wrap z = z.
Proof. intros H. unfold wrap. apply Z.mod_small. exact H. Qed.

Lemma wrap_range (z : Z) : 0 <= wrap z < 2 ^ 64.
Proof. unfold wrap. apply Z.mod_pos_bound. lia. Qed.

Lemma to_int_small (z : Z) : - 2 ^ 31 <= z < 2 ^ 31 -> to_int z = z.
Proof.
  intros H. unfold to_int. rewrite Z.mod_small; lia.
Qed.

Lemma to_int_le (z : Z) : 0 <= z -> to_int z <= z.
Proof.
  intros H. unfold to_int.
  pose proof (Z.mod_le (z + 2 ^ 31) (2 ^ 32)). lia.
Qed.

(** ** Rules for weakest preconditions *)

Section Wp.
Context {T : Type}.

Lemma wpg_ret {A} ub (a : A) Q E (w : world T) : wpg ub (ret a) Q E w = Q a w.
Proof. reflexivity. Qed.

Lemma wpg_bind {A B} ub (m : M T A) (k : A -> M T B) Q E (w : world T) :
  wpg ub (bind m k) Q E w = wpg ub m (fun a w' => wpg ub (k a) Q E w') E w.
Proof. unfold wpg, bind. destruct (m w); reflexivity. Qed.

Lemma wpg_catch {A} ub (m : M T A) h Q E (w : world T) :
  wpg ub (catch_rethrow m h) Q E w
  = wpg ub m Q (fun w' => wpg ub h (fun _ => E) E w') w.
Proof.
  unfold wpg, catch_rethrow. destruct (m w) as [a w'|w'|]; try reflexivity.
  destruct (h w'); reflexivity.
Qed.

Lemma wpg_finally {A} ub (m : M T A) d Q E (w : world T) :
  wpg ub (finally m d) Q E w
  = wpg ub m (fun a w' => wpg ub d (fun _ => Q a) E w')
             (fun w' => wpg ub d (fun _ => E) E w') w.
Proof.
  unfold wpg, finally. destruct (m w) as [a w'|w'|]; try reflexivity;
    destruct (d w'); reflexivity.
Qed.

Lemma wpg_of_option_some {A} ub (a : A) Q E (w : world T) :
  wpg ub (of_option (Some a)) Q E w = Q a w.
Proof. reflexivity. Qed.

Lemma wpg_mono {A} (ub ub' : Prop) (m : M T A) (Q Q' : A -> world T -> Prop)
    (E E' : world T -> Prop) w :
  wpg ub m Q E w ->
  (ub -> ub') ->
  (forall a w', Q a w' -> Q' a w') ->
  (forall w', E w' -> E' w') ->
  wpg ub' m Q' E' w.
Proof.
  unfold wpg. intros H Hub HQ HE. destruct (m w); auto.
Qed.

(** Reading the two instances back as statements about the result. *)
Lemma wpg_partial {A} (m : M T A) Q E (w : world T) :
  wpg True m Q E w ->
  (forall a w', m w = Ok a w' -> Q a w') /\
  (forall w', m w = Throw w' -> E w').
Proof.
  unfold wpg. intros H. split; intros; destruct (m w); simplify_eq; done.
Qed.

Lemma wpg_total {A} (m : M T A) Q E (w : world T) :
  wpg False m Q E w ->
  (exists a w', m w = Ok a w' /\ Q a w') \/
  (exists w', m w = Throw w' /\ E w').
Proof.
  unfold wpg. intros H. destruct (m w) as [a w'|w'|]; [left|right|done]; eauto.
Qed.

Lemma wpg_returns {A} (m : M T A) Q (w : world T) :
  wpg False m Q (fun _ => False) w ->
  exists a w', m w = Ok a w' /\ Q a w'.
Proof.
  intros H. apply wpg_total in H as [H|(w' & _ & [])]. exact H.
Qed.

Lemma wpg_throws {A} (m : M T A) E (w : world T) :
  wpg False m (fun _ _ => False) E w ->
  exists w', m w = Throw w' /\ E w'.
Proof.
  intros H. apply wpg_total in H as [(a & w' & _ & [])|H]. exact H.
Qed.

(** The rule for counted loops: [I k] holds before round [k], the
    index of which is [idx k]. *)
Lemma wpg_iterate ub (n : nat) (next : Z -> Z) (body : Z -> M T unit)
    (idx : nat -> Z) (I : nat -> world T -> Prop) Q E (w : world T) :
  (forall k, (k < n)%nat -> next (idx k) = idx (S k)) ->
  I O w ->
  (forall k w', (k < n)%nat -> I k w' ->
     wpg ub (body (idx k)) (fun _ w'' => I (S k) w'') E w') ->
  (forall w', I n w' -> Q tt w') ->
  wpg ub (iterate n next (idx O) body) Q E w.
Proof.
  revert idx I w. induction n as [|n IH]; intros idx I w Hnext H0 Hbody HQ.
  - simpl. rewrite wpg_ret. auto.
  - simpl. rewrite wpg_bind.
    eapply wpg_mono; [apply (Hbody O); [lia|exact H0] |auto| |auto].
    intros [] w' HI. simpl in HI.
    rewrite (Hnext O) by lia.
    apply (IH (fun k => idx (S k)) (fun k => I (S k))).
    + intros k Hk. apply Hnext. lia.
    + exact HI.
    + intros k w'' Hk HIk. apply Hbody; [lia|exact HIk].
    + exact HQ.
Qed.

End Wp.

(** ** Lists as arrays of slots *)

Lemma insert_app_drop {A} (pre sl : list A) (k : nat) (x : A) :
  length pre = k -> (k < length sl)%nat ->
  <[k := x]> (pre ++ drop k sl) = (pre ++ [x]) ++ drop (S k) sl.
Proof.
  intros Hpre Hk.
  destruct (lookup_lt_is_Some_2 sl k Hk) as [y Hy].
  rewrite (drop_S _ _ _ Hy).
  rewrite insert_app_r_alt by lia.
  rewrite Hpre, Nat.sub_diag. simpl. by rewrite <- app_assoc.
Qed.

Lemma replicate_snoc {A} (n : nat) (x : A) :
  replicate (S n) x = replicate n x ++ [x].
Proof. induction n as [|n IH]; [done|]. simpl in *. by rewrite <- IH. Qed.

Lemma lookup_pre_drop {A} (pre sl : list A) (k : nat) :
  length pre = k -> (pre ++ drop k sl) !! k = sl !! k.
Proof.
  intros Hpre. rewrite lookup_app_r by lia.
  rewrite Hpre, Nat.sub_diag, lookup_drop. f_equal. lia.
Qed.

(** ** Shifting a sequence down by swaps *)

Lemma swap_list_length {A} (i j : nat) (l : list A) :
  length (swap_list i j l) = length l.
Proof.
  unfold swap_list. destruct (l !! i), (l !! j); try done.
  by rewrite !length_insert.
Qed.

Lemma swap_list_same {A} (i : nat) (l : list A) : swap_list i i l = l.
Proof.
  unfold swap_list. destruct (l !! i) eqn:H; [|done].
  rewrite list_insert_insert_eq. by apply list_insert_id.
Qed.

Lemma swap_list_split {A} (pre mid post : list A) (x y : A) :
  swap_list (length pre) (length pre + S (length mid))
            (pre ++ y :: mid ++ x :: post)
  = pre ++ x :: mid ++ y :: post.
Proof.
  unfold swap_list.
  rewrite (list_lookup_middle pre (mid ++ x :: post) y (length pre)) by done.
  replace (pre ++ y :: mid ++ x :: post) with ((pre ++ y :: mid) ++ x :: post)
    by (by rewrite <- app_assoc).
  rewrite (list_lookup_middle (pre ++ y :: mid) post x)
    by (rewrite length_app; simpl; lia).
  rewrite <- app_assoc. simpl.
  rewrite (insert_app_r_alt pre) by lia. rewrite Nat.sub_diag. simpl.
  rewrite (insert_app_r_alt pre) by lia.
  replace (length pre + S (length mid) - length pre)%nat with (S (length mid))
    by lia.
  simpl. rewrite (insert_app_r_alt mid) by lia. by rewrite Nat.sub_diag.
Qed.

Lemma shift_list_length {A} (m i j : nat) (l : list A) :
  length (shift_list m i j l) = length l.
Proof.
  revert i j l. induction m as [|m IH]; intros i j l; [done|].
  simpl. by rewrite IH, swap_list_length.
Qed.

(** Shifting the block [post] down over [mid] puts it right after [pre];
    what was in [mid] ends up behind it, in some order. *)
Lemma shift_list_blocks {A} (post : list A) : forall pre mid,
  exists mid',
    length mid' = length mid /\
    shift_list (length post) (length pre) (length pre + length mid)
               (pre ++ mid ++ post)
    = pre ++ post ++ mid'.
Proof.
  induction post as [|x post IH]; intros pre mid.
  - exists mid. split; [done|]. simpl. by rewrite app_nil_r.
  - cbn [length shift_list]. destruct mid as [|y mid].
    + cbn [length app]. rewrite Nat.add_0_r, swap_list_same.
      destruct (IH (pre ++ [x]) []) as (mid' & Hlen & Heq).
      exists mid'. split; [done|].
      rewrite length_app in Heq. cbn [length app] in Heq.
      rewrite Nat.add_0_r, Nat.add_1_r, <- app_assoc in Heq. cbn [app] in Heq.
      rewrite Heq, <- app_assoc. done.
    + cbn [length]. rewrite <- app_comm_cons, swap_list_split.
      destruct (IH (pre ++ [x]) (mid ++ [y])) as (mid' & Hlen & Heq).
      exists mid'. split.
      { rewrite Hlen, length_app. simpl. lia. }
      rewrite !length_app in Heq. cbn [length] in Heq.
      replace (length pre + 1 + (length mid + 1))%nat
        with (S (length pre + S (length mid))) in Heq by lia.
      rewrite Nat.add_1_r in Heq.
      rewrite <- !app_assoc in Heq. cbn [app] in Heq.
      exact Heq.
Qed.

Lemma shift_list_range {A} (l : list A) (f la : nat) :
  (f <= la <= length l)%nat ->
  exists mid',
    length mid' = (la - f)%nat /\
    shift_list (length l - la) f la l = take f l ++ drop la l ++ mid'.
Proof.
  intros H.
  destruct (shift_list_blocks (drop la l) (take f l) (take (la - f) (drop f l)))
    as (mid' & Hlen & Heq).
  exists mid'. split.
  { rewrite Hlen, length_take, length_drop. lia. }
  rewrite length_drop, !length_take, length_drop in Heq.
  replace (f `min` length l)%nat with f in Heq by lia.
  replace (f + (la - f) `min` (length l - f))%nat with la in Heq by lia.
  rewrite app_assoc, take_take_drop in Heq.
  replace (f + (la - f))%nat with la in Heq by lia.
  by rewrite take_drop in Heq.
Qed.

(** ** Memory operations on an explicit state *)

Section Memory.
Context {T : Type} {elem : Element T} {alloc : Allocator}.
Implicit Types (h : gmap nat (list (option T))) (vs : gmap nat vec).
Implicit Types (sl : list (option T)) (l : list T).

Lemma slot_block h vs a c s b sl (i : nat) :
  h !! b = Some sl ->
  slot (World h vs a c s) (Ptr b (Z.of_nat i)) = sl !! i.
Proof.
  intros Hb. unfold slot. simpl. rewrite Hb. simpl.
  rewrite decide_True by lia. by rewrite Nat2Z.id.
Qed.

Lemma write_block h vs a c s b sl (i : nat) x :
  h !! b = Some sl ->
  write (Ptr b (Z.of_nat i)) x (World h vs a c s)
  = World (<[b := <[i := x]> sl]> h) vs a c s.
Proof.
  intros Hb. unfold write, set_heap. simpl. rewrite Hb.
  by rewrite Nat2Z.id.
Qed.

Lemma ptr_add_block (b : nat) (k : Z) : ptr_add (Ptr b 0) k = Some (Ptr b k).
Proof. reflexivity. Qed.

(** [destroy_all] on the first [size] slots of a block, all live. *)
Lemma wpg_destroy_all ub b sl (size : Z) h vs a c s
    (Q : unit -> world T -> Prop) E :
  h !! b = Some sl ->
  (forall k, (k < Z.to_nat size)%nat -> exists x, sl !! k = Some (Some x)) ->
  Q tt (World (<[b := replicate (Z.to_nat size) None
                      ++ drop (Z.to_nat size) sl]> h) vs a c s) ->
  wpg ub (destroy_all (Ptr b 0) size) Q E (World h vs a c s).
Proof.
  intros Hb Hlive HQ. unfold destroy_all.
  apply (wpg_iterate ub _ _ _ Z.of_nat
           (fun k w => w = World (<[b := replicate k None ++ drop k sl]> h)
                                 vs a c s)).
  - intros k _. lia.
  - simpl. rewrite drop_0. by rewrite insert_id.
  - intros k w' Hk ->.
    destruct (Hlive k Hk) as [x Hx].
    rewrite wpg_bind, ptr_add_block, wpg_of_option_some.
    unfold wpg, destroy_at.
    rewrite (slot_block _ _ _ _ _ b (replicate k None ++ drop k sl))
      by apply lookup_insert_eq.
    rewrite lookup_pre_drop by apply length_replicate.
    rewrite Hx.
    rewrite (write_block _ _ _ _ _ b (replicate k None ++ drop k sl))
      by apply lookup_insert_eq.
    rewrite insert_insert_eq.
    rewrite insert_app_drop;
      [|apply length_replicate|by eapply lookup_lt_Some].
    by rewrite <- replicate_snoc.
  - intros w' ->. exact HQ.
Qed.

Lemma destroy_all_nothing (p : ptr) (size : Z) (w : world T) :
  size <= 0 -> destroy_all p size w = Ok tt w.
Proof.
  intros H. unfold destroy_all.
  replace (Z.to_nat size) with O by lia. reflexivity.
Qed.

Lemma copy_construct_all_nothing (dst src : ptr) (w : world T) :
  copy_construct_all dst src 0 w = Ok tt w.
Proof. reflexivity. Qed.

(** [copy_construct_all] from a block that starts with the live objects
    [l] into another block [bd].  It returns once every element has
    been copied; it throws at the first element whose copy throws,
    after [destroy_all] has been run on the destination with the index
    of that element converted to [int]. *)
Lemma wpg_copy_construct_all ub bd bs sd l rest h vs a c s
    (Q : unit -> world T -> Prop) (E : world T -> Prop) :
  bs <> bd ->
  h !! bs = Some ((Some <$> l) ++ rest) ->
  h !! bd = Some sd ->
  Z.of_nat (length l) < 2 ^ 64 ->
  (ub \/ (length l <= length sd)%nat) ->
  ((forall k x, l !! k = Some x -> copy_throws (c + Z.of_nat k) x = false) ->
   (length l <= length sd)%nat ->
   Q tt (World (<[bd := (Some <$> l) ++ drop (length l) sd]> h)
               vs a (c + Z.of_nat (length l)) s)) ->
  (forall k x,
     l !! k = Some x -> (k < length sd)%nat ->
     (forall j y, (j < k)%nat -> l !! j = Some y ->
                  copy_throws (c + Z.of_nat j) y = false) ->
     copy_throws (c + Z.of_nat k) x = true ->
     E (World (<[bd := replicate (Z.to_nat (to_int (Z.of_nat k))) None
                       ++ drop (Z.to_nat (to_int (Z.of_nat k)))
                            ((Some <$> take k l) ++ drop k sd)]> h)
              vs a (c + Z.of_nat k + 1) s)) ->
  wpg ub (copy_construct_all (Ptr bd 0) (Ptr bs 0) (Z.of_nat (length l)))
      Q E (World h vs a c s).
Proof.
  intros Hne Hsrc Hdst Hlen Hfit HQ HE. unfold copy_construct_all.
  rewrite Nat2Z.id.
  apply (wpg_iterate ub _ _ _ Z.of_nat
           (fun k w =>
              w = World (<[bd := (Some <$> take k l) ++ drop k sd]> h)
                        vs a (c + Z.of_nat k) s /\
              (k <= length sd)%nat /\
              (forall j y, (j < k)%nat -> l !! j = Some y ->
                           copy_throws (c + Z.of_nat j) y = false))).
  - intros k Hk. rewrite wrap_small; lia.
  - split; [|split; [lia|intros; lia]].
    simpl. rewrite drop_0, Z.add_0_r. by rewrite insert_id.
  - intros k w' Hk (-> & Hksd & Hok).
    destruct (lookup_lt_is_Some_2 l k Hk) as [x Hx].
    set (X := (Some <$> take k l) ++ drop k sd).
    assert (HlenX : length (Some <$> take k l) = k).
    { rewrite length_fmap, length_take. lia. }
    rewrite wpg_bind, ptr_add_block, wpg_of_option_some.
    rewrite wpg_bind, ptr_add_block, wpg_of_option_some.
    rewrite wpg_bind.
    assert (Hs : slot (World (<[bd:=X]> h) vs a (c + Z.of_nat k) s)
                      (Ptr bs (Z.of_nat k)) = Some (Some x)).
    { rewrite (slot_block _ _ _ _ _ bs ((Some <$> l) ++ rest))
        by (by rewrite lookup_insert_ne).
      rewrite lookup_app_l by (rewrite length_fmap; lia).
      by rewrite list_lookup_fmap, Hx. }
    unfold wpg at 1. unfold load. rewrite Hs.
    rewrite wpg_catch. unfold wpg at 1. unfold construct_at.
    rewrite (slot_block _ _ _ _ _ bd X) by apply lookup_insert_eq.
    unfold X at 1. rewrite lookup_pre_drop by exact HlenX.
    destruct (sd !! k) as [y|] eqn:Hy.
    + assert (Hk' : (k < length sd)%nat) by (by eapply lookup_lt_Some).
      cbn [copies]. destruct (copy_throws (c + Z.of_nat k) x) eqn:Hthrow.
      * cbn [heap vecs allocs swaps].
        apply wpg_destroy_all with (sl := X).
        { apply lookup_insert_eq. }
        { intros j Hj.
          pose proof (to_int_le (Z.of_nat k) ltac:(lia)).
          assert (Hjk : (j < k)%nat) by lia.
          destruct (lookup_lt_is_Some_2 l j ltac:(lia)) as [z Hz].
          exists z. unfold X. rewrite lookup_app_l by lia.
          rewrite list_lookup_fmap, lookup_take_lt by lia. by rewrite Hz. }
        rewrite insert_insert_eq. exact (HE k x Hx Hk' Hok Hthrow).
      * cbn [heap vecs allocs swaps].
        rewrite (write_block _ _ _ _ _ bd X) by apply lookup_insert_eq.
        rewrite insert_insert_eq. unfold X.
        rewrite insert_app_drop by (exact HlenX || exact Hk').
        rewrite (take_S_r _ _ _ Hx), fmap_app.
        split; [|split; [lia|]].
        { f_equal. lia. }
        intros j z Hj Hz. destruct (decide (j = k)) as [->|].
        { by simplify_eq. }
        apply Hok; [lia|done].
    + apply lookup_ge_None in Hy. destruct Hfit as [Hub|Hfit]; [exact Hub|lia].
  - intros w' (-> & Hksd & Hok).
    rewrite firstn_all. apply HQ; [|exact Hksd].
    intros k x Hx. apply (Hok k x); [|exact Hx]. by eapply lookup_lt_Some.
Qed.

(** The rollback of [copy_construct_all] when the copy of element [k]
    is the first that throws and [k] fits in an [int]: the [k]
    objects already constructed are destroyed, the rest of the
    destination and the source are as before, and the exception
    propagates. *)
Lemma copy_construct_all_rollback bd bs sd l rest h vs a c s (k : nat) (x : T) :
  bs <> bd ->
  h !! bs = Some ((Some <$> l) ++ rest) ->
  h !! bd = Some sd ->
  Z.of_nat (length l) < 2 ^ 64 ->
  (length l <= length sd)%nat ->
  l !! k = Some x ->
  Z.of_nat k < 2 ^ 31 ->
  (forall j y, (j < k)%nat -> l !! j = Some y ->
               copy_throws (c + Z.of_nat j) y = false) ->
  copy_throws (c + Z.of_nat k) x = true ->
  copy_construct_all (Ptr bd 0) (Ptr bs 0) (Z.of_nat (length l))
    (World h vs a c s)
  = Throw (World (<[bd := replicate k None ++ drop k sd]> h)
                 vs a (c + Z.of_nat k + 1) s).
Proof.
  intros Hne Hsrc Hdst Hlen Hfit Hx Hk Hprev Hthrow.
  assert (Hwp : wpg False
            (copy_construct_all (Ptr bd 0) (Ptr bs 0) (Z.of_nat (length l)))
            (fun _ _ => False)
            (fun w' => w' = World (<[bd := replicate k None ++ drop k sd]> h)
                                  vs a (c + Z.of_nat k + 1) s)
            (World h vs a c s)).
  { apply wpg_copy_construct_all with (sd := sd) (rest := rest); try done.
    - by right.
    - intros Hok _. by rewrite (Hok k x Hx) in Hthrow.
    - intros k' x' Hx' Hk' Hprev' Hthrow'.
      assert (k' = k) as ->.
      { destruct (Nat.lt_trichotomy k' k) as [Hlt|[?|Hlt]]; [|done|].
        - by rewrite (Hprev k' x' Hlt Hx') in Hthrow'.
        - by rewrite (Hprev' k x Hlt Hx) in Hthrow. }
      rewrite to_int_small, Nat2Z.id by lia.
      rewrite drop_app_length'; [done|].
      rewrite length_fmap, length_take.
      apply lookup_lt_Some in Hx. lia. }
  unfold wpg in Hwp.
  destruct (copy_construct_all _ _ _ _); [done|by subst|done].
Qed.

(** Rules for the object store and the allocator. *)

Lemma wpg_get_vec {A} ub this v h vs a c s (Q : A -> world T -> Prop) E k :
  vs !! this = Some v ->
  wpg ub (bind (get_vec this) k) Q E (World h vs a c s)
  = wpg ub (k v) Q E (World h vs a c s).
Proof. intros H. unfold wpg, bind, get_vec. simpl. by rewrite H. Qed.

Lemma wpg_set_vec ub this v h vs a c s (Q : unit -> world T -> Prop) E :
  wpg ub (set_vec this v) Q E (World h vs a c s)
  = Q tt (World h (<[this := v]> vs) a c s).
Proof. reflexivity. Qed.

Lemma wpg_set_data ub this v p h vs a c s (Q : unit -> world T -> Prop) E :
  vs !! this = Some v ->
  wpg ub (set_data this p) Q E (World h vs a c s)
  = Q tt (World h (<[this := Vec p (size_ v) (capacity_ v)]> vs) a c s).
Proof. intros H. unfold set_data. by rewrite (wpg_get_vec _ _ _ _ _ _ _ _ _ _ _ H). Qed.

Lemma wpg_set_size ub this v n h vs a c s (Q : unit -> world T -> Prop) E :
  vs !! this = Some v ->
  wpg ub (set_size this n) Q E (World h vs a c s)
  = Q tt (World h (<[this := Vec (data_ v) n (capacity_ v)]> vs) a c s).
Proof. intros H. unfold set_size. by rewrite (wpg_get_vec _ _ _ _ _ _ _ _ _ _ _ H). Qed.

Lemma wpg_set_capacity ub this v n h vs a c s
    (Q : unit -> world T -> Prop) E :
  vs !! this = Some v ->
  wpg ub (set_capacity this n) Q E (World h vs a c s)
  = Q tt (World h (<[this := Vec (data_ v) (size_ v) n]> vs) a c s).
Proof. intros H. unfold set_capacity. by rewrite (wpg_get_vec _ _ _ _ _ _ _ _ _ _ _ H). Qed.

Lemma wpg_new_address ub h vs a c s (Q : nat -> world T -> Prop) E :
  (forall tmp, vs !! tmp = None -> Q tmp (World h vs a c s)) ->
  wpg ub new_address Q E (World h vs a c s).
Proof.
  intros H. unfold wpg, new_address. apply H.
  apply not_elem_of_dom, is_fresh.
Qed.

Lemma wpg_operator_new ub bytes h vs a c s (Q : ptr -> world T -> Prop) E :
  (alloc_throws a bytes = true -> E (World h vs (a + 1) c s)) ->
  (alloc_throws a bytes = false ->
   forall b, h !! b = None ->
     Q (Ptr b 0)
       (World (<[b := replicate (Z.to_nat (bytes / @sizeofT T _)) None]> h)
              vs (a + 1) c s)) ->
  wpg ub (operator_new bytes) Q E (World h vs a c s).
Proof.
  intros HE HQ. unfold wpg, operator_new. cbn [allocs heap vecs copies swaps].
  destruct (alloc_throws a bytes); [by apply HE|].
  apply HQ; [done|]. apply not_elem_of_dom, is_fresh.
Qed.

Lemma wpg_operator_delete ub d l h vs a c s (Q : unit -> world T -> Prop) E :
  content h d l ->
  Q tt (World (release d h) vs a c s) ->
  wpg ub (operator_delete d) Q E (World h vs a c s).
Proof.
  intros Hc HQ. unfold wpg, operator_delete.
  destruct d as [|b off]; [exact HQ|].
  destruct Hc as (-> & rest & Hb). rewrite decide_True by done.
  cbn [heap]. rewrite Hb. exact HQ.
Qed.

Lemma content_insert_ne h b sl d l :
  h !! b = None -> content h d l -> content (<[b := sl]> h) d l.
Proof.
  intros Hb. destruct d as [|b' off]; [done|].
  intros (-> & rest & Hb'). split; [done|]. exists rest.
  rewrite lookup_insert_ne; [done|]. intros ->. congruence.
Qed.

(** [~vector()] on an object whose buffer holds [l]. *)
Lemma wpg_vector_dtor ub this d sz cp l h vs a c s
    (Q : unit -> world T -> Prop) E :
  vs !! this = Some (Vec d sz cp) ->
  sz = Z.of_nat (length l) ->
  content h d l ->
  Q tt (World (release d h) (delete this vs) a c s) ->
  wpg ub (vector_dtor this) Q E (World h vs a c s).
Proof.
  intros Hv -> Hc HQ. unfold vector_dtor.
  rewrite (wpg_get_vec _ _ _ _ _ _ _ _ _ _ _ Hv). cbn [data_ size_].
  pose proof (to_int_le (Z.of_nat (length l)) ltac:(lia)) as Hle.
  rewrite wpg_bind.
  destruct d as [|b off].
  - simpl in Hc. subst l. unfold wpg at 1.
    rewrite destroy_all_nothing by (vm_compute; congruence).
    rewrite wpg_bind. unfold wpg at 1. unfold operator_delete.
    exact HQ.
  - destruct Hc as (-> & rest & Hb).
    apply wpg_destroy_all with (sl := (Some <$> l) ++ rest); [exact Hb| |].
    { intros k Hk. destruct (lookup_lt_is_Some_2 l k ltac:(lia)) as [x Hx].
      exists x. rewrite lookup_app_l by (rewrite length_fmap; lia).
      by rewrite list_lookup_fmap, Hx. }
    rewrite wpg_bind.
    eapply (wpg_operator_delete _ (Ptr b 0) []).
    { split; [done|]. eexists. simpl. apply lookup_insert_eq. }
    cbn [release]. rewrite delete_insert_eq. exact HQ.
Qed.

Lemma wpg_swap ub this other v1 v2 h vs a c s
    (Q : unit -> world T -> Prop) E :
  vs !! this = Some v1 ->
  vs !! other = Some v2 ->
  wpg ub (swap this other) Q E (World h vs a c s)
  = Q tt (World h
            (<[other := Vec (data_ v1) (size_ v1) (capacity_ v1)]>
               (<[this := Vec (data_ v2) (size_ v2) (capacity_ v2)]> vs))
            a c s).
Proof.
  intros H1 H2. unfold swap.
  rewrite (wpg_get_vec _ _ _ _ _ _ _ _ _ _ _ H1).
  by rewrite (wpg_get_vec _ _ _ _ _ _ _ _ _ _ _ H2).
Qed.

Lemma release_insert_ne h b sl d l :
  h !! b = None -> content h d l ->
  release d (<[b := sl]> h) = <[b := sl]> (release d h).
Proof.
  intros Hb Hc. destruct d as [|b' off]; [done|]. simpl.
  destruct Hc as (_ & rest & Hb').
  apply delete_insert_ne. intros ->. congruence.
Qed.

(** [copy_construct_all] out of a buffer that holds [l]. *)
Lemma wpg_copy_from ub b d sd l h vs a c s
    (Q : unit -> world T -> Prop) (E : world T -> Prop) :
  content h d l ->
  (forall off, d <> Ptr b off) ->
  h !! b = Some sd ->
  Z.of_nat (length l) < 2 ^ 64 ->
  (ub \/ (length l <= length sd)%nat) ->
  ((forall k x, l !! k = Some x -> copy_throws (c + Z.of_nat k) x = false) ->
   (length l <= length sd)%nat ->
   Q tt (World (<[b := (Some <$> l) ++ drop (length l) sd]> h)
               vs a (c + Z.of_nat (length l)) s)) ->
  (forall k x,
     l !! k = Some x -> (k < length sd)%nat ->
     (forall j y, (j < k)%nat -> l !! j = Some y ->
                  copy_throws (c + Z.of_nat j) y = false) ->
     copy_throws (c + Z.of_nat k) x = true ->
     E (World (<[b := replicate (Z.to_nat (to_int (Z.of_nat k))) None
                      ++ drop (Z.to_nat (to_int (Z.of_nat k)))
                           ((Some <$> take k l) ++ drop k sd)]> h)
              vs a (c + Z.of_nat k + 1) s)) ->
  wpg ub (copy_construct_all (Ptr b 0) d (Z.of_nat (length l)))
      Q E (World h vs a c s).
Proof.
  intros Hc Hd Hb Hlen Hfit HQ HE. destruct d as [|bs off].
  - simpl in Hc. subst l. unfold wpg.
    change (Z.of_nat (length [])) with 0. rewrite copy_construct_all_nothing.
    specialize (HQ ltac:(intros ? ? [=]) ltac:(simpl; lia)).
    simpl in HQ. rewrite drop_0, Z.add_0_r, insert_id in HQ by done. exact HQ.
  - destruct Hc as (-> & rest & Hbs).
    apply wpg_copy_construct_all with (sd := sd) (rest := rest); try done.
    intros ->. by apply (Hd 0).
Qed.

(** [new_buffer] on a vector that holds [l]: it throws when the
    allocation or the copy of an element throws, leaving memory and
    objects as they were; otherwise the vector is left with a new
    buffer of the requested capacity that holds [l], and the old
    buffer is gone. *)
Lemma wpg_new_buffer ub this (nc : Z) d sz cp l h vs a c s
    (Q : unit -> world T -> Prop) (E : world T -> Prop) :
  vs !! this = Some (Vec d sz cp) ->
  sz = Z.of_nat (length l) ->
  sz < 2 ^ 64 ->
  content h d l ->
  (ub \/ nc = 0 \/ (length l <= slots_for nc)%nat) ->
  (nc <> 0 -> alloc_throws a (wrap (nc * @sizeofT T _)) = true ->
   E (World h vs (a + 1) c s)) ->
  (nc <> 0 -> alloc_throws a (wrap (nc * @sizeofT T _)) = false ->
   forall k x,
     l !! k = Some x -> (k < slots_for nc)%nat ->
     (forall j y, (j < k)%nat -> l !! j = Some y ->
                  copy_throws (c + Z.of_nat j) y = false) ->
     copy_throws (c + Z.of_nat k) x = true ->
     E (World h vs (a + 1) (c + Z.of_nat k + 1) s)) ->
  (nc <> 0 -> alloc_throws a (wrap (nc * @sizeofT T _)) = false ->
   (forall k x, l !! k = Some x -> copy_throws (c + Z.of_nat k) x = false) ->
   (length l <= slots_for nc)%nat ->
   forall b, h !! b = None ->
     Q tt (World (<[b := (Some <$> l)
                         ++ replicate (slots_for nc - length l) None]>
                    (release d h))
                 (<[this := Vec (Ptr b 0) sz nc]> vs)
                 (a + 1) (c + Z.of_nat (length l)) s)) ->
  (nc = 0 -> Q tt (World (release d h) (<[this := Vec Null 0 0]> vs) a c s)) ->
  wpg ub (new_buffer this nc) Q E (World h vs a c s).
Proof.
  intros Hv -> Hsz Hc Hfit HEa HEc HQ HQ0. unfold new_buffer.
  rewrite wpg_bind. apply wpg_new_address. intros tmp Htmp.
  assert (Hne : tmp <> this) by congruence.
  rewrite wpg_bind. unfold vector_default. rewrite wpg_set_vec.
  rewrite wpg_finally, wpg_bind.
  destruct (decide (nc <> 0)) as [Hnc|Hnc].
  - rewrite wpg_bind. apply wpg_operator_new.
    + intros Ha.
      apply (wpg_vector_dtor _ tmp Null 0 0 []);
        [apply lookup_insert_eq|done|done|].
      cbn [release]. rewrite delete_insert_id by done. by apply HEa.
    + intros Ha b Hb.
      rewrite wpg_bind.
      rewrite (wpg_set_data _ _ (Vec Null 0 0)) by apply lookup_insert_eq.
      cbn [size_ capacity_]. rewrite insert_insert_eq.
      rewrite (wpg_get_vec _ _ (Vec d (Z.of_nat (length l)) cp))
        by (by rewrite lookup_insert_ne).
      cbn [data_ size_]. rewrite wpg_bind.
      apply wpg_copy_from with (sd := replicate (slots_for nc) None).
      * by apply content_insert_ne.
      * intros off ->. destruct Hc as (_ & rest & Hb'). congruence.
      * apply lookup_insert_eq.
      * exact Hsz.
      * rewrite length_replicate. destruct Hfit as [?|[?|?]]; auto. done.
      * rewrite length_replicate. intros Hok Hle.
        rewrite insert_insert_eq, drop_replicate.
        set (blk := (Some <$> l) ++ replicate (slots_for nc - length l) None).
        rewrite wpg_bind.
        rewrite (wpg_set_capacity _ _ (Vec (Ptr b 0) 0 0))
          by apply lookup_insert_eq.
        cbn [data_ size_ capacity_]. rewrite insert_insert_eq.
        rewrite (wpg_get_vec _ _ (Vec d (Z.of_nat (length l)) cp))
          by (by rewrite lookup_insert_ne).
        cbn [size_].
        rewrite (wpg_set_size _ _ (Vec (Ptr b 0) 0 nc))
          by apply lookup_insert_eq.
        cbn [data_ size_ capacity_]. rewrite insert_insert_eq.
        rewrite (wpg_swap _ _ _ (Vec d (Z.of_nat (length l)) cp)
                          (Vec (Ptr b 0) (Z.of_nat (length l)) nc))
          by (by rewrite ?lookup_insert_eq, ?lookup_insert_ne).
        cbn [data_ size_ capacity_].
        apply (wpg_vector_dtor _ tmp d (Z.of_nat (length l)) cp l);
          [apply lookup_insert_eq|done|by apply content_insert_ne|].
        rewrite (release_insert_ne _ _ _ _ l) by done.
        rewrite delete_insert_eq, delete_insert_ne by done.
        rewrite delete_insert_id by done.
        by apply HQ.
      * rewrite length_replicate. intros k x Hx Hk Hok Hthrow.
        rewrite insert_insert_eq.
        eapply (wpg_vector_dtor _ tmp (Ptr b 0) 0 0 []);
          [apply lookup_insert_eq|done| |].
        { split; [done|]. eexists. simpl. apply lookup_insert_eq. }
        cbn [release]. rewrite delete_insert_id by done.
        rewrite delete_insert_id by done.
        by apply (HEc Hnc Ha k x).
  - assert (nc = 0) as Hz by (destruct (decide (nc = 0)); [done|contradiction]).
    rewrite wpg_ret.
    rewrite (wpg_swap _ _ _ (Vec d (Z.of_nat (length l)) cp) (Vec Null 0 0))
      by (by rewrite ?lookup_insert_eq, ?lookup_insert_ne).
    cbn [data_ size_ capacity_].
    apply (wpg_vector_dtor _ tmp d (Z.of_nat (length l)) cp l);
      [apply lookup_insert_eq|done|done|].
    rewrite delete_insert_eq, delete_insert_ne by done.
    rewrite delete_insert_id by done.
    by apply HQ0.
Qed.

(** *** Swapping and removing elements of a buffer *)

Lemma fmap_insert_app (cur : list T) rest (i : nat) (x : T) :
  (i < length cur)%nat ->
  <[i := Some x]> ((Some <$> cur) ++ rest) = (Some <$> <[i := x]> cur) ++ rest.
Proof.
  intros Hi. rewrite insert_app_l by (rewrite length_fmap; lia).
  by rewrite list_fmap_insert.
Qed.

Lemma lookup_fmap_app (cur : list T) rest (i : nat) (x : T) :
  cur !! i = Some x -> ((Some <$> cur) ++ rest) !! i = Some (Some x).
Proof.
  intros Hx. rewrite lookup_app_l
    by (rewrite length_fmap; by eapply lookup_lt_Some).
  by rewrite list_lookup_fmap, Hx.
Qed.

(** [std::swap] on two elements of a buffer that holds [cur]: either
    the two are exchanged, or it throws and the buffer holds as many
    live objects as before. *)
Lemma wpg_swap_at ub b (cur : list T) rest (i j : nat) h vs a c s
    (Q : unit -> world T -> Prop) (E : world T -> Prop) :
  (i < length cur)%nat -> (j < length cur)%nat ->
  (forall x y, swap_throws s x y = None ->
     Q tt (World (<[b := (Some <$> swap_list i j cur) ++ rest]> h)
                 vs a c (s + 1))) ->
  (forall x y cur', swap_throws s x y <> None ->
     length cur' = length cur ->
     E (World (<[b := (Some <$> cur') ++ rest]> h) vs a c (s + 1))) ->
  wpg ub (swap_at (Ptr b (Z.of_nat i)) (Ptr b (Z.of_nat j))) Q E
      (World (<[b := (Some <$> cur) ++ rest]> h) vs a c s).
Proof.
  intros Hi Hj HQ HE.
  destruct (lookup_lt_is_Some_2 cur i Hi) as [x Hx].
  destruct (lookup_lt_is_Some_2 cur j Hj) as [y Hy].
  unfold wpg, swap_at.
  rewrite !(slot_block _ _ _ _ _ b ((Some <$> cur) ++ rest))
    by apply lookup_insert_eq.
  rewrite (lookup_fmap_app _ _ _ _ Hx), (lookup_fmap_app _ _ _ _ Hy).
  cbn [swaps heap vecs allocs copies].
  destruct (swap_throws s x y) as [[x' y']|] eqn:Hsw.
  - rewrite (write_block _ _ _ _ _ b ((Some <$> cur) ++ rest))
      by apply lookup_insert_eq.
    rewrite insert_insert_eq, fmap_insert_app by done.
    rewrite (write_block _ _ _ _ _ b ((Some <$> <[i:=x']> cur) ++ rest))
      by apply lookup_insert_eq.
    rewrite insert_insert_eq, fmap_insert_app by (by rewrite length_insert).
    apply (HE x y); [by rewrite Hsw|by rewrite !length_insert].
  - rewrite (write_block _ _ _ _ _ b ((Some <$> cur) ++ rest))
      by apply lookup_insert_eq.
    rewrite insert_insert_eq, fmap_insert_app by done.
    rewrite (write_block _ _ _ _ _ b ((Some <$> <[i:=y]> cur) ++ rest))
      by apply lookup_insert_eq.
    rewrite insert_insert_eq, fmap_insert_app by (by rewrite length_insert).
    specialize (HQ x y Hsw). unfold swap_list in HQ.
    by rewrite Hx, Hy in HQ.
Qed.

(** [pop_back] on a vector whose buffer holds [cur ++ [y]]. *)
Lemma wpg_pop_back ub this b cap (cur : list T) (y : T) rest h vs a c s
    (Q : unit -> world T -> Prop) (E : world T -> Prop) :
  Z.of_nat (length (cur ++ [y])) < 2 ^ 64 ->
  Q tt (World (<[b := (Some <$> cur) ++ None :: rest]> h)
              (<[this := Vec (Ptr b 0) (Z.of_nat (length cur)) cap]> vs)
              a c s) ->
  wpg ub (pop_back this) Q E
      (World (<[b := (Some <$> (cur ++ [y])) ++ rest]> h)
             (<[this := Vec (Ptr b 0) (Z.of_nat (length (cur ++ [y]))) cap]> vs)
             a c s).
Proof.
  intros Hlen HQ. unfold pop_back.
  rewrite (wpg_get_vec _ _ (Vec (Ptr b 0) (Z.of_nat (length (cur ++ [y]))) cap))
    by apply lookup_insert_eq.
  cbn [data_ size_]. rewrite length_app in *. cbn [length] in *.
  replace (wrap (Z.of_nat (length cur + 1) - 1)) with (Z.of_nat (length cur))
    by (rewrite wrap_small; lia).
  rewrite wpg_bind, ptr_add_block, wpg_of_option_some, wpg_bind.
  unfold wpg at 1. unfold destroy_at.
  rewrite (slot_block _ _ _ _ _ b ((Some <$> cur ++ [y]) ++ rest))
    by apply lookup_insert_eq.
  rewrite (lookup_fmap_app _ _ _ y)
    by (by rewrite lookup_app_r, Nat.sub_diag by lia).
  rewrite (write_block _ _ _ _ _ b ((Some <$> cur ++ [y]) ++ rest))
    by apply lookup_insert_eq.
  rewrite (wpg_set_size _ _ (Vec (Ptr b 0) (Z.of_nat (length cur + 1)) cap))
    by apply lookup_insert_eq.
  cbn [data_ capacity_]. rewrite !insert_insert_eq.
  rewrite fmap_app, <- app_assoc. cbn [fmap list_fmap app].
  rewrite insert_app_r_alt by (rewrite length_fmap; lia).
  rewrite length_fmap, Nat.sub_diag. exact HQ.
Qed.

(** The loop of [pop_back] calls that ends [erase(first, last)]. *)
Lemma wpg_pop_backs ub this b cap h vs a c s
    (Q : unit -> world T -> Prop) (E : world T -> Prop) (gone : list T) :
  forall (cur : list T) rest (i : Z),
  Z.of_nat (length (cur ++ gone)) < 2 ^ 64 ->
  0 <= i -> i + Z.of_nat (length gone) < 2 ^ 64 ->
  Q tt (World (<[b := (Some <$> cur) ++ replicate (length gone) None ++ rest]> h)
              (<[this := Vec (Ptr b 0) (Z.of_nat (length cur)) cap]> vs)
              a c s) ->
  wpg ub (iterate (length gone) (fun i => wrap (i + 1)) i
                  (fun _ => pop_back this)) Q E
      (World (<[b := (Some <$> (cur ++ gone)) ++ rest]> h)
             (<[this := Vec (Ptr b 0) (Z.of_nat (length (cur ++ gone))) cap]> vs)
             a c s).
Proof.
  induction gone as [|y gone IH] using rev_ind; intros cur rest i Hlen Hi Hi' HQ.
  - cbn [length iterate replicate app] in *. rewrite app_nil_r.
    by rewrite wpg_ret.
  - rewrite length_app in *. cbn [length] in *.
    rewrite Nat.add_1_r in *. cbn [iterate]. rewrite wpg_bind.
    rewrite app_assoc. apply wpg_pop_back.
    { rewrite <- app_assoc. rewrite !length_app in *. cbn [length] in *. lia. }
    rewrite wrap_small by lia.
    apply IH.
    + rewrite !length_app in *. cbn [length] in *. lia.
    + lia.
    + lia.
    + rewrite replicate_snoc, <- app_assoc in HQ. exact HQ.
Qed.

(** The first loop of [erase(first, last)], with [m] elements left to
    move. *)
Lemma wpg_shift_down ub this b cap rest h vs a c
    (Q : unit -> world T -> Prop) (E : world T -> Prop) (len : nat) :
  forall (m fuel : nat) (cur : list T) (f la : nat) (s : Z),
  vs !! this = Some (Vec (Ptr b 0) (Z.of_nat len) cap) ->
  length cur = len ->
  (f <= la)%nat -> (la + m = len)%nat -> (m < fuel)%nat ->
  (forall k x y cur' s', swap_throws k x y <> None ->
     s <= k < s + Z.of_nat m ->
     length cur' = len ->
     E (World (<[b := (Some <$> cur') ++ rest]> h) vs a c s')) ->
  Q tt (World (<[b := (Some <$> shift_list m f la cur) ++ rest]> h)
              vs a c (s + Z.of_nat m)) ->
  wpg ub (shift_down fuel this (Ptr b (Z.of_nat f)) (Ptr b (Z.of_nat la))) Q E
      (World (<[b := (Some <$> cur) ++ rest]> h) vs a c s).
Proof.
  induction m as [|m IH]; intros fuel cur f la s Hv Hcur Hfla Hm Hfuel HE HQ;
    (destruct fuel as [|fuel]; [lia|]); cbn [shift_down];
    unfold end_ at 1;
    rewrite wpg_bind, (wpg_get_vec _ _ _ _ _ _ _ _ _ _ _ Hv);
    cbn [data_ size_]; rewrite ptr_add_block, wpg_of_option_some.
  - replace la with len by lia. rewrite decide_False by (intros Hn; by apply Hn).
    rewrite wpg_ret. cbn [shift_list] in HQ. by rewrite Z.add_0_r in HQ.
  - rewrite decide_True by (intros [=]; lia).
    rewrite wpg_bind. apply wpg_swap_at; [lia|lia| |].
    + intros x y Hsw. cbn [ptr_add].
      rewrite wpg_bind, wpg_of_option_some, wpg_bind, wpg_of_option_some.
      replace (Z.of_nat f + 1) with (Z.of_nat (S f)) by lia.
      replace (Z.of_nat la + 1) with (Z.of_nat (S la)) by lia.
      apply IH; try done; try lia.
      * by rewrite swap_list_length.
      * intros k x' y' cur' s' Hth Hk Hlen. apply (HE k x' y'); [done|lia|done].
      * cbn [shift_list] in HQ.
        by replace (s + 1 + Z.of_nat m) with (s + Z.of_nat (S m)) by lia.
    + intros x y cur' Hth Hlen. apply (HE s x y); [done|lia|lia].
Qed.

(** The loop of [erase(pos)], with [m] elements left to move. *)
Lemma wpg_erase_loop ub this b cap rest h vs a c
    (Q : unit -> world T -> Prop) (E : world T -> Prop) (len : nat) :
  forall (m : nat) (cur : list T) (p : nat) (s : Z),
  vs !! this = Some (Vec (Ptr b 0) (Z.of_nat len) cap) ->
  length cur = len ->
  (S p + m = len)%nat ->
  Z.of_nat len < 2 ^ 64 ->
  (forall k x y cur' s', swap_throws k x y <> None ->
     s <= k < s + Z.of_nat m ->
     length cur' = len ->
     E (World (<[b := (Some <$> cur') ++ rest]> h) vs a c s')) ->
  Q tt (World (<[b := (Some <$> shift_list m p (S p) cur) ++ rest]> h)
              vs a c (s + Z.of_nat m)) ->
  wpg ub (iterate m (fun i => wrap (i + 1)) (Z.of_nat p)
                  (fun i => swap_elems this i (wrap (i + 1)))) Q E
      (World (<[b := (Some <$> cur) ++ rest]> h) vs a c s).
Proof.
  induction m as [|m IH]; intros cur p s Hv Hcur Hm Hlen HE HQ; cbn [iterate].
  - rewrite wpg_ret. cbn [shift_list] in HQ. by rewrite Z.add_0_r in HQ.
  - rewrite wpg_bind. unfold swap_elems at 1.
    rewrite (wpg_get_vec _ _ _ _ _ _ _ _ _ _ _ Hv). cbn [data_].
    rewrite wpg_bind, ptr_add_block, wpg_of_option_some.
    rewrite wpg_bind, ptr_add_block, wpg_of_option_some.
    replace (wrap (Z.of_nat p + 1)) with (Z.of_nat (S p))
      by (rewrite wrap_small; lia).
    apply wpg_swap_at; [lia|lia| |].
    + intros x y Hsw. apply IH; try done; try lia.
      * by rewrite swap_list_length.
      * intros k x' y' cur' s' Hth Hk Hl. apply (HE k x' y'); [done|lia|done].
      * cbn [shift_list] in HQ.
        by replace (s + 1 + Z.of_nat m) with (s + Z.of_nat (S m)) by lia.
    + intros x y cur' Hth Hl. apply (HE s x y); [done|lia|lia].
Qed.

End Memory.

(** * The operations on a vector that owns its elements *)

Section Operations.
Context {T : Type} {elem : Element T} {alloc : Allocator}.
Implicit Types (w : world T) (l : list T).

Hypothesis sizeof_pos : 0 < @sizeofT T _.

Lemma slots_for_le (n : Z) : 0 <= n -> Z.of_nat (slots_for n) <= n.
Proof.
  intros Hn. unfold slots_for, wrap.
  assert (0 <= (n * sizeofT) mod 2 ^ 64 <= n * sizeofT).
  { split; [apply Z.mod_pos_bound; lia|apply Z.mod_le; lia]. }
  assert ((n * sizeofT) mod 2 ^ 64 / sizeofT <= n).
  { apply Z.div_le_upper_bound; lia. }
  assert (0 <= (n * sizeofT) mod 2 ^ 64 / sizeofT) by (apply Z.div_pos; lia).
  lia.
Qed.

Lemma slots_for_exact (n : Z) :
  0 <= n -> n * sizeofT < 2 ^ 64 -> Z.of_nat (slots_for n) = n.
Proof.
  intros Hn Hlt. unfold slots_for. rewrite wrap_small by lia.
  rewrite Z.div_mul by lia. lia.
Qed.

Lemma owns_ext w w' this l cap :
  heap w' = heap w -> vecs w' = vecs w ->
  owns w this l cap -> owns w' this l cap.
Proof. unfold owns. intros -> ->. done. Qed.

Lemma owns_buffer h vs a c s this b l rest cap :
  0 <= cap < 2 ^ 64 ->
  Z.of_nat (length l + length rest) <= cap ->
  owns (World (<[b := (Some <$> l) ++ rest]> h)
              (<[this := Vec (Ptr b 0) (Z.of_nat (length l)) cap]> vs) a c s)
       this l cap.
Proof.
  intros Hcap Hlen. eexists. split; [apply lookup_insert_eq|].
  cbn [heap data_ size_ capacity_ content room].
  rewrite lookup_insert_eq. cbn.
  rewrite length_app, length_fmap. repeat split; try done; try lia.
  by exists rest.
Qed.

Lemma owns_inv w this l cap :
  owns w this l cap ->
  exists d,
    vecs w !! this = Some (Vec d (Z.of_nat (length l)) cap) /\
    0 <= cap < 2 ^ 64 /\
    content (heap w) d l /\
    Z.of_nat (room (heap w) d) <= cap /\
    (d = Null -> cap = 0) /\
    Z.of_nat (length l) <= cap.
Proof.
  intros ([d sz cp] & Hv & Hsz & Hcp & Hr & Hc & Hroom & Hnull).
  cbn in *. subst sz cp. exists d. repeat split; try done; try lia.
  destruct d as [|b off]; cbn in *.
  - subst l. simpl. lia.
  - destruct Hc as (_ & rest & Hb). rewrite Hb in Hroom. cbn in Hroom.
    rewrite length_app, length_fmap in Hroom. lia.
Qed.

(** [reserve] beyond the capacity. *)
Lemma wpg_reserve_grow ub w this l cap n :
  owns w this l cap ->
  cap < n < 2 ^ 64 ->
  (ub \/ (length l <= slots_for n)%nat) ->
  wpg ub (reserve this n)
    (fun _ w' =>
       owns w' this l n /\
       alloc_throws (allocs w) (wrap (n * @sizeofT T _)) = false /\
       copies_ok (copies w) l)
    (fun w' =>
       heap w' = heap w /\ vecs w' = vecs w /\
       (alloc_throws (allocs w) (wrap (n * @sizeofT T _)) = true \/
        copy_fails (copies w) l))
    w.
Proof.
  intros Ho Hn Hfit. destruct (owns_inv _ _ _ _ Ho) as (d & Hv & Hcap & Hc & _ & _ & Hlen).
  destruct w as [h vs a c s]. cbn [heap vecs allocs copies] in *.
  unfold reserve. rewrite (wpg_get_vec _ _ _ _ _ _ _ _ _ _ _ Hv).
  cbn [capacity_]. rewrite decide_False by lia.
  eapply wpg_new_buffer; try done.
  - lia.
  - destruct Hfit; auto.
  - intros _ Ha. cbn. auto.
  - intros _ Ha k x Hx Hk Hok Hthrow. cbn. split; [done|split; [done|]].
    right. by exists k, x.
  - intros _ Ha Hok Hle b Hb. split; [|done].
    apply owns_buffer; [lia|]. rewrite length_replicate.
    pose proof (slots_for_le n ltac:(lia)). lia.
  - lia.
Qed.

Lemma insert_at_end l (v : T) (x : option T) rest :
  <[length l := Some v]> ((Some <$> l) ++ x :: rest)
  = (Some <$> (l ++ [v])) ++ rest.
Proof.
  rewrite insert_app_r_alt by (rewrite length_fmap; lia).
  rewrite length_fmap, Nat.sub_diag. simpl.
  rewrite fmap_app. simpl. by rewrite <- app_assoc.
Qed.

(** [push_back] on a vector that holds [l]: what is left in each of
    its outcomes, and which invocations of the copy constructor and of
    the allocator decide between them. *)
Lemma wpg_push_back ub w this l cap (v : T) :
  owns w this l cap ->
  let full := bool_decide (Z.of_nat (length l) = cap) in
  let nc := if full then grown cap else cap in
  (ub \/ if full then nc <> 0 /\ (length l < slots_for nc)%nat
         else (length l < room_of w this)%nat) ->
  wpg ub (push_back this v)
    (fun _ w' =>
       owns w' this (l ++ [v]) nc /\
       room_of w' this = (if full then slots_for nc else room_of w this) /\
       copy_throws (copies w) v = false /\
       (full = true ->
        alloc_throws (allocs w) (wrap (nc * @sizeofT T _)) = false /\
        copies_ok (copies w + 1) l /\
        copy_throws (copies w + 1 + Z.of_nat (length l)) v = false))
    (fun w' =>
       (copy_throws (copies w) v = true /\
        heap w' = heap w /\ vecs w' = vecs w) \/
       (full = true /\ copy_throws (copies w) v = false /\
        (alloc_throws (allocs w) (wrap (nc * @sizeofT T _)) = true \/
         copy_fails (copies w + 1) l) /\
        heap w' = heap w /\ vecs w' = vecs w) \/
       (full = true /\ copy_throws (copies w) v = false /\
        alloc_throws (allocs w) (wrap (nc * @sizeofT T _)) = false /\
        copies_ok (copies w + 1) l /\
        copy_throws (copies w + 1 + Z.of_nat (length l)) v = true /\
        owns w' this l nc /\ cap < nc))
    w.
Proof.
  intros Ho full nc Hfit.
  destruct (owns_inv _ _ _ _ Ho) as (d & Hv & Hcap & Hc & Hroom & Hnull & Hlen).
  destruct w as [h vs a c s]. cbn [heap vecs allocs copies] in *.
  unfold push_back. rewrite (wpg_get_vec _ _ _ _ _ _ _ _ _ _ _ Hv).
  cbn [size_ capacity_ data_].
  subst full nc. destruct (decide (Z.of_nat (length l) <> cap)) as [Hne|Heq].
  - (* room left *)
    rewrite bool_decide_eq_false_2 in * by done.
    unfold room_of in *. cbn [vecs heap] in *. rewrite Hv in *. cbn [data_] in *.
    destruct d as [|b off]; [specialize (Hnull eq_refl); lia|].
    destruct Hc as (-> & rest & Hb). cbn [room] in *. rewrite Hb in *.
    cbn in Hfit, Hroom. rewrite length_app, length_fmap in Hfit, Hroom.
    rewrite wpg_bind, ptr_add_block, wpg_of_option_some, wpg_bind.
    unfold wpg at 1. unfold construct_at.
    rewrite (slot_block _ _ _ _ _ _ _ _ Hb).
    rewrite lookup_app_r by (rewrite length_fmap; lia).
    rewrite length_fmap, Nat.sub_diag.
    destruct rest as [|x rest]; cbn [lookup list_lookup].
    { destruct Hfit as [?|?]; [done|simpl in *; lia]. }
    cbn [copies heap vecs allocs swaps].
    destruct (copy_throws c v) eqn:Hthrow; [by left|].
    rewrite (write_block _ _ _ _ _ _ _ _ _ Hb).
    rewrite (wpg_set_size _ _ _ _ _ _ _ _ _ _ _ Hv). cbn [data_ capacity_].
    rewrite insert_at_end. rewrite wrap_small by lia.
    replace (Z.of_nat (length l) + 1) with (Z.of_nat (length (l ++ [v])))
      by (rewrite length_app; simpl; lia).
    simpl in Hroom.
    split; [apply owns_buffer; [lia|rewrite length_app; simpl; lia]|].
    split; [|split; [done|intros [=]]].
    cbn [vecs heap]. rewrite lookup_insert_eq. cbn.
    rewrite lookup_insert_eq. cbn.
    rewrite !length_app, !length_fmap, length_app. simpl. lia.
  - (* reallocation *)
    assert (Hfull : Z.of_nat (length l) = cap)
      by (destruct (decide (Z.of_nat (length l) = cap)); [done|contradiction]).
    rewrite bool_decide_eq_true_2 in * by done.
    unfold push_back_realloc. rewrite wpg_bind.
    unfold wpg at 1. unfold copy_local. cbn [copies heap vecs allocs swaps].
    destruct (copy_throws c v) eqn:Hthrow; [by left|].
    rewrite (wpg_get_vec _ _ _ _ _ _ _ _ _ _ _ Hv), wpg_bind.
    change (increase_capacity (Vec d (Z.of_nat (length l)) cap)) with (grown cap).
    eapply wpg_new_buffer; try done.
    + lia.
    + destruct Hfit as [?|[? ?]]; [by left|right; right; lia].
    + intros _ Ha. right; left. auto 10.
    + intros _ Ha k x Hx Hk Hok Hth. right; left.
      repeat split; try done. right. exists k, x. split; [done|].
      by rewrite <- Hth.
    + intros Hnc Ha Hok Hle b Hb.
      set (blk := (Some <$> l) ++ replicate (slots_for (grown cap) - length l) None).
      rewrite (wpg_get_vec _ _ (Vec (Ptr b 0) (Z.of_nat (length l)) (grown cap)))
        by apply lookup_insert_eq.
      cbn [data_ size_].
      rewrite wpg_bind, ptr_add_block, wpg_of_option_some, wpg_bind.
      unfold wpg at 1. unfold construct_at.
      rewrite (slot_block _ _ _ _ _ b blk) by apply lookup_insert_eq.
      unfold blk at 1. rewrite lookup_app_r by (rewrite length_fmap; lia).
      rewrite length_fmap, Nat.sub_diag.
      pose proof (wrap_range (cap * 2)) as Hw.
      assert (Hgr : 0 <= grown cap < 2 ^ 64).
      { unfold grown. destruct (decide (cap = 0)); lia. }
      pose proof (slots_for_le (grown cap) ltac:(lia)) as Hsl.
      destruct (slots_for (grown cap) - length l)%nat as [|m] eqn:Hm;
        cbn [replicate lookup list_lookup].
      { destruct Hfit as [?|[? ?]]; [done|lia]. }
      cbn [copies heap vecs allocs swaps].
      assert (Ho' : owns (World (<[b:=blk]> (release d h))
                            (<[this:=Vec (Ptr b 0) (Z.of_nat (length l)) (grown cap)]> vs)
                            (a + 1) (c + 1 + Z.of_nat (length l) + 1) s)
                         this l (grown cap)).
      { apply owns_buffer; [done|]. rewrite length_replicate. lia. }
      destruct (copy_throws (c + 1 + Z.of_nat (length l)) v) eqn:Hth2.
      { right; right. repeat split; try done; try lia. }
      rewrite (write_block _ _ _ _ _ b blk) by apply lookup_insert_eq.
      rewrite (wpg_set_size _ _ (Vec (Ptr b 0) (Z.of_nat (length l)) (grown cap)))
        by apply lookup_insert_eq.
      cbn [data_ capacity_]. rewrite !insert_insert_eq.
      unfold blk. cbn [replicate]. rewrite insert_at_end.
      rewrite wrap_small by lia.
      replace (Z.of_nat (length l) + 1) with (Z.of_nat (length (l ++ [v])))
        by (rewrite length_app; simpl; lia).
      split; [apply owns_buffer; [lia|rewrite length_app, length_replicate; simpl; lia]|].
      split.
      { unfold room_of. cbn [vecs heap]. rewrite lookup_insert_eq. cbn.
        rewrite lookup_insert_eq. cbn.
        rewrite !length_app, length_fmap, length_app, length_replicate. simpl. lia. }
      split; [done|]. intros _. repeat split; try done.
    + intros Hz. change Null with (data_ (Vec Null 0 0)).
      rewrite (wpg_get_vec _ _ (Vec Null 0 0)) by apply lookup_insert_eq.
      cbn [data_ size_]. unfold wpg. cbn.
      destruct Hfit as [?|[? ?]]; [done|contradiction].
Qed.

Lemma owns_block h vs a c s this b (cur : list T) rest cap :
  vs !! this = Some (Vec (Ptr b 0) (Z.of_nat (length cur)) cap) ->
  0 <= cap < 2 ^ 64 ->
  Z.of_nat (length cur + length rest) <= cap ->
  owns (World (<[b := (Some <$> cur) ++ rest]> h) vs a c s) this cur cap.
Proof.
  intros Hv Hcap Hlen. eexists. split; [exact Hv|].
  cbn [heap data_ size_ capacity_ content room].
  rewrite lookup_insert_eq. cbn.
  rewrite length_app, length_fmap. repeat split; try done; try lia.
  by exists rest.
Qed.

Lemma erase_range_null h vs a c s this cap :
  vs !! this = Some (Vec Null 0 cap) ->
  erase_range this Null Null (World h vs a c s)
  = Ok Null (World h vs a c s).
Proof.
  intros Hv. unfold erase_range, bind. cbn [heap room shift_down].
  unfold end_, begin, bind, get_vec. cbn [vecs]. rewrite Hv. cbn.
  rewrite decide_True by done. cbn.
  rewrite decide_False by (intros Hn; by apply Hn).
  change (Z.to_nat (wrap 0)) with O. cbn. rewrite Hv. cbn.
  by rewrite decide_True by done.
Qed.

(** [erase(first, last)] on the range [[f, la)] of a vector that holds
    [l], with the slots it vacates: the [la - f] slots behind the new
    last element hold no object any more. *)
Lemma wpg_erase_range_slots ub w this l cap d (f la : nat) (first last : ptr) :
  owns w this l cap ->
  (data_ <$> vecs w !! this) = Some d ->
  (f <= la <= length l)%nat ->
  ptr_add d (Z.of_nat f) = Some first ->
  ptr_add d (Z.of_nat la) = Some last ->
  wpg ub (erase_range this first last)
    (fun r w' =>
       owns w' this (take f l ++ drop la l) cap /\
       (data_ <$> vecs w' !! this) = Some d /\
       ptr_add d (Z.of_nat la - Z.of_nat f) = Some r /\
       (forall b off sl (i : nat),
          d = Ptr b off -> heap w' !! b = Some sl ->
          (length l - (la - f) <= i < length l)%nat ->
          sl !! i = Some None))
    (fun w' =>
       (exists l', length l' = length l /\ owns w' this l' cap) /\
       failed_swap (swaps w) (swaps w + Z.of_nat (length l - la)))
    w.
Proof.
  intros Ho Hd Hr Hfirst Hlast.
  destruct (owns_inv _ _ _ _ Ho) as (d' & Hv & Hcap & Hc & Hroom & Hnull & Hlen).
  rewrite Hv in Hd. cbn in Hd. injection Hd as ->.
  destruct w as [h vs a c s]. cbn [heap vecs allocs copies swaps] in *.
  unfold erase_range. rewrite wpg_bind.
  destruct d as [|b off].
  - (* no buffer *)
    cbn in Hc. subst l. cbn [length] in Hr.
    assert (f = O) as -> by lia. assert (la = O) as -> by lia.
    cbn in Hfirst, Hlast. injection Hfirst as <-. injection Hlast as <-.
    rewrite <- wpg_bind.
    change ((fun w : world T => shift_down (S (room (heap w) Null)) this Null Null w);;;
            d <~ of_option (ptr_diff Null Null);;
            iterate (Z.to_nat (wrap d)) (fun i => wrap (i + 1)) 0
              (fun _ => pop_back this);;;
            b <~ begin this;; of_option (ptr_add b d))
      with (erase_range this Null Null).
    unfold wpg. rewrite (erase_range_null _ _ _ _ _ _ cap) by exact Hv.
    cbn [vecs]. rewrite Hv. split; [exact Ho|]. split; [done|]. split; [done|].
    intros b off sl i [=].
  - destruct Hc as (-> & rest & Hb). cbn [ptr_add] in Hfirst, Hlast.
    rewrite Z.add_0_l in Hfirst, Hlast.
    injection Hfirst as <-. injection Hlast as <-.
    cbn [room] in Hroom. rewrite Hb in Hroom. cbn in Hroom.
    rewrite length_app, length_fmap in Hroom.
    unfold wpg at 1. cbn [heap room]. rewrite Hb. cbn [fmap option_fmap option_map default].
    change (match shift_down ?n this ?i ?j ?w with
            | Ok a0 w' => ?Q a0 w' | Throw w' => ?E w' | UB => ub end)
      with (wpg ub (shift_down n this i j) Q E w).
    rewrite <- (insert_id h b _ Hb).
    apply wpg_shift_down
      with (len := length l) (m := (length l - la)%nat) (cap := cap);
      try done; try lia.
    { unfold id. rewrite length_app, length_fmap. lia. }
    + intros k x y cur' s' Hth Hk Hl. split.
      * exists cur'. split; [done|]. apply owns_block; [by rewrite Hl|done|lia].
      * by exists k, x, y.
    + destruct (shift_list_range l f la Hr) as (mid' & Hmid & ->).
      cbn [ptr_diff]. rewrite decide_True by done.
      rewrite wpg_bind, wpg_of_option_some, wpg_bind.
      rewrite wrap_small by lia.
      replace (Z.to_nat (Z.of_nat la - Z.of_nat f)) with (length mid') by lia.
      rewrite <- (insert_id vs this _ Hv).
      assert (Hl : length l = length ((take f l ++ drop la l) ++ mid')).
      { rewrite !length_app, length_take, length_drop. lia. }
      rewrite Hl, app_assoc.
      apply wpg_pop_backs; [lia|lia|lia|].
      cbv beta. rewrite wpg_bind. unfold begin.
      rewrite (wpg_get_vec _ _ (Vec (Ptr b 0)
        (Z.of_nat (length (take f l ++ drop la l))) cap)) by apply lookup_insert_eq.
      rewrite wpg_ret. cbn [data_ ptr_add].
      rewrite wpg_of_option_some. split; [|split; [|split]].
      * apply owns_buffer; [done|].
        rewrite !length_app, length_replicate. rewrite !length_app in Hl. lia.
      * cbn [vecs]. by rewrite lookup_insert_eq.
      * done.
      * intros b' off' sl i [= <- <-] Hsl Hi. cbn [heap] in Hsl.
        rewrite lookup_insert_eq in Hsl. injection Hsl as <-.
        rewrite (length_app (take f l ++ drop la l) mid') in Hi.
        rewrite lookup_app_r by (rewrite length_fmap; lia).
        rewrite lookup_app_l by (rewrite length_fmap, length_replicate; lia).
        apply lookup_replicate_2. rewrite length_fmap. lia.
Qed.

(** [erase(first, last)] on the range [[f, la)] of a vector that holds
    [l]. *)
Lemma wpg_erase_range ub w this l cap d (f la : nat) (first last : ptr) :
  owns w this l cap ->
  (data_ <$> vecs w !! this) = Some d ->
  (f <= la <= length l)%nat ->
  ptr_add d (Z.of_nat f) = Some first ->
  ptr_add d (Z.of_nat la) = Some last ->
  wpg ub (erase_range this first last)
    (fun r w' =>
       owns w' this (take f l ++ drop la l) cap /\
       (data_ <$> vecs w' !! this) = Some d /\
       ptr_add d (Z.of_nat la - Z.of_nat f) = Some r)
    (fun w' =>
       (exists l', length l' = length l /\ owns w' this l' cap) /\
       failed_swap (swaps w) (swaps w + Z.of_nat (length l - la)))
    w.
Proof.
  intros Ho Hd Hr Hfirst Hlast.
  eapply wpg_mono;
    [by apply (wpg_erase_range_slots ub w this l cap d f la first last)
    |done| |done].
  intros r w' (Ho' & Hd' & Hret & _). done.
Qed.

(** [erase(pos)] at position [p] of a vector that holds [l]. *)
Lemma wpg_erase ub w this l cap d (p : nat) (pos : ptr) :
  owns w this l cap ->
  (data_ <$> vecs w !! this) = Some d ->
  (p < length l)%nat ->
  ptr_add d (Z.of_nat p) = Some pos ->
  wpg ub (erase this pos)
    (fun r w' =>
       owns w' this (take p l ++ drop (S p) l) cap /\
       ptr_add pos 1 = Some r)
    (fun w' =>
       (exists l', length l' = length l /\ owns w' this l' cap) /\
       failed_swap (swaps w) (swaps w + Z.of_nat (length l - S p)))
    w.
Proof.
  intros Ho Hd Hp Hpos.
  destruct (owns_inv _ _ _ _ Ho) as (d' & Hv & Hcap & Hc & Hroom & Hnull & Hlen).
  rewrite Hv in Hd. cbn in Hd. injection Hd as ->.
  destruct w as [h vs a c s]. cbn [heap vecs allocs copies swaps] in *.
  destruct d as [|b off]; [cbn in Hc; subst l; cbn in Hp; lia|].
  destruct Hc as (-> & rest & Hb). cbn [ptr_add] in Hpos.
  rewrite Z.add_0_l in Hpos. injection Hpos as <-.
  cbn [room] in Hroom. rewrite Hb in Hroom. cbn in Hroom.
  rewrite length_app, length_fmap in Hroom.
  unfold erase. cbn [ptr_add]. rewrite wpg_bind, wpg_of_option_some.
  rewrite wpg_bind. unfold begin at 1.
  rewrite (wpg_get_vec _ _ _ _ _ _ _ _ _ _ _ Hv), wpg_ret. cbn [data_ ptr_diff].
  rewrite decide_True by done.
  rewrite wpg_bind, wpg_of_option_some.
  rewrite (wpg_get_vec _ _ _ _ _ _ _ _ _ _ _ Hv). cbn [size_].
  replace (wrap (Z.of_nat p - 0)) with (Z.of_nat p) by (rewrite wrap_small; lia).
  replace (Z.to_nat (wrap (Z.of_nat (length l) - 1 - Z.of_nat p)))
    with (length l - S p)%nat by (rewrite wrap_small; lia).
  rewrite wpg_bind. rewrite <- (insert_id h b _ Hb).
  apply wpg_erase_loop with (len := length l) (cap := cap); try done; try lia.
  - intros k x y cur' s' Hth Hk Hl. split.
    + exists cur'. split; [done|]. apply owns_block; [by rewrite Hl|done|lia].
    + by exists k, x, y.
  - destruct (shift_list_range l p (S p) ltac:(lia)) as (mid' & Hmid & ->).
    destruct mid' as [|y [|? ?]]; cbn in Hmid; try lia.
    rewrite wpg_bind.
    assert (Hl : length l = length ((take p l ++ drop (S p) l) ++ [y])).
    { rewrite !length_app, length_take, length_drop. simpl. lia. }
    rewrite <- (insert_id vs this _ Hv). rewrite Hl, app_assoc.
    apply wpg_pop_back; [lia|].
    rewrite wpg_ret. split; [|done].
    apply owns_buffer; [done|].
    rewrite !length_app in Hl. cbn [length] in *. rewrite length_app. lia.
Qed.

Lemma copies_ok_not_fails c l : copies_ok c l -> copy_fails c l -> False.
Proof. intros Hok (k & x & Hx & Hth). rewrite (Hok k x Hx) in Hth. done. Qed.

(** ** Capacity control *)

(** C6.  A successful [reserve(n)] with [n <= capacity] changes
    nothing, capacity and content included.  A successful [reserve(n)]
    with [n > capacity] leaves a vector of capacity exactly [n] that
    holds the same elements in the same order, hence of the same
    length; and [reserve(n)] does succeed when the byte count is
    representable, the allocation does not throw and no element copy
    throws. *)
Theorem reserve_capacity_and_content w this l cap n :
  owns w this l cap ->
  0 <= n < 2 ^ 64 ->
  (n <= cap -> reserve this n w = Ok tt w) /\
  (cap < n ->
   forall w', reserve this n w = Ok tt w' -> owns w' this l n) /\
  (cap < n ->
   n * @sizeofT T _ < 2 ^ 64 ->
   alloc_throws (allocs w) (wrap (n * @sizeofT T _)) = false ->
   copies_ok (copies w) l ->
   exists w', reserve this n w = Ok tt w' /\ owns w' this l n).
Proof.
  intros Ho Hn. split; [|split].
  - intros Hle. destruct (owns_inv _ _ _ _ Ho) as (d & Hv & _).
    unfold reserve, bind, get_vec. rewrite Hv. cbn [capacity_].
    rewrite decide_True by lia. done.
  - intros Hlt w' Hrun.
    pose proof (wpg_reserve_grow True w this l cap n Ho ltac:(lia)
                  ltac:(by left)) as H.
    apply wpg_partial in H as [H _]. by apply (H tt w').
  - intros Hlt Hbytes Ha Hok.
    destruct (owns_inv _ _ _ _ Ho) as (d & _ & _ & _ & _ & _ & Hlen).
    pose proof (slots_for_exact n ltac:(lia) Hbytes) as Hs.
    pose proof (wpg_reserve_grow False w this l cap n Ho ltac:(lia)
                  ltac:(right; lia)) as H.
    apply wpg_total in H as [([] & w' & Hrun & Ho' & _)|(w' & _ & _ & _ & [Hf|Hf])].
    + by exists w'.
    + congruence.
    + destruct (copies_ok_not_fails _ _ Hok Hf).
Qed.

(** C5.  When [reserve(n)] with [n > capacity] throws, the heap and
    every vector object are as before the call: the vector has the
    same length, the same elements and the same capacity.  And it does
    throw when the allocation throws or the copy of some element
    throws. *)
Theorem reserve_failure_preserves w this l cap n :
  owns w this l cap ->
  cap < n < 2 ^ 64 ->
  (forall w', reserve this n w = Throw w' ->
     heap w' = heap w /\ vecs w' = vecs w /\ owns w' this l cap) /\
  (n * @sizeofT T _ < 2 ^ 64 ->
   alloc_throws (allocs w) (wrap (n * @sizeofT T _)) = true \/
   copy_fails (copies w) l ->
   exists w', reserve this n w = Throw w' /\ owns w' this l cap).
Proof.
  intros Ho Hn. split.
  - intros w' Hrun.
    pose proof (wpg_reserve_grow True w this l cap n Ho Hn ltac:(by left)) as H.
    apply wpg_partial in H as [_ H]. destruct (H w' Hrun) as (Hh & Hvs & _).
    repeat split; try done. by apply (owns_ext w).
  - intros Hbytes Hfail.
    destruct (owns_inv _ _ _ _ Ho) as (d & _ & _ & _ & _ & _ & Hlen).
    pose proof (slots_for_exact n ltac:(lia) Hbytes) as Hs.
    pose proof (wpg_reserve_grow False w this l cap n Ho Hn
                  ltac:(right; lia)) as H.
    apply wpg_total in H as [([] & w' & _ & _ & Ha & Hok)|(w' & Hrun & Hh & Hvs & _)].
    + destruct Hfail as [Hf|Hf]; [congruence|].
      destruct (copies_ok_not_fails _ _ Hok Hf).
    + exists w'. split; [done|]. by apply (owns_ext w).
Qed.

(** ** Appending *)

Lemma owns_default (h : gmap nat (list (option T))) vs a c s this :
  owns (World h (<[this := Vec Null 0 0]> vs) a c s) this [] 0.
Proof.
  eexists. split; [apply lookup_insert_eq|]. cbn. repeat split; try done; lia.
Qed.

(** A [push_back] for which neither the copy constructor nor the
    allocator throws, and for which the block is large enough. *)
Lemma push_back_returns w this l cap (v : T) :
  (forall k x, copy_throws k x = false) ->
  (forall k n, alloc_throws k n = false) ->
  owns w this l cap ->
  (if bool_decide (Z.of_nat (length l) = cap)
   then grown cap <> 0 /\ (length l < slots_for (grown cap))%nat
   else (length l < room_of w this)%nat) ->
  exists w',
    push_back this v w = Ok tt w' /\
    owns w' this (l ++ [v])
         (if bool_decide (Z.of_nat (length l) = cap) then grown cap else cap) /\
    room_of w' this
    = (if bool_decide (Z.of_nat (length l) = cap)
       then slots_for (grown cap) else room_of w this).
Proof.
  intros Hcopy Halloc Ho Hfit.
  pose proof (wpg_push_back False w this l cap v Ho) as H. cbv zeta in H.
  specialize (H ltac:(right; destruct (bool_decide _); done)).
  apply wpg_total in H as [([] & w' & Hrun & Ho' & Hroom & _)|(w' & _ & H)].
  - exists w'. by destruct (bool_decide _).
  - destruct H as [(Hth & _)|[(_ & _ & [Hth|(k & x & _ & Hth)] & _)|(_ & _ & _ & _ & Hth & _)]];
      rewrite ?Hcopy, ?Halloc in Hth; done.
Qed.

(** C3.  Starting from a default-constructed vector, five [push_back]
    calls leave capacities 1, 2, 4, 4 and 8, the capacity
    [increase_capacity] asks for being 1 on an empty vector and twice
    the capacity otherwise, and the vector then holds the five
    elements in the order of the calls.  (No copy and no allocation
    throws, and a buffer of eight elements has a representable
    size.) *)
Theorem push_back_growth_sequence (w0 : world T) this (x1 x2 x3 x4 x5 : T) :
  (forall k x, copy_throws k x = false) ->
  (forall k n, alloc_throws k n = false) ->
  8 * @sizeofT T _ < 2 ^ 64 ->
  exists wd w1 w2 w3 w4 w5,
    vector_default this w0 = Ok tt wd /\
    owns wd this [] 0 /\ increase_capacity (Vec Null 0 0) = 1 /\
    push_back this x1 wd = Ok tt w1 /\
    owns w1 this [x1] 1 /\ capacity this w1 = Ok 1 w1 /\
    push_back this x2 w1 = Ok tt w2 /\
    owns w2 this [x1; x2] 2 /\ capacity this w2 = Ok 2 w2 /\
    push_back this x3 w2 = Ok tt w3 /\
    owns w3 this [x1; x2; x3] 4 /\ capacity this w3 = Ok 4 w3 /\
    push_back this x4 w3 = Ok tt w4 /\
    owns w4 this [x1; x2; x3; x4] 4 /\ capacity this w4 = Ok 4 w4 /\
    push_back this x5 w4 = Ok tt w5 /\
    owns w5 this [x1; x2; x3; x4; x5] 8 /\ capacity this w5 = Ok 8 w5 /\
    size this w5 = Ok 5 w5.
Proof.
  intros Hcopy Halloc Hbytes.
  assert (Hs : forall n, 0 <= n <= 8 -> slots_for n = Z.to_nat n).
  { intros n Hn. pose proof (slots_for_exact n ltac:(lia) ltac:(nia)). lia. }
  assert (Hcapacity : forall w l cap, owns w this l cap ->
            capacity this w = Ok cap w /\
            size this w = Ok (Z.of_nat (length l)) w).
  { intros w l cap Ho. destruct (owns_inv _ _ _ _ Ho) as (d & Hv & _).
    unfold capacity, size, bind, get_vec. by rewrite Hv. }
  assert (Hfull : forall w l cap v,
            owns w this l cap -> Z.of_nat (length l) = cap -> 0 <= cap <= 4 ->
            exists w', push_back this v w = Ok tt w' /\
                       owns w' this (l ++ [v]) (grown cap) /\
                       room_of w' this = slots_for (grown cap)).
  { intros w l cap v Ho Hlen Hcap.
    pose proof (push_back_returns w this l cap v Hcopy Halloc Ho) as H.
    rewrite !bool_decide_eq_true_2 in H by done. apply H.
    assert (grown cap = 1 /\ cap = 0 \/ grown cap = cap * 2 /\ 0 < cap) as Hg.
    { unfold grown. destruct (decide (cap = 0)); [by left|right].
      rewrite wrap_small; lia. }
    rewrite Hs by lia. lia. }
  destruct w0 as [h vs a c s].
  pose proof (owns_default h vs a c s this) as Hd.
  destruct (Hfull _ [] 0 x1 Hd) as (w1 & Hr1 & Ho1 & Hm1); [done|lia|].
  change (grown 0) with 1 in *.
  destruct (Hfull _ [x1] 1 x2 Ho1) as (w2 & Hr2 & Ho2 & Hm2); [done|lia|].
  change (grown 1) with 2 in *.
  destruct (Hfull _ [x1; x2] 2 x3 Ho2) as (w3 & Hr3 & Ho3 & Hm3); [done|lia|].
  change (grown 2) with 4 in *. rewrite (Hs 4) in Hm3 by lia.
  destruct (push_back_returns _ this [x1; x2; x3] 4 x4 Hcopy Halloc Ho3)
    as (w4 & Hr4 & Ho4 & Hm4).
  { rewrite bool_decide_eq_false_2 by done. rewrite Hm3. cbn. lia. }
  rewrite bool_decide_eq_false_2 in Ho4, Hm4 by done.
  destruct (Hfull _ [x1; x2; x3; x4] 4 x5 Ho4) as (w5 & Hr5 & Ho5 & Hm5);
    [done|lia|].
  change (grown 4) with 8 in *. cbn [app] in *.
  eexists _, w1, w2, w3, w4, w5.
  split; [reflexivity|]. split; [exact Hd|]. split; [reflexivity|].
  split; [exact Hr1|]. split; [exact Ho1|]. split; [apply (Hcapacity _ _ _ Ho1)|].
  split; [exact Hr2|]. split; [exact Ho2|]. split; [apply (Hcapacity _ _ _ Ho2)|].
  split; [exact Hr3|]. split; [exact Ho3|]. split; [apply (Hcapacity _ _ _ Ho3)|].
  split; [exact Hr4|]. split; [exact Ho4|]. split; [apply (Hcapacity _ _ _ Ho4)|].
  split; [exact Hr5|]. split; [exact Ho5|]. apply (Hcapacity _ _ _ Ho5).
Qed.

(** C8.  [push_back(v)] on a vector with [size_ == capacity_].  The
    copy constructor is invoked first for the local copy of [v], then
    for the elements moved to the new buffer, then for the new last
    element.  If the local copy throws, or the allocation of
    [increase_capacity()] slots, or the copy of an element, nothing
    has changed.  If the last construction throws, the vector has the
    new, larger capacity and the elements and length it had before.
    Otherwise [v] has been appended.  Which of these happens is
    decided by the copy constructor and the allocator alone, as long
    as the new capacity and the byte count are representable. *)
Theorem push_back_at_capacity w this l cap (v : T) :
  owns w this l cap ->
  Z.of_nat (length l) = cap ->
  (copy_throws (copies w) v = true ->
   exists w', push_back this v w = Throw w' /\
              heap w' = heap w /\ vecs w' = vecs w) /\
  (forall w', push_back this v w = Throw w' ->
     (copy_throws (copies w) v = true /\
      heap w' = heap w /\ vecs w' = vecs w /\ owns w' this l cap) \/
     (copy_throws (copies w) v = false /\
      (alloc_throws (allocs w) (wrap (grown cap * @sizeofT T _)) = true \/
       copy_fails (copies w + 1) l) /\
      heap w' = heap w /\ vecs w' = vecs w /\ owns w' this l cap) \/
     (copy_throws (copies w) v = false /\
      alloc_throws (allocs w) (wrap (grown cap * @sizeofT T _)) = false /\
      copies_ok (copies w + 1) l /\
      copy_throws (copies w + 1 + Z.of_nat (length l)) v = true /\
      owns w' this l (grown cap) /\ cap < grown cap)) /\
  (forall w', push_back this v w = Ok tt w' ->
     owns w' this (l ++ [v]) (grown cap) /\
     copy_throws (copies w) v = false /\
     alloc_throws (allocs w) (wrap (grown cap * @sizeofT T _)) = false /\
     copies_ok (copies w + 1) l /\
     copy_throws (copies w + 1 + Z.of_nat (length l)) v = false) /\
  (cap < grown cap -> grown cap * @sizeofT T _ < 2 ^ 64 ->
   copy_throws (copies w) v = false ->
   (alloc_throws (allocs w) (wrap (grown cap * @sizeofT T _)) = true \/
    copy_fails (copies w + 1) l ->
    exists w', push_back this v w = Throw w' /\ owns w' this l cap) /\
   (alloc_throws (allocs w) (wrap (grown cap * @sizeofT T _)) = false ->
    copies_ok (copies w + 1) l ->
    (copy_throws (copies w + 1 + Z.of_nat (length l)) v = true ->
     exists w', push_back this v w = Throw w' /\
                owns w' this l (grown cap)) /\
    (copy_throws (copies w + 1 + Z.of_nat (length l)) v = false ->
     exists w', push_back this v w = Ok tt w' /\
                owns w' this (l ++ [v]) (grown cap)))).
Proof.
  intros Ho Hfull.
  pose proof (fun ub => wpg_push_back ub w this l cap v Ho) as Hwp.
  cbv zeta in Hwp. rewrite bool_decide_eq_true_2 in Hwp by done.
  split; [|split; [|split]].
  - intros Hth. destruct (owns_inv _ _ _ _ Ho) as (d & Hv & _).
    eexists. split; [|split].
    + unfold push_back, bind, get_vec. rewrite Hv. cbn [size_ capacity_].
      rewrite decide_False by (intros Hn; by apply Hn).
      unfold push_back_realloc, bind, copy_local. by rewrite Hth.
    + done.
    + done.
  - intros w' Hrun.
    pose proof (Hwp True ltac:(by left)) as H.
    apply wpg_partial in H as [_ H].
    destruct (H w' Hrun) as [(? & Hh & Hvs)|[(_ & ? & ? & Hh & Hvs)|(_ & H3)]].
    + left. repeat split; try done. by apply (owns_ext w).
    + right; left. repeat split; try done. by apply (owns_ext w).
    + right; right. exact H3.
  - intros w' Hrun.
    pose proof (Hwp True ltac:(by left)) as H.
    apply wpg_partial in H as [H _].
    destruct (H tt w' Hrun) as (? & _ & ? & Hall). specialize (Hall eq_refl).
    tauto.
  - intros Hgrow Hbytes Hc.
    destruct (owns_inv _ _ _ _ Ho) as (d & _ & Hcap & _).
    pose proof (slots_for_exact (grown cap) ltac:(lia) Hbytes) as Hs.
    pose proof (Hwp False ltac:(right; split; lia)) as H.
    apply wpg_total in H.
    split; [|intros Ha Hok; split].
    + intros Hfail.
      destruct H as [([] & w' & _ & _ & _ & _ & Hall)
                    |(w' & Hrun & [(? & _)|[(_ & _ & _ & Hh & Hvs)|(_ & _ & Ha & Hok & _)]])].
      * destruct (Hall eq_refl) as (Ha & Hok & _).
        destruct Hfail as [?|Hf]; [congruence|].
        destruct (copies_ok_not_fails _ _ Hok Hf).
      * congruence.
      * exists w'. split; [done|]. by apply (owns_ext w).
      * destruct Hfail as [?|Hf]; [congruence|].
        destruct (copies_ok_not_fails _ _ Hok Hf).
    + intros Hlast.
      destruct H as [([] & w' & _ & _ & _ & _ & Hall)
                    |(w' & Hrun & [(? & _)|[(_ & _ & Hf & _)|(_ & _ & _ & _ & _ & Ho' & _)]])].
      * destruct (Hall eq_refl) as (_ & _ & ?). congruence.
      * congruence.
      * destruct Hf as [?|Hf]; [congruence|].
        destruct (copies_ok_not_fails _ _ Hok Hf).
      * by exists w'.
    + intros Hlast.
      destruct H as [([] & w' & Hrun & Ho' & _)
                    |(w' & _ & [(? & _)|[(_ & _ & Hf & _)|(_ & _ & _ & _ & ? & _)]])].
      * by exists w'.
      * congruence.
      * destruct Hf as [?|Hf]; [congruence|].
        destruct (copies_ok_not_fails _ _ Hok Hf).
      * congruence.
Qed.

(** ** Erasing *)

(** C7.  [erase(first, last)] on a valid range [[f, la)] of a vector
    that holds [l]: when it returns, the vector holds the elements
    before [f] followed by the elements from [la] on, in their
    original order, its length has decreased by [la - f] and its
    capacity is unchanged; the trailing [la - f] slots, those at the
    positions from the new length up to the old one, have been
    vacated: the objects in them have been destroyed and the slots
    are raw memory; and it does return when no [std::swap] throws. *)
Theorem erase_range_content w this l cap d (f la : nat) (first last : ptr) :
  owns w this l cap ->
  (data_ <$> vecs w !! this) = Some d ->
  (f <= la <= length l)%nat ->
  ptr_add d (Z.of_nat f) = Some first ->
  ptr_add d (Z.of_nat la) = Some last ->
  (forall r w', erase_range this first last w = Ok r w' ->
     owns w' this (take f l ++ drop la l) cap /\
     size this w' = Ok (Z.of_nat (length l) - (Z.of_nat la - Z.of_nat f)) w' /\
     (forall b off sl (i : nat),
        d = Ptr b off -> heap w' !! b = Some sl ->
        (length l - (la - f) <= i < length l)%nat ->
        sl !! i = Some None)) /\
  ((forall k x y, @swap_throws T _ k x y = None) ->
   exists r w', erase_range this first last w = Ok r w' /\
                owns w' this (take f l ++ drop la l) cap).
Proof.
  intros Ho Hd Hr Hfirst Hlast. split.
  - intros r w' Hrun.
    pose proof (wpg_erase_range_slots True w this l cap d f la first last
                  Ho Hd Hr Hfirst Hlast) as H.
    apply wpg_partial in H as [H _].
    destruct (H r w' Hrun) as (Ho' & _ & _ & Hraw).
    split; [exact Ho'|]. split; [|exact Hraw].
    destruct (owns_inv _ _ _ _ Ho') as (d' & Hv & _).
    unfold size, bind, get_vec. rewrite Hv. cbn [size_]. unfold ret. f_equal.
    rewrite length_app, length_take, length_drop. lia.
  - intros Hsw.
    pose proof (wpg_erase_range False w this l cap d f la first last
                  Ho Hd Hr Hfirst Hlast) as H.
    apply wpg_total in H as [(r & w' & Hrun & Ho' & _)|(w' & _ & _ & Hf)].
    + by exists r, w'.
    + destruct Hf as (k & x & y & _ & Hth). by rewrite Hsw in Hth.
Qed.

(** C10.  When [erase(first, last)] on a valid range returns, it
    returns [begin() + (last - first)], whatever the position of the
    range in the vector; when [erase(pos)] on a valid position
    returns, it returns [pos + 1].  Both return when no [std::swap]
    throws. *)
Theorem erase_return_values w this l cap d :
  owns w this l cap ->
  (data_ <$> vecs w !! this) = Some d ->
  (forall (f la : nat) first last,
     (f <= la <= length l)%nat ->
     ptr_add d (Z.of_nat f) = Some first ->
     ptr_add d (Z.of_nat la) = Some last ->
     (forall r w', erase_range this first last w = Ok r w' ->
        begin this w' = Ok d w' /\
        ptr_diff last first = Some (Z.of_nat la - Z.of_nat f) /\
        ptr_add d (Z.of_nat la - Z.of_nat f) = Some r) /\
     ((forall k x y, @swap_throws T _ k x y = None) ->
      exists r w', erase_range this first last w = Ok r w' /\
                   ptr_add d (Z.of_nat la - Z.of_nat f) = Some r)) /\
  (forall (p : nat) pos,
     (p < length l)%nat ->
     ptr_add d (Z.of_nat p) = Some pos ->
     (forall r w', erase this pos w = Ok r w' -> ptr_add pos 1 = Some r) /\
     ((forall k x y, @swap_throws T _ k x y = None) ->
      exists r w', erase this pos w = Ok r w' /\ ptr_add pos 1 = Some r)).
Proof.
  intros Ho Hd. split.
  - intros f la first last Hr Hfirst Hlast. split.
    + intros r w' Hrun.
      pose proof (wpg_erase_range True w this l cap d f la first last
                    Ho Hd Hr Hfirst Hlast) as H.
      apply wpg_partial in H as [H _].
      destruct (H r w' Hrun) as (_ & Hd' & Hret).
      split; [|split; [|exact Hret]].
      * unfold begin, bind, get_vec.
        destruct (vecs w' !! this) as [v'|]; [|done].
        cbn in Hd'. by injection Hd' as ->.
      * destruct d as [|b off]; cbn in Hfirst, Hlast.
        { repeat case_decide; simplify_eq. cbn. f_equal. lia. }
        simplify_eq. cbn. rewrite decide_True by done. f_equal. lia.
    + intros Hsw.
      pose proof (wpg_erase_range False w this l cap d f la first last
                    Ho Hd Hr Hfirst Hlast) as H.
      apply wpg_total in H as [(r & w' & Hrun & _ & _ & Hret)|(w' & _ & _ & Hf)].
      * by exists r, w'.
      * destruct Hf as (k & x & y & _ & Hth). by rewrite Hsw in Hth.
  - intros p pos Hp Hpos. split.
    + intros r w' Hrun.
      pose proof (wpg_erase True w this l cap d p pos Ho Hd Hp Hpos) as H.
      apply wpg_partial in H as [H _]. by destruct (H r w' Hrun).
    + intros Hsw.
      pose proof (wpg_erase False w this l cap d p pos Ho Hd Hp Hpos) as H.
      apply wpg_total in H as [(r & w' & Hrun & _ & Hret)|(w' & _ & _ & Hf)].
      * by exists r, w'.
      * destruct Hf as (k & x & y & _ & Hth). by rewrite Hsw in Hth.
Qed.

(** ** Access to the buffer *)

(** The non-const [data()] returns the null pointer whenever the
    capacity is zero, whatever [data_] is. *)
Lemma data_null_at_zero_capacity w this (v : vec) :
  vecs w !! this = Some v -> capacity_ v = 0 -> data this w = Ok Null w.
Proof.
  intros Hv Hcap. unfold data, bind, get_vec. rewrite Hv.
  by rewrite decide_True.
Qed.

(** [data() const] returns [data_] as it is. *)
Lemma data_const_returns_buffer w this (v : vec) :
  vecs w !! this = Some v -> data_const this w = Ok (data_ v) w.
Proof. intros Hv. unfold data_const, bind, get_vec. by rewrite Hv. Qed.

(** ** Assignment *)

(** C9.  The self-assignment [A = A] returns without changing
    anything: the vector, empty or not, has the content, the length
    and the capacity it had. *)
Theorem self_assignment w this l cap :
  owns w this l cap ->
  assign this this w = Ok tt w /\ owns w this l cap.
Proof.
  intros Ho. split; [|exact Ho].
  unfold assign. by rewrite decide_True.
Qed.

End Operations.

(** * What every reachable state satisfies *)

Section Invariant.
Context {T : Type} {elem : Element T} {alloc : Allocator}.
Implicit Types (w : world T) (h : gmap nat (list (option T))).

Hypothesis sizeof_pos : 0 < @sizeofT T _.

(** ** Operations on raw memory *)

Lemma keeps_ret {A} (a : A) : keeps (T := T) (ret a).
Proof. intros w Hh. by rewrite wpg_ret. Qed.

Lemma keeps_undefined {A} : keeps (T := T) (A := A) undefined.
Proof. by intros w Hh. Qed.

Lemma keeps_of_option {A} (o : option A) : keeps (T := T) (of_option o).
Proof. destruct o; [apply keeps_ret|apply keeps_undefined]. Qed.

Lemma keeps_bind {A B} (m : M T A) (k : A -> M T B) :
  keeps m -> (forall a, keeps (k a)) -> keeps (bind m k).
Proof.
  intros Hm Hk w Hh. rewrite wpg_bind.
  eapply wpg_mono; [apply (Hm w Hh)|done| |done].
  intros a w' [Hh' Hvs]. cbv beta.
  eapply wpg_mono; [apply (Hk a w' Hh')|done| |]; cbv beta;
    intros; rewrite <- Hvs; tauto.
Qed.

Lemma keeps_catch {A} (m : M T A) (hd : M T unit) :
  keeps m -> keeps hd -> keeps (catch_rethrow m hd).
Proof.
  intros Hm Hhd w Hh. rewrite wpg_catch.
  eapply wpg_mono; [apply (Hm w Hh)|done|done|].
  intros w' [Hh' Hvs]. cbv beta.
  eapply wpg_mono; [apply (Hhd w' Hh')|done| |]; cbv beta;
    intros; rewrite <- Hvs; tauto.
Qed.

Lemma keeps_iterate (n : nat) next (i : Z) (body : Z -> M T unit) :
  (forall j, keeps (body j)) -> keeps (iterate n next i body).
Proof.
  intros Hbody. revert i. induction n as [|n IH]; intros i; cbn [iterate].
  - apply keeps_ret.
  - apply keeps_bind; [apply Hbody|intros _; apply IH].
Qed.

Lemma heap_ok_write (p : ptr) (x : option T) w :
  heap_ok (heap w) -> heap_ok (heap (write p x w)).
Proof.
  intros Hh. destruct p as [|b off]; [done|]. unfold write.
  destruct (heap w !! b) as [sl|] eqn:Hb; [|done]. cbn [set_heap heap].
  intros b' sl' Hb'. destruct (decide (b = b')) as [->|Hne].
  - rewrite lookup_insert_eq in Hb'. injection Hb' as <-.
    rewrite length_insert. by apply (Hh b').
  - rewrite lookup_insert_ne in Hb' by done. by apply (Hh b').
Qed.

Lemma vecs_write (p : ptr) (x : option T) w : vecs (write p x w) = vecs w.
Proof.
  destruct p as [|b off]; [done|]. unfold write.
  by destruct (heap w !! b).
Qed.

Lemma keeps_load (p : ptr) : keeps (T := T) (load p).
Proof.
  intros w Hh. unfold wpg, load. by destruct (slot w p) as [[v|]|].
Qed.

Lemma keeps_copy_local (v : T) : keeps (copy_local v).
Proof.
  intros w Hh. unfold wpg, copy_local.
  by destruct (copy_throws (copies w) v).
Qed.

Lemma keeps_construct_at (p : ptr) (v : T) : keeps (construct_at p v).
Proof.
  intros w Hh. unfold wpg, construct_at.
  destruct (slot w p) as [x|]; [|done].
  destruct (copy_throws (copies w) v); [done|].
  split; [by apply heap_ok_write|by rewrite vecs_write].
Qed.

Lemma keeps_destroy_at (p : ptr) : keeps (T := T) (destroy_at p).
Proof.
  intros w Hh. unfold wpg, destroy_at.
  destruct (slot w p) as [[x|]|]; try done.
  split; [by apply heap_ok_write|by rewrite vecs_write].
Qed.

Lemma keeps_swap_at (p q : ptr) : keeps (T := T) (swap_at p q).
Proof.
  intros w Hh. unfold wpg, swap_at.
  destruct (slot w p) as [[x|]|]; try done.
  destruct (slot w q) as [[y|]|]; try done.
  destruct (swap_throws (swaps w) x y) as [[x' y']|];
    (split; [by do 2 apply heap_ok_write|by rewrite !vecs_write]).
Qed.

Lemma keeps_operator_new (bytes : Z) :
  0 <= bytes < 2 ^ 64 -> keeps (T := T) (operator_new bytes).
Proof.
  intros Hb w Hh. unfold wpg, operator_new.
  destruct (alloc_throws (allocs w) bytes); [done|].
  cbv zeta. split; [|done]. cbn [set_heap heap].
  intros b sl Hsl. apply lookup_insert_Some in Hsl as [[_ <-]|[_ Hsl]].
  - rewrite length_replicate.
    assert (0 <= bytes / sizeofT <= bytes).
    { split; [apply Z.div_pos; lia|].
      apply Z.div_le_upper_bound; [lia|nia]. }
    lia.
  - by apply (Hh b).
Qed.

Lemma keeps_operator_delete (p : ptr) : keeps (T := T) (operator_delete p).
Proof.
  intros w Hh. unfold wpg, operator_delete.
  destruct p as [|b off]; [done|].
  destruct (decide (off = 0)); [|done].
  destruct (heap w !! b) eqn:Hb; [|done].
  split; [|done]. cbn [set_heap heap]. intros b' sl' Hb'.
  apply lookup_delete_Some in Hb' as [_ Hb']. by apply (Hh b').
Qed.

Lemma keeps_destroy_all (p : ptr) (size : Z) : keeps (T := T) (destroy_all p size).
Proof.
  unfold destroy_all. apply keeps_iterate. intros j.
  apply keeps_bind; [apply keeps_of_option|intros q; apply keeps_destroy_at].
Qed.

Lemma keeps_copy_construct_all (dst src : ptr) (size : Z) :
  keeps (copy_construct_all dst src size).
Proof.
  unfold copy_construct_all. apply keeps_iterate. intros j.
  apply keeps_bind; [apply keeps_of_option|intros p].
  apply keeps_bind; [apply keeps_of_option|intros q].
  apply keeps_bind; [apply keeps_load|intros v].
  apply keeps_catch; [apply keeps_construct_at|apply keeps_destroy_all].
Qed.

Lemma keeps_get_vec (this : nat) : keeps (T := T) (get_vec this).
Proof. intros w Hh. unfold wpg, get_vec. by destruct (vecs w !! this). Qed.

Lemma keeps_begin (this : nat) : keeps (T := T) (begin this).
Proof.
  apply keeps_bind; [apply keeps_get_vec|intros v; apply keeps_ret].
Qed.

Lemma keeps_end (this : nat) : keeps (T := T) (end_ this).
Proof.
  apply keeps_bind; [apply keeps_get_vec|intros v; apply keeps_of_option].
Qed.

Lemma keeps_swap_elems (this : nat) (i j : Z) :
  keeps (T := T) (swap_elems this i j).
Proof.
  apply keeps_bind; [apply keeps_get_vec|intros v].
  apply keeps_bind; [apply keeps_of_option|intros p].
  apply keeps_bind; [apply keeps_of_option|intros q].
  apply keeps_swap_at.
Qed.

Lemma keeps_shift_down (fuel : nat) (this : nat) (i j : ptr) :
  keeps (T := T) (shift_down fuel this i j).
Proof.
  revert i j. induction fuel as [|fuel IH]; intros i j; cbn [shift_down].
  - apply keeps_undefined.
  - apply keeps_bind; [apply keeps_end|intros e].
    destruct (decide (j <> e)); [|apply keeps_ret].
    apply keeps_bind; [apply keeps_swap_at|intros _].
    apply keeps_bind; [apply keeps_of_option|intros i'].
    apply keeps_bind; [apply keeps_of_option|intros j']. apply IH.
Qed.

(** ** Operations on objects *)

Lemma state_ok_set_vec w this v :
  state_ok w -> vec_ok v ->
  state_ok (set_vecs (<[this := v]> (vecs w)) w).
Proof.
  intros [Hh Hvs] Hv. split; [done|]. cbn. by apply map_Forall_insert_2.
Qed.

Lemma state_ok_drop_vec w this :
  state_ok w -> state_ok (set_vecs (delete this (vecs w)) w).
Proof.
  intros [Hh Hvs]. split; [done|]. cbn. by apply map_Forall_delete.
Qed.

Lemma state_ok_frame w w' :
  heap_ok (heap w') -> vecs w' = vecs w -> state_ok w -> state_ok w'.
Proof. intros Hh Hvs [_ H]. split; [done|]. by rewrite Hvs. Qed.

Lemma state_ok_lookup w this v :
  state_ok w -> vecs w !! this = Some v -> vec_ok v.
Proof. intros [_ H] Hv. by apply (map_Forall_lookup_1 _ _ _ _ H Hv). Qed.

(** One step on raw memory inside an operation on objects. *)
Lemma wpg_keeps_step {A B} (m : M T A) (k : A -> M T B)
    (Q : B -> world T -> Prop) (E : world T -> Prop) w :
  keeps m ->
  heap_ok (heap w) ->
  (forall a w', heap_ok (heap w') -> vecs w' = vecs w ->
                wpg True (k a) Q E w') ->
  (forall w', heap_ok (heap w') -> vecs w' = vecs w -> E w') ->
  wpg True (bind m k) Q E w.
Proof.
  intros Hm Hh Hk HE. rewrite wpg_bind.
  eapply wpg_mono; [apply (Hm w Hh)|done| |]; cbv beta.
  - intros a w' [? ?]. by apply Hk.
  - intros w' [? ?]. by apply HE.
Qed.

Lemma wpg_get_vec_step {B} (this : nat) (k : vec -> M T B)
    (Q : B -> world T -> Prop) (E : world T -> Prop) w :
  (forall v, vecs w !! this = Some v -> wpg True (k v) Q E w) ->
  wpg True (bind (get_vec this) k) Q E w.
Proof.
  intros H. unfold wpg, bind, get_vec.
  destruct (vecs w !! this) as [v|] eqn:Hv; [|done]. by apply H.
Qed.

Lemma wpg_set_vec_step {B} (this : nat) (v : vec) (k : unit -> M T B)
    (Q : B -> world T -> Prop) (E : world T -> Prop) w :
  wpg True (k tt) Q E (set_vecs (<[this := v]> (vecs w)) w) ->
  wpg True (bind (set_vec this v) k) Q E w.
Proof. intros H. by rewrite wpg_bind. Qed.

Lemma wpg_operator_new_step {B} (bytes : Z) (k : ptr -> M T B)
    (Q : B -> world T -> Prop) (E : world T -> Prop) w :
  0 <= bytes < 2 ^ 64 ->
  heap_ok (heap w) ->
  (forall b w', heap_ok (heap w') -> vecs w' = vecs w ->
                wpg True (k (Ptr b 0)) Q E w') ->
  (forall w', heap_ok (heap w') -> vecs w' = vecs w -> E w') ->
  wpg True (bind (operator_new bytes) k) Q E w.
Proof.
  intros Hb Hh Hk HE. rewrite wpg_bind.
  pose proof (keeps_operator_new bytes Hb w Hh) as H.
  unfold wpg in *. unfold operator_new in *.
  destruct (alloc_throws (allocs w) bytes).
  - destruct H. by apply HE.
  - cbv zeta in *. destruct H. by apply Hk.
Qed.

(** [~vector()] *)
Lemma vector_dtor_ok (this : nat) w :
  state_ok w ->
  wpg True (vector_dtor this)
    (fun _ w' => state_ok w' /\ vecs w' = delete this (vecs w))
    (fun w' => state_ok w') w.
Proof.
  intros Hok. unfold vector_dtor. apply wpg_get_vec_step. intros v Hv.
  apply wpg_keeps_step; [apply keeps_destroy_all|apply Hok| |].
  2: { intros w1 Hh1 Hvs1. by apply (state_ok_frame w). }
  intros _ w1 Hh1 Hvs1.
  apply wpg_keeps_step; [apply keeps_operator_delete|done| |].
  2: { intros w2 Hh2 Hvs2. apply (state_ok_frame w); [done|congruence|done]. }
  intros _ w2 Hh2 Hvs2. unfold wpg, drop_vec. cbn [vecs].
  rewrite Hvs2, Hvs1. split; [|done].
  split; [done|]. cbn. apply map_Forall_delete. apply Hok.
Qed.

Lemma vector_dtor_maintains (this : nat) w :
  state_ok w ->
  wpg True (vector_dtor this) (fun _ w' => state_ok w')
      (fun w' => state_ok w') w.
Proof.
  intros Hok. eapply wpg_mono; [by apply vector_dtor_ok|done| |done].
  by intros _ w' [? _].
Qed.

(** The end of [new_buffer] and of [operator=]: [swap(tmp)], then the
    destructor of [tmp]. *)
Lemma swap_dtor_ok (this tmp : nat) (v t : vec) w :
  state_ok w ->
  this <> tmp ->
  vecs w !! this = Some v ->
  vecs w !! tmp = Some t ->
  wpg True (finally (swap this tmp) (vector_dtor tmp))
    (fun _ w' =>
       state_ok w' /\
       vecs w' !! this = Some (Vec (data_ t) (size_ t) (capacity_ t)))
    (fun w' => state_ok w') w.
Proof.
  intros Hok Hne Hv Ht. rewrite wpg_finally.
  assert (Hvok : vec_ok v) by (by eapply state_ok_lookup).
  assert (Htok : vec_ok t) by (by eapply state_ok_lookup).
  unfold swap. apply wpg_get_vec_step. intros v' Hv'.
  apply wpg_get_vec_step. intros t' Ht'. simplify_eq.
  apply wpg_set_vec_step. unfold wpg at 1. unfold set_vec.
  set (w2 := set_vecs _ (set_vecs _ w)).
  assert (Hok2 : state_ok w2).
  { apply state_ok_set_vec; [apply state_ok_set_vec|]; done. }
  eapply wpg_mono; [by apply vector_dtor_ok|done| |done].
  intros _ w3 [Hok3 Hvs3]. split; [done|].
  rewrite Hvs3. unfold w2. cbn [vecs set_vecs].
  rewrite lookup_delete_ne, lookup_insert_ne, lookup_insert_eq by done.
  done.
Qed.

(** [new_buffer] *)
Lemma new_buffer_ok (this : nat) (nc : Z) (v : vec) w :
  state_ok w ->
  vecs w !! this = Some v ->
  0 <= nc < 2 ^ 64 ->
  wpg True (new_buffer this nc)
    (fun _ w' =>
       state_ok w' /\
       exists v', vecs w' !! this = Some v' /\
                  (nc <> 0 -> capacity_ v' = nc) /\
                  (nc = 0 -> v' = Vec Null 0 0))
    (fun w' => state_ok w') w.
Proof.
  intros Hok Hv Hnc. unfold new_buffer.
  assert (Hvok : vec_ok v) by (by eapply state_ok_lookup).
  rewrite wpg_bind. unfold wpg at 1. unfold new_address.
  set (tmp := fresh (dom (vecs w))).
  assert (Htmp : vecs w !! tmp = None) by apply not_elem_of_dom, is_fresh.
  assert (Hne : this <> tmp) by congruence.
  unfold vector_default. apply wpg_set_vec_step.
  set (w1 := set_vecs _ w).
  assert (Hok1 : state_ok w1).
  { apply state_ok_set_vec; [done|]. repeat split; cbn; try lia; auto. }
  assert (Hv1 : vecs w1 !! this = Some v).
  { unfold w1. cbn. by rewrite lookup_insert_ne. }
  assert (Ht1 : vecs w1 !! tmp = Some (Vec Null 0 0)).
  { unfold w1. cbn. by rewrite lookup_insert_eq. }
  clearbody tmp w1. clear Hok Hv Htmp.
  destruct (decide (nc <> 0)) as [Hnz|Hz].
  - (* a new block is allocated and filled *)
    assert (Hswap : forall w' p,
              state_ok w' -> vecs w' !! this = Some v ->
              vecs w' !! tmp = Some (Vec p (size_ v) nc) ->
              wpg True (finally (swap this tmp) (vector_dtor tmp))
                (fun _ w'' =>
                   state_ok w'' /\
                   exists v', vecs w'' !! this = Some v' /\
                              (nc <> 0 -> capacity_ v' = nc) /\
                              (nc = 0 -> v' = Vec Null 0 0))
                (fun w'' => state_ok w'') w').
    { intros w' p Hok' Hv' Ht'.
      eapply wpg_mono; [by eapply swap_dtor_ok|done| |done].
      intros _ w'' [Hok'' Hthis]. split; [done|].
      eexists. split; [exact Hthis|]. cbn. split; [done|]. intros; lia. }
    rewrite wpg_finally, wpg_bind.
    apply wpg_operator_new_step; [apply wrap_range|apply Hok1| |].
    2: { intros w2 Hh2 Hvs2. apply vector_dtor_maintains.
         by apply (state_ok_frame w1). }
    intros b w2 Hh2 Hvs2.
    unfold set_data. rewrite wpg_bind. apply wpg_get_vec_step. intros t Ht.
    rewrite Hvs2, Ht1 in Ht. injection Ht as <-. cbn [size_ capacity_].
    unfold wpg at 1. unfold set_vec.
    set (w3 := set_vecs _ w2).
    assert (Hok3 : state_ok w3).
    { apply state_ok_set_vec; [by apply (state_ok_frame w1)|].
      repeat split; cbn; try lia; eauto. }
    assert (Hv3 : vecs w3 !! this = Some v).
    { unfold w3. cbn. by rewrite lookup_insert_ne, Hvs2. }
    assert (Ht3 : vecs w3 !! tmp = Some (Vec (Ptr b 0) 0 0)).
    { unfold w3. cbn. by rewrite lookup_insert_eq. }
    clearbody w3. clear Hh2 Hvs2 w2.
    apply wpg_get_vec_step. intros v' Hv'.
    rewrite Hv3 in Hv'. injection Hv' as <-.
    apply wpg_keeps_step;
      [apply keeps_copy_construct_all|apply Hok3| |].
    2: { intros w4 Hh4 Hvs4. apply vector_dtor_maintains.
         by apply (state_ok_frame w3). }
    intros _ w4 Hh4 Hvs4.
    unfold set_capacity. rewrite wpg_bind. apply wpg_get_vec_step. intros t Ht.
    rewrite Hvs4, Ht3 in Ht. injection Ht as <-. cbn [data_ size_].
    unfold wpg at 1. unfold set_vec.
    set (w5 := set_vecs _ w4).
    assert (Hok5 : state_ok w5).
    { apply state_ok_set_vec; [by apply (state_ok_frame w3)|].
      repeat split; cbn; try lia; eauto. }
    assert (Hv5 : vecs w5 !! this = Some v).
    { unfold w5. cbn. by rewrite lookup_insert_ne, Hvs4. }
    assert (Ht5 : vecs w5 !! tmp = Some (Vec (Ptr b 0) 0 nc)).
    { unfold w5. cbn. by rewrite lookup_insert_eq. }
    clearbody w5. clear Hh4 Hvs4 w4.
    apply wpg_get_vec_step. intros v' Hv'.
    rewrite Hv5 in Hv'. injection Hv' as <-.
    unfold set_size. apply wpg_get_vec_step. intros t Ht.
    rewrite Ht5 in Ht. injection Ht as <-. cbn [data_ capacity_].
    unfold wpg at 1. unfold set_vec.
    set (w6 := set_vecs _ w5).
    assert (Hok6 : state_ok w6).
    { apply state_ok_set_vec; [done|].
      destruct Hvok as (? & _). repeat split; cbn; try lia; eauto. }
    assert (Hv6 : vecs w6 !! this = Some v).
    { unfold w6. cbn. by rewrite lookup_insert_ne. }
    assert (Ht6 : vecs w6 !! tmp = Some (Vec (Ptr b 0) (size_ v) nc)).
    { unfold w6. cbn. by rewrite lookup_insert_eq. }
    clearbody w6.
    specialize (Hswap w6 (Ptr b 0) Hok6 Hv6 Ht6).
    by rewrite wpg_finally in Hswap.
  - assert (nc = 0) as -> by (destruct (decide (nc = 0)); [done|contradiction]).
    rewrite wpg_finally, wpg_bind, wpg_ret, <- wpg_finally.
    eapply wpg_mono; [by eapply swap_dtor_ok|done| |done].
    intros _ w'' [Hok'' Hthis]. split; [done|].
    eexists. split; [exact Hthis|]. cbn. split; [done|]. done.
Qed.

(** ** Every operation takes good states to good states *)

Lemma safe_ret {A} (a : A) : safe (T := T) (ret a).
Proof. intros w Hok. by rewrite wpg_ret. Qed.

Lemma safe_of_option {A} (o : option A) : safe (T := T) (of_option o).
Proof. destruct o; [apply safe_ret|by intros w Hok]. Qed.

Lemma safe_keeps {A} (m : M T A) : keeps m -> safe m.
Proof.
  intros Hm w Hok. eapply wpg_mono; [apply (Hm w), Hok|done| |]; cbv beta.
  - intros _ w' [? ?]. by apply (state_ok_frame w).
  - intros w' [? ?]. by apply (state_ok_frame w).
Qed.

Lemma safe_bind {A B} (m : M T A) (k : A -> M T B) :
  safe m -> (forall a, safe (k a)) -> safe (bind m k).
Proof.
  intros Hm Hk w Hok. rewrite wpg_bind.
  eapply wpg_mono; [apply (Hm w Hok)|done| |done].
  intros a w' Hok'. by apply Hk.
Qed.

Lemma safe_finally {A} (m : M T A) (d : M T unit) :
  safe m -> safe d -> safe (finally m d).
Proof.
  intros Hm Hd w Hok. rewrite wpg_finally.
  eapply wpg_mono; [apply (Hm w Hok)|done| |]; cbv beta.
  - intros a w' Hok'. by apply Hd.
  - intros w' Hok'. by apply Hd.
Qed.

Lemma safe_iterate (n : nat) next (i : Z) (body : Z -> M T unit) :
  (forall j, safe (body j)) -> safe (iterate n next i body).
Proof.
  intros Hbody. revert i. induction n as [|n IH]; intros i; cbn [iterate].
  - apply safe_ret.
  - apply safe_bind; [apply Hbody|intros _; apply IH].
Qed.

Lemma safe_get_vec_bind {B} (this : nat) (k : vec -> M T B) :
  (forall v w, state_ok w -> vecs w !! this = Some v -> vec_ok v ->
     wpg True (k v) (fun _ w' => state_ok w') (fun w' => state_ok w') w) ->
  safe (bind (get_vec this) k).
Proof.
  intros H w Hok. apply wpg_get_vec_step. intros v Hv.
  apply H; [done|done|by eapply state_ok_lookup].
Qed.

Lemma safe_vector_dtor (this : nat) : safe (T := T) (vector_dtor this).
Proof. intros w Hok. by apply vector_dtor_maintains. Qed.

Lemma safe_vector_default (this : nat) : safe (T := T) (vector_default this).
Proof.
  intros w Hok. unfold wpg, vector_default, set_vec.
  apply state_ok_set_vec; [done|]. repeat split; cbn; try lia; auto.
Qed.

Lemma safe_swap (this other : nat) : safe (T := T) (swap this other).
Proof.
  unfold swap. apply safe_get_vec_bind. intros a w Hok Ha Haok.
  apply wpg_get_vec_step. intros b Hb.
  assert (Hbok : vec_ok b) by (by eapply state_ok_lookup).
  apply wpg_set_vec_step. unfold wpg, set_vec.
  destruct a, b. by apply state_ok_set_vec; [apply state_ok_set_vec|].
Qed.

Lemma safe_new_buffer_call (this : nat) (nc : Z) (v : vec) w :
  state_ok w -> vecs w !! this = Some v -> 0 <= nc < 2 ^ 64 ->
  wpg True (new_buffer this nc) (fun _ w' => state_ok w')
      (fun w' => state_ok w') w.
Proof.
  intros Hok Hv Hnc.
  eapply wpg_mono; [by eapply new_buffer_ok|done| |done].
  by intros _ w' [? _].
Qed.

Lemma safe_reserve (this : nat) (n : Z) :
  0 <= n < 2 ^ 64 -> safe (T := T) (reserve this n).
Proof.
  intros Hn. unfold reserve. apply safe_get_vec_bind. intros v w Hok Hv Hvok.
  destruct (decide (capacity_ v >= n)); [by apply safe_ret|].
  by eapply safe_new_buffer_call.
Qed.

Lemma safe_shrink_to_fit (this : nat) : safe (T := T) (shrink_to_fit this).
Proof.
  unfold shrink_to_fit. apply safe_get_vec_bind. intros v w Hok Hv Hvok.
  destruct (decide (size_ v < capacity_ v)); [|by apply safe_ret].
  eapply safe_new_buffer_call; [done|done|apply Hvok].
Qed.

Lemma safe_set_size_call (this : nat) (n : Z) (v : vec) w :
  state_ok w -> vecs w !! this = Some v ->
  vec_ok (Vec (data_ v) n (capacity_ v)) ->
  wpg True (set_size this n) (fun _ w' => state_ok w')
      (fun w' => state_ok w') w.
Proof.
  intros Hok Hv Hn. unfold set_size. apply wpg_get_vec_step. intros v' Hv'.
  simplify_eq. unfold wpg, set_vec. by apply state_ok_set_vec.
Qed.

Lemma safe_clear (this : nat) : safe (T := T) (clear this).
Proof.
  unfold clear. apply safe_get_vec_bind. intros v w Hok Hv Hvok.
  apply wpg_keeps_step; [apply keeps_destroy_all|apply Hok| |].
  2: { intros w' ? ?. by apply (state_ok_frame w). }
  intros _ w' Hh Hvs.
  eapply safe_set_size_call; [by apply (state_ok_frame w)|by rewrite Hvs|].
  destruct Hvok as (? & ? & ? & ? & ?). repeat split; cbn; try lia; auto.
Qed.

Lemma safe_vector_copy (this other : nat) : safe (vector_copy this other).
Proof.
  unfold vector_copy. apply safe_get_vec_bind. intros o w Hok Ho Hook.
  apply wpg_operator_new_step; [apply wrap_range|apply Hok| |].
  2: { intros w' ? ?. by apply (state_ok_frame w). }
  intros b w1 Hh1 Hvs1.
  apply wpg_keeps_step;
    [apply keeps_catch; [apply keeps_copy_construct_all|apply keeps_operator_delete]
    |done| |].
  2: { intros w' ? ?. apply (state_ok_frame w); [done|congruence|done]. }
  intros _ w2 Hh2 Hvs2. unfold wpg, set_vec.
  apply state_ok_set_vec; [apply (state_ok_frame w); [done|congruence|done]|].
  destruct Hook as (? & ? & ? & ? & ?). repeat split; cbn; try lia; eauto.
Qed.

Lemma safe_assign (this other : nat) : safe (assign this other).
Proof.
  unfold assign. destruct (decide (this = other)); [apply safe_ret|].
  apply safe_bind; [by intros w Hok|intros tmp].
  apply safe_bind; [apply safe_vector_copy|intros _].
  apply safe_finally; [apply safe_swap|apply safe_vector_dtor].
Qed.

Lemma safe_pop_back (this : nat) : safe (T := T) (pop_back this).
Proof.
  unfold pop_back. apply safe_get_vec_bind. intros v w Hok Hv Hvok.
  destruct (ptr_add (data_ v) (wrap (size_ v - 1))) as [p|] eqn:Hp; [|done].
  rewrite wpg_bind, wpg_of_option_some, wpg_bind.
  unfold wpg at 1. unfold destroy_at.
  destruct (slot w p) as [[x|]|] eqn:Hslot; try done.
  eapply safe_set_size_call.
  - apply (state_ok_frame w); [apply heap_ok_write, Hok|apply vecs_write|done].
  - by rewrite vecs_write.
  - destruct Hvok as (Hs & Hc & Hz & Hnn & Hd).
    pose proof (wrap_range (size_ v - 1)).
    repeat split; cbn; try lia; auto.
    intros Hcap. exfalso. specialize (Hz Hcap). rewrite Hz in Hp.
    change (wrap (0 - 1)) with (2 ^ 64 - 1) in Hp.
    destruct Hd as [Hd|[b Hd]]; rewrite Hd in Hp; cbn in Hp; [done|].
    injection Hp as <-. unfold slot in Hslot.
    rewrite decide_True in Hslot by done.
    destruct (heap w !! b) as [sl|] eqn:Hb; [|done]. cbn in Hslot.
    apply lookup_lt_Some in Hslot.
    destruct Hok as [Hh _]. specialize (Hh b sl Hb). lia.
Qed.

Lemma safe_push_back (this : nat) (x : T) : safe (push_back this x).
Proof.
  unfold push_back. apply safe_get_vec_bind. intros v w Hok Hv Hvok.
  destruct (decide (size_ v <> capacity_ v)) as [Hne|Heq].
  - destruct (ptr_add (data_ v) (size_ v)) as [p|] eqn:Hp; [|done].
    rewrite wpg_bind, wpg_of_option_some.
    apply wpg_keeps_step; [apply keeps_construct_at|apply Hok| |].
    2: { intros w' ? ?. by apply (state_ok_frame w). }
    intros _ w' Hh Hvs.
    eapply safe_set_size_call; [by apply (state_ok_frame w)|by rewrite Hvs|].
    destruct Hvok as (Hs & Hc & Hz & Hnn & Hd).
    pose proof (wrap_range (size_ v + 1)).
    repeat split; cbn; try lia; auto.
  - unfold push_back_realloc.
    apply wpg_keeps_step; [apply keeps_copy_local|apply Hok| |].
    2: { intros w' ? ?. by apply (state_ok_frame w). }
    intros tmp w1 Hh1 Hvs1.
    apply wpg_get_vec_step. intros v1 Hv1.
    assert (Hok1 : state_ok w1) by (by apply (state_ok_frame w)).
    assert (Hv1ok : vec_ok v1) by (by eapply state_ok_lookup).
    assert (Hnc : 0 <= increase_capacity v1 < 2 ^ 64).
    { unfold increase_capacity. destruct (decide (capacity_ v1 = 0)); [lia|].
      apply wrap_range. }
    rewrite wpg_bind.
    eapply wpg_mono; [by eapply new_buffer_ok|done| |done].
    intros _ w2 (Hok2 & v2 & Hv2 & Hcap2 & Hnull2). cbv beta.
    apply wpg_get_vec_step. intros v2' Hv2'. simplify_eq.
    assert (Hv2ok : vec_ok v2) by (by eapply state_ok_lookup).
    destruct (decide (increase_capacity v1 = 0)) as [Hz|Hnz].
    + rewrite (Hnull2 Hz). cbn [data_ size_ ptr_add].
      rewrite decide_True by done. by rewrite wpg_bind, wpg_of_option_some.
    + destruct (ptr_add (data_ v2) (size_ v2)) as [p|] eqn:Hp; [|done].
      rewrite wpg_bind, wpg_of_option_some.
      apply wpg_keeps_step; [apply keeps_construct_at|apply Hok2| |].
      2: { intros w' ? ?. by apply (state_ok_frame w2). }
      intros _ w3 Hh3 Hvs3.
      eapply safe_set_size_call;
        [by apply (state_ok_frame w2)|by rewrite Hvs3|].
      destruct Hv2ok as (Hs & Hc & Hz & Hnn & Hd).
      pose proof (wrap_range (size_ v2 + 1)).
      specialize (Hcap2 Hnz).
      repeat split; cbn; try lia; auto.
Qed.

Lemma safe_insert (this : nat) (pos : ptr) (x : T) :
  safe (insert this pos x;;; ret tt).
Proof.
  unfold insert. apply safe_bind; [|intros; apply safe_ret].
  apply safe_bind; [apply safe_keeps, keeps_begin|intros b].
  apply safe_bind; [apply safe_of_option|intros d].
  apply safe_bind; [apply safe_push_back|intros _].
  apply safe_bind; [apply safe_keeps, keeps_get_vec|intros v].
  apply safe_bind.
  - apply safe_keeps, keeps_iterate. intros j. apply keeps_swap_elems.
  - intros _. apply safe_bind; [apply safe_keeps, keeps_begin|intros b'].
    apply safe_of_option.
Qed.

Lemma safe_erase (this : nat) (pos : ptr) : safe (T := T) (erase this pos;;; ret tt).
Proof.
  unfold erase. apply safe_bind; [|intros; apply safe_ret].
  apply safe_bind; [apply safe_of_option|intros r].
  apply safe_bind; [apply safe_keeps, keeps_begin|intros b].
  apply safe_bind; [apply safe_of_option|intros d].
  apply safe_bind; [apply safe_keeps, keeps_get_vec|intros v].
  apply safe_bind.
  - apply safe_keeps, keeps_iterate. intros j. apply keeps_swap_elems.
  - intros _. apply safe_bind; [apply safe_pop_back|intros _; apply safe_ret].
Qed.

Lemma safe_erase_range (this : nat) (first last : ptr) :
  safe (T := T) (erase_range this first last;;; ret tt).
Proof.
  unfold erase_range. apply safe_bind; [|intros; apply safe_ret].
  apply safe_bind.
  - apply safe_keeps. intros w Hh. by apply keeps_shift_down.
  - intros _. apply safe_bind; [apply safe_of_option|intros d].
    apply safe_bind.
    + apply safe_iterate. intros _. apply safe_pop_back.
    + intros _. apply safe_bind; [apply safe_keeps, keeps_begin|intros b].
      apply safe_of_option.
Qed.

Lemma safe_run_op (o : op T) : well_typed o -> safe (run_op o).
Proof.
  intros Hty. destruct o; cbn [run_op].
  - apply safe_bind; [by intros w Hok|intros this; apply safe_vector_default].
  - apply safe_bind; [by intros w Hok|intros this; apply safe_vector_copy].
  - apply safe_assign.
  - apply safe_push_back.
  - apply safe_pop_back.
  - by apply safe_reserve.
  - apply safe_shrink_to_fit.
  - apply safe_clear.
  - apply safe_swap.
  - apply safe_insert.
  - apply safe_erase.
  - apply safe_erase_range.
Qed.

Lemma reachable_state_ok w : reachable w -> state_ok w.
Proof.
  induction 1 as [a c s|o w w' _ IH Hty Hrun|o w w' _ IH Hty Hrun].
  - split; [by intros b sl|]. cbn. apply map_Forall_empty.
  - pose proof (safe_run_op o Hty w IH) as H.
    unfold wpg in H. by rewrite Hrun in H.
  - pose proof (safe_run_op o Hty w IH) as H.
    unfold wpg in H. by rewrite Hrun in H.
Qed.

(** C2, as the code has it.  In every state that a program reaches by
    the public operations, a vector with a positive capacity has a
    non-null buffer, and a vector with capacity zero has length
    zero.  (The converse of the first part fails on the copy
    of a default-constructed vector.) *)
Theorem reachable_vectors w this v :
  reachable w ->
  vecs w !! this = Some v ->
  (0 < capacity_ v -> data_ v <> Null) /\
  (capacity_ v = 0 -> size_ v = 0).
Proof.
  intros Hr Hv. apply reachable_state_ok in Hr.
  destruct (state_ok_lookup _ _ _ Hr Hv) as (_ & _ & ? & ? & _). done.
Qed.

End Invariant.

(** * The statements on vectors of integers *)

Lemma int_size_pos (k : Z) : 0 < @sizeofT Z (int_failing_copy k).
Proof. reflexivity. Qed.

Lemma int_elem_size_pos : 0 < @sizeofT Z int_elem.
Proof. reflexivity. Qed.

Lemma owns_world_123 : owns world_123 0 [1; 2; 3] 4.
Proof.
  exists (Vec (Ptr 5 0) 3 4). split; [reflexivity|].
  repeat split; try done.
  exists [None]. reflexivity.
Qed.

Lemma owns_world_12_full : owns world_12_full 0 [1; 2] 2.
Proof.
  exists (Vec (Ptr 5 0) 2 2). split; [reflexivity|].
  repeat split; try done.
  exists []. reflexivity.
Qed.

Lemma owns_world_12345 : owns world_12345 0 [1; 2; 3; 4; 5] 8.
Proof.
  exists (Vec (Ptr 5 0) 5 8). split; [reflexivity|].
  repeat split; try done.
  exists [None; None; None]. reflexivity.
Qed.

Lemma reachable_copy_of_empty :
  reachable (elem := int_elem) (alloc := plain_alloc) world_copy_of_empty.
Proof.
  apply (reachable_return (OpCopy 0) (World ∅ {[ 0%nat := Vec Null 0 0 ]} 0 0 0));
    [|done|reflexivity].
  apply (reachable_return OpDefault empty_world); [|done|reflexivity].
  apply reachable_start.
Qed.

(** [reserve(10)] on [1, 2, 3] with capacity 4. *)
Lemma reserve_capacity_and_content_witness :
  exists w',
    reserve (elem := int_elem) (alloc := plain_alloc) 0 10 world_123 = Ok tt w' /\
    owns w' 0 [1; 2; 3] 10.
Proof.
  destruct (reserve_capacity_and_content (elem := int_elem) (alloc := plain_alloc)
              int_elem_size_pos world_123 0%nat [1; 2; 3] 4 10
              owns_world_123 ltac:(lia)) as (_ & _ & H).
  apply H; [lia|reflexivity|reflexivity|intros k x _; reflexivity].
Defined.

(** [reserve(10)] on [1, 2, 3] when the copy of the second element
    throws. *)
Lemma reserve_failure_preserves_witness :
  exists w',
    reserve (elem := int_failing_copy 1) (alloc := plain_alloc) 0 10 world_123
    = Throw w' /\
    owns w' 0 [1; 2; 3] 4.
Proof.
  destruct (reserve_failure_preserves (elem := int_failing_copy 1)
              (alloc := plain_alloc) (int_size_pos 1) world_123 0%nat
              [1; 2; 3] 4 10 owns_world_123 ltac:(lia)) as [_ H].
  apply H; [reflexivity|].
  right. exists 1%nat, 2. split; reflexivity.
Defined.

(** Five [push_back] calls on a default-constructed vector of
    integers. *)
Lemma push_back_growth_sequence_witness :
  exists w5 : world Z,
    owns w5 0 [1; 2; 3; 4; 5] 8 /\ capacity 0 w5 = Ok 8 w5 /\ size 0 w5 = Ok 5 w5.
Proof.
  destruct (push_back_growth_sequence (elem := int_elem) (alloc := plain_alloc)
              int_elem_size_pos empty_world 0%nat 1 2 3 4 5
              ltac:(reflexivity) ltac:(reflexivity) ltac:(reflexivity))
    as (wd & w1 & w2 & w3 & w4 & w5 & H).
  exists w5. tauto.
Defined.

(** [erase] of the indices 1, 2, 3 of [1, 2, 3, 4, 5]: the vector
    holds [1, 5], and the slots 2, 3 and 4 of its block are raw. *)
Lemma erase_range_content_witness :
  exists r w',
    erase_range (elem := int_elem) 0 (Ptr 5 1) (Ptr 5 4) world_12345 = Ok r w' /\
    owns w' 0 [1; 5] 8 /\
    forall sl (i : nat), heap w' !! 5%nat = Some sl ->
      (2 <= i < 5)%nat -> sl !! i = Some None.
Proof.
  destruct (erase_range_content (elem := int_elem) world_12345 0%nat
              [1; 2; 3; 4; 5] 8 (Ptr 5 0) 1 4 (Ptr 5 1) (Ptr 5 4)
              owns_world_12345 eq_refl ltac:(simpl; lia) eq_refl eq_refl)
    as [Hall H].
  destruct (H ltac:(reflexivity)) as (r & w' & Hrun & Ho).
  destruct (Hall r w' Hrun) as (_ & _ & Hraw).
  exists r, w'. split; [exact Hrun|]. split; [exact Ho|].
  intros sl i Hsl Hi. apply (Hraw 5%nat 0 sl i eq_refl Hsl). simpl. lia.
Defined.

(** [push_back(9)] on the full vector [1, 2] when the construction of
    the new last element throws. *)
Lemma push_back_at_capacity_witness :
  exists w',
    push_back (elem := int_failing_copy 3) (alloc := plain_alloc) 0 9 world_12_full
    = Throw w' /\
    owns w' 0 [1; 2] 4.
Proof.
  destruct (push_back_at_capacity (elem := int_failing_copy 3)
              (alloc := plain_alloc) (int_size_pos 3) world_12_full 0%nat
              [1; 2] 2 9 owns_world_12_full eq_refl) as (_ & _ & _ & H).
  destruct (H ltac:(reflexivity) ltac:(reflexivity) ltac:(reflexivity))
    as [_ H'].
  destruct (H' ltac:(reflexivity)) as [H'' _].
  - intros k x Hx. destruct k as [|[|k]]; [reflexivity|reflexivity|done].
  - apply H''. reflexivity.
Defined.

(** [v = v] on [1, 2, 3]. *)
Lemma self_assignment_witness :
  assign (elem := int_elem) (alloc := plain_alloc) 0 0 world_123
  = Ok tt world_123 /\
  owns world_123 0 [1; 2; 3] 4.
Proof.
  apply (self_assignment (elem := int_elem) (alloc := plain_alloc)
           world_123 0%nat [1; 2; 3] 4 owns_world_123).
Defined.

(** The iterators that the two [erase] overloads return on
    [1, 2, 3, 4, 5]. *)
Lemma erase_return_values_witness :
  (exists w',
     erase_range (elem := int_elem) 0 (Ptr 5 1) (Ptr 5 4) world_12345
     = Ok (Ptr 5 3) w') /\
  (exists w',
     erase (elem := int_elem) 0 (Ptr 5 2) world_12345 = Ok (Ptr 5 3) w').
Proof.
  destruct (erase_return_values (elem := int_elem) world_12345 0%nat
              [1; 2; 3; 4; 5] 8 (Ptr 5 0) owns_world_12345 eq_refl) as [H1 H2].
  split.
  - destruct (H1 1%nat 4%nat (Ptr 5 1) (Ptr 5 4) ltac:(simpl; lia) eq_refl eq_refl)
      as [_ H].
    destruct (H ltac:(reflexivity)) as (r & w' & Hrun & Hr).
    injection Hr as <-. by exists w'.
  - destruct (H2 2%nat (Ptr 5 2) ltac:(simpl; lia) eq_refl) as [_ H].
    destruct (H ltac:(reflexivity)) as (r & w' & Hrun & Hr).
    injection Hr as <-. by exists w'.
Defined.

(** The copy of a default-constructed vector. *)
Lemma reachable_vectors_witness :
  (0 < capacity_ (Vec (Ptr 0 0) 0 0) -> data_ (Vec (Ptr 0 0) 0 0) <> Null) /\
  (capacity_ (Vec (Ptr 0 0) 0 0) = 0 -> size_ (Vec (Ptr 0 0) 0 0) = 0).
Proof.
  apply (reachable_vectors (elem := int_elem) (alloc := plain_alloc)
           int_elem_size_pos world_copy_of_empty 1%nat (Vec (Ptr 0 0) 0 0)
           reachable_copy_of_empty eq_refl).
Defined.

(** C2, as stated, fails: the copy of a default-constructed vector holds
    a non-null buffer, the one [operator new] returned for zero bytes,
    with capacity zero. *)
Lemma copy_of_empty_has_buffer :
  ~ (forall (w : world Z) (this : nat) (v : vec),
       reachable (elem := int_elem) (alloc := plain_alloc) w ->
       vecs w !! this = Some v ->
       (data_ v <> Null <-> 0 < capacity_ v) /\
       (capacity_ v = 0 -> size_ v = 0)).
Proof.
  intros H.
  destruct (H world_copy_of_empty 1%nat (Vec (Ptr 0 0) 0 0)
              reachable_copy_of_empty eq_refl) as [[H1 _] _].
  cbn in H1. specialize (H1 ltac:(done)). lia.
Qed.

(** C1.  On the copy of a default-constructed vector, a state that a
    program reaches, the capacity is zero and the buffer is not null:
    [data()] returns the null pointer, [data() const] returns the
    buffer. *)
Theorem data_const_ignores_capacity :
  reachable (elem := int_elem) (alloc := plain_alloc) world_copy_of_empty /\
  capacity 1 world_copy_of_empty = Ok 0 world_copy_of_empty /\
  data 1 world_copy_of_empty = Ok Null world_copy_of_empty /\
  data_const 1 world_copy_of_empty = Ok (Ptr 0 0) world_copy_of_empty.
Proof.
  split; [exact reachable_copy_of_empty|]. repeat split; reflexivity.
Qed.

Lemma to_int_two_31 : to_int (2 ^ 31) = - 2 ^ 31.
Proof. reflexivity. Qed.

(** [copy_construct_all] on [n + 1] integers when the copy of the last
    one throws and [n] is [2^31]: the handler calls [destroy_all] with
    the count [2^31] converted to [int], which is negative, and no
    element is destroyed. *)
Lemma copy_rollback_truncated_at (n : nat) :
  Z.of_nat n = 2 ^ 31 ->
  copy_construct_all (elem := int_failing_copy (2 ^ 31)) (Ptr 1 0) (Ptr 0 0)
    (Z.of_nat (S n)) (world_blocks n)
  = Throw (World {[ 0%nat := Some <$> replicate (S n) 7;
                    1%nat := (Some <$> replicate n 7) ++ [None] ]}
                 ∅ 0 (2 ^ 31 + 1) 0).
Proof.
  intros Hn.
  pose (elem := int_failing_copy (2 ^ 31)).
  assert (Hwp : wpg False
            (copy_construct_all (elem := elem) (Ptr 1 0) (Ptr 0 0)
               (Z.of_nat (length (replicate (S n) (7 : Z)))))
            (fun _ _ => False)
            (fun w' => w' = World {[ 0%nat := Some <$> replicate (S n) 7;
                                     1%nat := (Some <$> replicate n 7) ++ [None] ]}
                                  ∅ 0 (2 ^ 31 + 1) 0)
            (world_blocks n)).
  { unfold world_blocks.
    apply (wpg_copy_construct_all (elem := elem) False 1%nat 0%nat
             (replicate (S n) None) (replicate (S n) 7) []).
    - done.
    - rewrite app_nil_r. apply lookup_insert_eq.
    - rewrite lookup_insert_ne by done. apply lookup_singleton_eq.
    - rewrite length_replicate. lia.
    - right. by rewrite !length_replicate.
    - intros Hok _.
      specialize (Hok n 7 ltac:(apply lookup_replicate_2; lia)).
      cbn in Hok. rewrite Hn in Hok. by rewrite Z.eqb_refl in Hok.
    - intros k x Hx Hk _ Hthrow.
      cbn in Hthrow. apply Z.eqb_eq in Hthrow.
      assert (k = n) as -> by lia.
      rewrite Hn, to_int_two_31.
      change (Z.to_nat (- 2 ^ 31)) with O.
      change (replicate 0 (@None Z)) with (@nil (option Z)).
      rewrite app_nil_l, drop_0, take_replicate, drop_replicate.
      replace (n `min` S n)%nat with n by lia.
      replace (S n - n)%nat with 1%nat by lia.
      change (replicate 1 (@None Z)) with [@None Z].
      rewrite insert_insert_ne by done. rewrite insert_singleton_eq.
      f_equal. }
  unfold wpg in Hwp. rewrite length_replicate in Hwp.
  destruct (copy_construct_all _ _ _ _); [done|by subst|done].
Qed.

(** C4.  The code at the failing input: a range of [2^31 + 1] integers
    in block 0 is copied into block 1, and the copy of its last element
    throws.  [copy_construct_all] throws with the [2^31] objects it had
    constructed still live in the destination. *)
Theorem copy_construct_all_leaks_beyond_int :
  exists w',
    copy_construct_all (elem := int_failing_copy (2 ^ 31)) (Ptr 1 0) (Ptr 0 0)
      (2 ^ 31 + 1) (world_blocks (Z.to_nat (2 ^ 31)))
    = Throw w' /\
    heap w' !! 1%nat = Some ((Some <$> replicate (Z.to_nat (2 ^ 31)) 7) ++ [None]) /\
    heap w' !! 0%nat = heap (world_blocks (Z.to_nat (2 ^ 31))) !! 0%nat.
Proof.
  assert (Hn : Z.of_nat (Z.to_nat (2 ^ 31)) = 2 ^ 31)
    by (apply Z2Nat.id; apply Z.pow_nonneg; lia).
  pose proof (copy_rollback_truncated_at _ Hn) as Hrun.
  rewrite Nat2Z.inj_succ, Hn in Hrun.
  eexists. split; [exact Hrun|]. cbn [heap world_blocks]. split.
  - rewrite lookup_insert_ne by done. apply lookup_singleton_eq.
  - by rewrite !lookup_insert_eq.
Qed.

(** * Further properties of the operations *)

(** ** Moving an element up by swaps *)

Lemma swap_list_comm {A} (i j : nat) (l : list A) :
  swap_list i j l = swap_list j i l.
Proof.
  unfold swap_list. destruct (decide (i = j)) as [->|Hne]; [done|].
  destruct (l !! i) as [a|] eqn:Hi, (l !! j) as [b|] eqn:Hj; try done.
  by rewrite list_insert_insert_ne.
Qed.

(** Bubbling the element behind [post] down to the front of [post]. *)
Lemma bubble_list_blocks {A} (post : list A) : forall (pre suf : list A) (v : A),
  bubble_list (length post) (length pre + length post) (pre ++ post ++ v :: suf)
  = pre ++ v :: post ++ suf.
Proof.
  induction post as [|y post IH] using rev_ind; intros pre suf v; [done|].
  rewrite length_app. cbn [length]. rewrite Nat.add_1_r. cbn [bubble_list].
  replace (length pre + S (length post) - 1)%nat
    with (length pre + length post)%nat by lia.
  rewrite swap_list_comm.
  replace (pre ++ (post ++ [y]) ++ v :: suf)
    with ((pre ++ post) ++ y :: [] ++ v :: suf)
    by (by rewrite <- !app_assoc).
  replace (length pre + length post)%nat with (length (pre ++ post))
    by (by rewrite length_app).
  replace (length pre + S (length post))%nat
    with (length (pre ++ post) + S (length (@nil A)))%nat
    by (rewrite length_app; simpl; lia).
  rewrite swap_list_split. cbn [app]. rewrite <- app_assoc.
  rewrite length_app. rewrite (IH pre (y :: suf) v).
  by rewrite <- app_assoc.
Qed.

Lemma bubble_list_insert {A} (l : list A) (p : nat) (v : A) :
  (p <= length l)%nat ->
  bubble_list (length l - p) (length l) (l ++ [v]) = take p l ++ v :: drop p l.
Proof.
  intros Hp.
  pose proof (bubble_list_blocks (drop p l) (take p l) [] v) as H.
  rewrite length_drop, length_take in H.
  replace (p `min` length l + (length l - p))%nat with (length l) in H by lia.
  rewrite app_nil_r in H. rewrite <- H. f_equal.
  by rewrite app_assoc, take_drop.
Qed.

Section MoreOperations.
Context {T : Type} {elem : Element T} {alloc : Allocator}.
Implicit Types (w : world T) (l : list T).
Implicit Types (h : gmap nat (list (option T))) (vs : gmap nat vec).

Hypothesis sizeof_pos : 0 < @sizeofT T _.

(** The loop of [insert], with [m] swaps left and the moving element at
    index [i]. *)
Lemma wpg_insert_loop ub this b cap rest h vs a c
    (Q : unit -> world T -> Prop) (E : world T -> Prop) (len : nat) :
  forall (m : nat) (cur : list T) (i : nat) (s : Z),
  vs !! this = Some (Vec (Ptr b 0) (Z.of_nat len) cap) ->
  length cur = len ->
  (i < len)%nat -> (m <= i)%nat ->
  Z.of_nat len < 2 ^ 64 ->
  (forall k x y cur' s', swap_throws k x y <> None ->
     s <= k < s + Z.of_nat m ->
     length cur' = len ->
     E (World (<[b := (Some <$> cur') ++ rest]> h) vs a c s')) ->
  Q tt (World (<[b := (Some <$> bubble_list m i cur) ++ rest]> h)
              vs a c (s + Z.of_nat m)) ->
  wpg ub (iterate m (fun i => wrap (i - 1)) (Z.of_nat i)
                  (fun i => swap_elems this i (wrap (i - 1)))) Q E
      (World (<[b := (Some <$> cur) ++ rest]> h) vs a c s).
Proof.
  induction m as [|m IH]; intros cur i s Hv Hcur Hi Hm Hlen HE HQ; cbn [iterate].
  - rewrite wpg_ret. cbn [bubble_list] in HQ. by rewrite Z.add_0_r in HQ.
  - rewrite wpg_bind. unfold swap_elems at 1.
    rewrite (wpg_get_vec _ _ _ _ _ _ _ _ _ _ _ Hv). cbn [data_].
    rewrite wpg_bind, ptr_add_block, wpg_of_option_some.
    rewrite wpg_bind, ptr_add_block, wpg_of_option_some.
    replace (wrap (Z.of_nat i - 1)) with (Z.of_nat (i - 1))
      by (rewrite wrap_small; lia).
    apply wpg_swap_at; [lia|lia| |].
    + intros x y Hsw. apply IH; try done; try lia.
      * by rewrite swap_list_length.
      * intros k x' y' cur' s' Hth Hk Hl. apply (HE k x' y'); [done|lia|done].
      * cbn [bubble_list] in HQ.
        by replace (s + 1 + Z.of_nat m) with (s + Z.of_nat (S m)) by lia.
    + intros x y cur' Hth Hl. apply (HE s x y); [done|lia|lia].
Qed.

Lemma ptr_diff_add (d pos : ptr) (k : Z) :
  ptr_add d k = Some pos -> ptr_diff pos d = Some k.
Proof.
  destruct d as [|b off]; cbn.
  - case_decide; [|done]. intros [= <-]. by subst.
  - intros [= <-]. cbn. rewrite decide_True by done. f_equal. lia.
Qed.

Lemma wpg_bind_ok {A B} ub (m : M T A) (k : A -> M T B) (a : A)
    (Q : B -> world T -> Prop) (E : world T -> Prop) w w' :
  m w = Ok a w' ->
  wpg ub (bind m k) Q E w = wpg ub (k a) Q E w'.
Proof. intros H. unfold wpg, bind. by rewrite H. Qed.

(** What the observers return on a vector that holds [l]. *)
Lemma owns_observers w this l cap :
  owns w this l cap ->
  exists d,
    buffer_of w this = Some d /\
    begin this w = Ok d w /\
    end_ this w = (of_option (ptr_add d (Z.of_nat (length l)))) w /\
    size this w = Ok (Z.of_nat (length l)) w /\
    capacity this w = Ok cap w /\
    empty this w = Ok (bool_decide (l = [])) w.
Proof.
  intros Ho. destruct (owns_inv _ _ _ _ Ho) as (d & Hv & _).
  exists d. unfold buffer_of, begin, end_, size, capacity, empty, bind, get_vec.
  rewrite Hv. cbn. repeat split; try done.
  unfold ret. f_equal. apply bool_decide_ext.
  destruct l; [done|]. split; [cbn; lia|done].
Qed.

(** [insert(pos, v)] at position [p] of a vector that holds [l]. *)
Lemma wpg_insert ub w this l cap d (p : nat) (pos : ptr) (v : T) :
  owns w this l cap ->
  buffer_of w this = Some d ->
  (p <= length l)%nat ->
  ptr_add d (Z.of_nat p) = Some pos ->
  let full := bool_decide (Z.of_nat (length l) = cap) in
  let nc := if full then grown cap else cap in
  (ub \/ if full then nc <> 0 /\ (length l < slots_for nc)%nat
         else (length l < room_of w this)%nat) ->
  wpg ub (insert this pos v)
    (fun r w' =>
       owns w' this (take p l ++ v :: drop p l) nc /\
       exists d', buffer_of w' this = Some d' /\
                  ptr_add d' (Z.of_nat p) = Some r)
    (fun w' =>
       (copy_or_alloc_throws /\ (owns w' this l cap \/ owns w' this l nc)) \/
       (swap_may_throw /\
        exists l', length l' = S (length l) /\ owns w' this l' nc))
    w.
Proof.
  intros Ho Hd Hp Hpos full nc Hfit.
  destruct (owns_observers _ _ _ _ Ho) as (d0 & Hd0 & Hbegin & _).
  rewrite Hd in Hd0. injection Hd0 as <-.
  unfold insert. rewrite (wpg_bind_ok _ _ _ _ _ _ _ _ Hbegin).
  rewrite (ptr_diff_add _ _ _ Hpos), wpg_bind, wpg_of_option_some.
  assert (Hlen64 : Z.of_nat (length l) < 2 ^ 64).
  { destruct (owns_inv _ _ _ _ Ho) as (? & _ & ? & _ & _ & _ & ?). lia. }
  rewrite wrap_small by lia. rewrite wpg_bind.
  eapply wpg_mono; [apply (wpg_push_back sizeof_pos ub w this l cap v Ho Hfit)|done| |].
  2: { intros w' [(Hth & Hh & Hvs)|[(_ & _ & Hf & Hh & Hvs)|(_ & _ & _ & _ & Hth & Ho' & _)]].
       - left. split; [left; eauto|]. left. by apply (owns_ext w).
       - left. split; [|left; by apply (owns_ext w)].
         destruct Hf as [?|(k & x & _ & ?)]; [right|left]; eauto.
       - left. split; [left; eauto|]. by right. }
  intros [] w1 (Ho1 & _). cbv beta. fold full nc in Ho1 |- *.
  destruct (owns_inv _ _ _ _ Ho1) as (d1 & Hv1 & Hcap1 & Hc1 & Hroom1 & _ & Hlen1).
  destruct w1 as [h1 vs1 a1 c1 s1]. cbn [heap vecs] in *.
  rewrite (wpg_get_vec _ _ _ _ _ _ _ _ _ _ _ Hv1). cbn [size_].
  destruct d1 as [|b off]; [by destruct l|].
  destruct Hc1 as (-> & rest & Hb). cbn [room] in Hroom1.
  rewrite Hb in Hroom1. cbn in Hroom1.
  rewrite length_app, length_fmap in Hroom1.
  rewrite length_app in Hv1, Hlen1, Hroom1 |- *. cbn [length] in *.
  replace (Z.to_nat (wrap (Z.of_nat (length l + 1) - 1 - Z.of_nat p)))
    with (length l - p)%nat by (rewrite wrap_small; lia).
  replace (wrap (Z.of_nat (length l + 1) - 1)) with (Z.of_nat (length l))
    by (rewrite wrap_small; lia).
  rewrite wpg_bind. rewrite <- (insert_id h1 b _ Hb).
  apply wpg_insert_loop with (len := (length l + 1)%nat) (cap := nc);
    try done; try lia.
  - rewrite length_app. simpl. lia.
  - intros k x y cur' s' Hth Hk Hl. right. split; [by exists k, x, y|].
    exists cur'. split; [lia|].
    apply owns_block; [by rewrite Hl|done|lia].
  - rewrite (bubble_list_insert l p v Hp).
    assert (Hl : length (take p l ++ v :: drop p l) = (length l + 1)%nat).
    { rewrite length_app, length_take. cbn [length]. rewrite length_drop. lia. }
    unfold begin. rewrite wpg_bind, (wpg_get_vec _ _ _ _ _ _ _ _ _ _ _ Hv1).
    rewrite wpg_ret. cbn [data_]. rewrite ptr_add_block, wpg_of_option_some.
    split.
    + apply owns_block; [by rewrite Hl|done|lia].
    + exists (Ptr b 0). unfold buffer_of. cbn [vecs]. by rewrite Hv1.
Qed.

(** [push_back] on an explicit state, with the state it leaves in each
    of its outcomes. *)
Lemma wpg_push_back_rule ub this d cap l (v : T) h vs a c s
    (Q : unit -> world T -> Prop) (E : world T -> Prop) :
  vs !! this = Some (Vec d (Z.of_nat (length l)) cap) ->
  content h d l ->
  0 <= cap < 2 ^ 64 ->
  Z.of_nat (length l) <= cap ->
  (d = Null -> cap = 0) ->
  (ub \/ if bool_decide (Z.of_nat (length l) = cap)
         then grown cap <> 0 /\ (length l < slots_for (grown cap))%nat
         else (length l < room h d)%nat) ->
  (copy_throws c v = true -> E (World h vs a (c + 1) s)) ->
  (Z.of_nat (length l) <> cap -> copy_throws c v = false ->
   forall b x rest,
     d = Ptr b 0 -> h !! b = Some ((Some <$> l) ++ x :: rest) ->
     Q tt (World (<[b := (Some <$> (l ++ [v])) ++ rest]> h)
                 (<[this := Vec (Ptr b 0) (Z.of_nat (length l) + 1) cap]> vs)
                 a (c + 1) s)) ->
  (Z.of_nat (length l) = cap -> copy_throws c v = false ->
   alloc_throws a (wrap (grown cap * @sizeofT T _)) = true \/
   copy_fails (c + 1) l ->
   forall c', E (World h vs (a + 1) c' s)) ->
  (Z.of_nat (length l) = cap -> copy_throws c v = false ->
   alloc_throws a (wrap (grown cap * @sizeofT T _)) = false ->
   copies_ok (c + 1) l ->
   forall b m,
     h !! b = None ->
     (slots_for (grown cap) - length l)%nat = S m ->
     (copy_throws (c + 1 + Z.of_nat (length l)) v = true ->
      E (World (<[b := (Some <$> l) ++ replicate (S m) None]> (release d h))
               (<[this := Vec (Ptr b 0) (Z.of_nat (length l)) (grown cap)]> vs)
               (a + 1) (c + 1 + Z.of_nat (length l) + 1) s)) /\
     (copy_throws (c + 1 + Z.of_nat (length l)) v = false ->
      Q tt (World (<[b := (Some <$> (l ++ [v])) ++ replicate m None]> (release d h))
                  (<[this := Vec (Ptr b 0) (Z.of_nat (length l) + 1) (grown cap)]> vs)
                  (a + 1) (c + 1 + Z.of_nat (length l) + 1) s))) ->
  wpg ub (push_back this v) Q E (World h vs a c s).
Proof.
  intros Hv Hc Hcap Hlen Hnull Hfit HEcopy HQspare HErealloc Hfull.
  unfold push_back. rewrite (wpg_get_vec _ _ _ _ _ _ _ _ _ _ _ Hv).
  cbn [size_ capacity_ data_].
  destruct (decide (Z.of_nat (length l) <> cap)) as [Hne|Heq].
  - rewrite bool_decide_eq_false_2 in Hfit by done.
    destruct d as [|b off]; [specialize (Hnull eq_refl); lia|].
    destruct Hc as (-> & rest & Hb). cbn [room] in Hfit. rewrite Hb in Hfit.
    cbn in Hfit. rewrite length_app, length_fmap in Hfit.
    rewrite wpg_bind, ptr_add_block, wpg_of_option_some, wpg_bind.
    unfold wpg at 1. unfold construct_at.
    rewrite (slot_block _ _ _ _ _ _ _ _ Hb).
    rewrite lookup_app_r by (rewrite length_fmap; lia).
    rewrite length_fmap, Nat.sub_diag.
    destruct rest as [|x rest]; cbn [lookup list_lookup].
    { destruct Hfit as [?|?]; [done|simpl in *; lia]. }
    cbn [copies heap vecs allocs swaps].
    destruct (copy_throws c v) eqn:Hthrow; [by apply HEcopy|].
    rewrite (write_block _ _ _ _ _ _ _ _ _ Hb).
    rewrite (wpg_set_size _ _ _ _ _ _ _ _ _ _ _ Hv). cbn [data_ capacity_].
    rewrite insert_at_end. rewrite wrap_small by lia.
    by apply (HQspare Hne eq_refl b x rest).
  - assert (Hfull' : Z.of_nat (length l) = cap)
      by (destruct (decide (Z.of_nat (length l) = cap)); [done|contradiction]).
    rewrite bool_decide_eq_true_2 in Hfit by done.
    unfold push_back_realloc. rewrite wpg_bind.
    unfold wpg at 1. unfold copy_local. cbn [copies heap vecs allocs swaps].
    destruct (copy_throws c v) eqn:Hthrow; [by apply HEcopy|].
    rewrite (wpg_get_vec _ _ _ _ _ _ _ _ _ _ _ Hv), wpg_bind.
    change (increase_capacity (Vec d (Z.of_nat (length l)) cap)) with (grown cap).
    eapply wpg_new_buffer; try done.
    + lia.
    + destruct Hfit as [?|[? ?]]; [by left|right; right; lia].
    + intros _ Ha. apply (HErealloc Hfull' eq_refl). by left.
    + intros _ Ha k x Hx Hk Hok Hth.
      apply (HErealloc Hfull' eq_refl). right. by exists k, x.
    + intros Hnc Ha Hok Hle b Hb.
      set (blk := (Some <$> l) ++ replicate (slots_for (grown cap) - length l) None).
      rewrite (wpg_get_vec _ _ (Vec (Ptr b 0) (Z.of_nat (length l)) (grown cap)))
        by apply lookup_insert_eq.
      cbn [data_ size_].
      rewrite wpg_bind, ptr_add_block, wpg_of_option_some, wpg_bind.
      unfold wpg at 1. unfold construct_at.
      rewrite (slot_block _ _ _ _ _ b blk) by apply lookup_insert_eq.
      unfold blk at 1. rewrite lookup_app_r by (rewrite length_fmap; lia).
      rewrite length_fmap, Nat.sub_diag.
      destruct (slots_for (grown cap) - length l)%nat as [|m] eqn:Hm;
        cbn [replicate lookup list_lookup].
      { destruct Hfit as [?|[? ?]]; [done|lia]. }
      cbn [copies heap vecs allocs swaps].
      pose proof (wrap_range (cap * 2)) as Hw.
      assert (Hgr : 0 <= grown cap < 2 ^ 64).
      { unfold grown. destruct (decide (cap = 0)); lia. }
      pose proof (slots_for_le sizeof_pos (grown cap) ltac:(lia)) as Hsl.
      destruct (Hfull Hfull' eq_refl Ha Hok b m Hb eq_refl) as [HE' HQ'].
      destruct (copy_throws (c + 1 + Z.of_nat (length l)) v) eqn:Hth2.
      { by apply HE'. }
      rewrite (write_block _ _ _ _ _ b blk) by apply lookup_insert_eq.
      rewrite (wpg_set_size _ _ (Vec (Ptr b 0) (Z.of_nat (length l)) (grown cap)))
        by apply lookup_insert_eq.
      cbn [data_ capacity_]. rewrite !insert_insert_eq.
      unfold blk. cbn [replicate]. rewrite insert_at_end.
      rewrite wrap_small by lia. by apply HQ'.
    + intros Hz. change Null with (data_ (Vec Null 0 0)).
      rewrite (wpg_get_vec _ _ (Vec Null 0 0)) by apply lookup_insert_eq.
      cbn [data_ size_]. unfold wpg. cbn.
      destruct Hfit as [?|[? ?]]; [done|contradiction].
Qed.

(** Whether a vector owns its elements depends on its members and on
    the block of its buffer only. *)
Lemma owns_frame w w' other l cap :
  owns w other l cap ->
  vecs w' !! other = vecs w !! other ->
  (forall b off, buffer_of w other = Some (Ptr b off) ->
                 heap w' !! b = heap w !! b) ->
  owns w' other l cap.
Proof.
  intros (v & Hv & Hsz & Hcap & Hr & Hc & Hroom & Hnull) Hvs Hh.
  exists v. rewrite Hvs. split; [done|]. split; [done|]. split; [done|].
  split; [done|].
  destruct (data_ v) as [|b off] eqn:Hd; [done|].
  assert (Hb : heap w' !! b = heap w !! b).
  { apply (Hh b off). unfold buffer_of. rewrite Hv. cbn. by rewrite Hd. }
  cbn [content room] in *. by rewrite Hb.
Qed.

(** [pop_back] on a vector that holds [l ++ [y]]. *)
Lemma wpg_pop_back_owns ub w this l (y : T) cap :
  owns w this (l ++ [y]) cap ->
  wpg ub (pop_back this)
    (fun _ w' =>
       owns w' this l cap /\
       buffer_of w' this = buffer_of w this /\
       allocs w' = allocs w /\ copies w' = copies w /\ swaps w' = swaps w)
    (fun _ => False) w.
Proof.
  intros Ho.
  destruct (owns_inv _ _ _ _ Ho) as (d & Hv & Hcap & Hc & Hroom & _ & Hlen).
  destruct w as [h vs a c s]. cbn [heap vecs allocs copies swaps] in *.
  destruct d as [|b off]; [by destruct l|].
  destruct Hc as (-> & rest & Hb). cbn [room] in Hroom. rewrite Hb in Hroom.
  cbn in Hroom. rewrite length_app, length_fmap in Hroom.
  rewrite <- (insert_id h b _ Hb), <- (insert_id vs this _ Hv).
  apply wpg_pop_back; [lia|].
  rewrite !length_app in Hroom. cbn [length] in Hroom.
  split; [apply owns_buffer; [done|cbn [length]; lia]|].
  unfold buffer_of. cbn [vecs]. rewrite !lookup_insert_eq. done.
Qed.

(** [pop_back] on an empty vector: the index [size_ - 1] wraps around
    to the largest [size_t] and lies in no block. *)
Lemma pop_back_on_empty w this cap :
  owns w this [] cap -> pop_back this w = UB.
Proof.
  intros Ho.
  destruct (owns_inv _ _ _ _ Ho) as (d & Hv & Hcap & Hc & Hroom & _ & Hlen).
  unfold pop_back, bind, get_vec. rewrite Hv. cbn [data_ size_ length].
  change (wrap (Z.of_nat 0 - 1)) with (2 ^ 64 - 1).
  destruct d as [|b off]; [done|].
  destruct Hc as (-> & rest & Hb). cbn [ptr_add of_option ret].
  unfold destroy_at, slot. rewrite decide_True by done. rewrite Hb. cbn.
  cbn [room] in Hroom. rewrite Hb in Hroom. cbn in Hroom.
  rewrite lookup_ge_None_2; [done|]. lia.
Qed.

(** X23.  [pop_back] is defined on the non-empty vectors only: on a
    vector that owns its elements it has undefined behaviour exactly
    when the vector is empty, whether the vector has a buffer or not. *)
Theorem pop_back_empty_undefined w this l cap :
  owns w this l cap ->
  l = [] <-> pop_back this w = UB.
Proof.
  intros Ho. split.
  - intros ->. by apply (pop_back_on_empty w this cap).
  - intros Hub. destruct l as [|y l _] using rev_ind; [done|].
    destruct (wpg_returns _ _ _ (wpg_pop_back_owns False w this l y cap Ho))
      as ([] & w' & Hrun & _).
    congruence.
Qed.

(** [clear] on a vector that holds [l]. *)
Lemma wpg_clear ub w this l cap :
  owns w this l cap ->
  wpg ub (clear this)
    (fun _ w' =>
       owns w' this [] cap /\
       buffer_of w' this = buffer_of w this /\
       room_of w' this = room_of w this /\
       allocs w' = allocs w /\ copies w' = copies w /\ swaps w' = swaps w /\
       (Z.of_nat (length l) < 2 ^ 31 ->
        forall b off sl, buffer_of w' this = Some (Ptr b off) ->
          heap w' !! b = Some sl ->
          forall i, (i < length l)%nat -> sl !! i = Some None))
    (fun _ => False) w.
Proof.
  intros Ho.
  destruct (owns_inv _ _ _ _ Ho) as (d & Hv & Hcap & Hc & Hroom & Hnull & Hlen).
  destruct w as [h vs a c s]. cbn [heap vecs allocs copies swaps] in *.
  unfold clear. rewrite (wpg_get_vec _ _ _ _ _ _ _ _ _ _ _ Hv).
  cbn [data_ size_]. rewrite wpg_bind.
  pose proof (to_int_le (Z.of_nat (length l)) ltac:(lia)) as Hle.
  destruct d as [|b off].
  - cbn in Hc. subst l. unfold wpg at 1.
    rewrite destroy_all_nothing by (vm_compute; congruence).
    rewrite (wpg_set_size _ _ _ _ _ _ _ _ _ _ _ Hv). cbn [data_ capacity_].
    split; [|split; [|split]].
    + eexists. split; [apply lookup_insert_eq|]. cbn. repeat split; try done; lia.
    + unfold buffer_of. cbn. by rewrite lookup_insert_eq, Hv.
    + unfold room_of. cbn. by rewrite lookup_insert_eq, Hv.
    + repeat split; try done. intros _ b off sl Hbuf.
      unfold buffer_of in Hbuf. cbn in Hbuf.
      by rewrite lookup_insert_eq in Hbuf.
  - destruct Hc as (-> & rest & Hb). cbn [room] in Hroom. rewrite Hb in Hroom.
    cbn in Hroom. rewrite length_app, length_fmap in Hroom.
    remember (Z.to_nat (to_int (Z.of_nat (length l)))) as k eqn:Hk.
    apply wpg_destroy_all with (sl := (Some <$> l) ++ rest); [exact Hb| |].
    { intros i Hi. destruct (lookup_lt_is_Some_2 l i ltac:(lia)) as [x Hx].
      exists x. by apply lookup_fmap_app. }
    rewrite (wpg_set_size _ _ _ _ _ _ _ _ _ _ _ Hv). cbn [data_ capacity_].
    rewrite <- Hk.
    assert (Hlenblk : length (replicate k (@None T) ++ drop k ((Some <$> l) ++ rest))
                      = (length l + length rest)%nat).
    { rewrite length_app, length_replicate, length_drop, length_app, length_fmap.
      lia. }
    split; [|split; [|split]].
    + eexists. split; [apply lookup_insert_eq|].
      cbn [heap data_ size_ capacity_ content room length].
      rewrite lookup_insert_eq. cbn. rewrite Hlenblk.
      repeat split; try done; try lia. by eexists.
    + unfold buffer_of. cbn. by rewrite lookup_insert_eq, Hv.
    + unfold room_of. cbn. rewrite lookup_insert_eq, Hv. cbn.
      rewrite lookup_insert_eq, Hb. cbn.
      rewrite Hlenblk. by rewrite length_app, length_fmap.
    + repeat split; try done. intros H31 b' off' sl Hbuf Hsl i Hi.
      unfold buffer_of in Hbuf. cbn in Hbuf.
      rewrite lookup_insert_eq in Hbuf. cbn in Hbuf. injection Hbuf as <- <-.
      cbn in Hsl. rewrite lookup_insert_eq in Hsl. injection Hsl as <-.
      assert (k = length l) as ->.
      { rewrite Hk, to_int_small by lia. lia. }
      rewrite lookup_app_l by (rewrite length_replicate; lia).
      by apply lookup_replicate_2.
Qed.

(** [vector(vector const& other)] on an explicit state: it throws when
    the allocation or the copy of an element throws, memory and
    objects being then as before; otherwise the new object has a
    buffer of its own that holds the elements of [other]. *)
Lemma wpg_vector_copy ub this other d cp l h vs a c s
    (Q : unit -> world T -> Prop) (E : world T -> Prop) :
  vs !! other = Some (Vec d (Z.of_nat (length l)) cp) ->
  Z.of_nat (length l) < 2 ^ 64 ->
  content h d l ->
  (ub \/ (length l <= slots_for cp)%nat) ->
  (alloc_throws a (wrap (cp * @sizeofT T _)) = true ->
   E (World h vs (a + 1) c s)) ->
  (alloc_throws a (wrap (cp * @sizeofT T _)) = false ->
   forall k x,
     l !! k = Some x ->
     copy_throws (c + Z.of_nat k) x = true ->
     E (World h vs (a + 1) (c + Z.of_nat k + 1) s)) ->
  (alloc_throws a (wrap (cp * @sizeofT T _)) = false ->
   copies_ok c l ->
   (length l <= slots_for cp)%nat ->
   forall b, h !! b = None ->
     Q tt (World (<[b := (Some <$> l)
                         ++ replicate (slots_for cp - length l) None]> h)
                 (<[this := Vec (Ptr b 0) (Z.of_nat (length l)) cp]> vs)
                 (a + 1) (c + Z.of_nat (length l)) s)) ->
  wpg ub (vector_copy this other) Q E (World h vs a c s).
Proof.
  intros Hv Hsz Hc Hfit HEa HEc HQ. unfold vector_copy.
  rewrite (wpg_get_vec _ _ _ _ _ _ _ _ _ _ _ Hv). cbn [data_ size_ capacity_].
  rewrite wpg_bind. apply wpg_operator_new; [exact HEa|].
  intros Ha b Hb. rewrite wpg_bind, wpg_catch.
  apply wpg_copy_from with (sd := replicate (slots_for cp) None).
  - by apply content_insert_ne.
  - intros off ->. destruct Hc as (_ & rest & Hb'). congruence.
  - apply lookup_insert_eq.
  - exact Hsz.
  - rewrite length_replicate. exact Hfit.
  - rewrite length_replicate. intros Hok Hle.
    rewrite insert_insert_eq, drop_replicate, wpg_set_vec.
    by apply HQ.
  - rewrite length_replicate. intros k x Hx Hk Hok Hthrow.
    rewrite insert_insert_eq.
    eapply (wpg_operator_delete _ (Ptr b 0) []).
    { split; [done|]. eexists. simpl. apply lookup_insert_eq. }
    cbn [release]. rewrite delete_insert_id by done.
    by apply (HEc Ha k x).
Qed.

(** [operator=] between two different objects, on an explicit state. *)
Lemma wpg_assign ub this other d1 d2 cp1 cp2 l1 l2 h vs a c s
    (Q : unit -> world T -> Prop) (E : world T -> Prop) :
  this <> other ->
  vs !! this = Some (Vec d1 (Z.of_nat (length l1)) cp1) ->
  vs !! other = Some (Vec d2 (Z.of_nat (length l2)) cp2) ->
  content h d1 l1 ->
  content h d2 l2 ->
  Z.of_nat (length l2) < 2 ^ 64 ->
  (ub \/ (length l2 <= slots_for cp2)%nat) ->
  (alloc_throws a (wrap (cp2 * @sizeofT T _)) = true \/ copy_fails c l2 ->
   forall c', E (World h vs (a + 1) c' s)) ->
  (alloc_throws a (wrap (cp2 * @sizeofT T _)) = false ->
   copies_ok c l2 ->
   (length l2 <= slots_for cp2)%nat ->
   forall b, h !! b = None ->
     Q tt (World (<[b := (Some <$> l2)
                         ++ replicate (slots_for cp2 - length l2) None]>
                    (release d1 h))
                 (<[this := Vec (Ptr b 0) (Z.of_nat (length l2)) cp2]> vs)
                 (a + 1) (c + Z.of_nat (length l2)) s)) ->
  wpg ub (assign this other) Q E (World h vs a c s).
Proof.
  intros Hne H1 H2 Hc1 Hc2 Hsz Hfit HE HQ. unfold assign.
  rewrite decide_False by done.
  rewrite wpg_bind. apply wpg_new_address. intros tmp Htmp.
  assert (Hn1 : tmp <> this) by congruence.
  assert (Hn2 : tmp <> other) by congruence.
  rewrite wpg_bind.
  apply (wpg_vector_copy _ tmp other d2 cp2 l2); try done.
  - intros Ha. apply HE. by left.
  - intros Ha k x Hx Hth. apply HE. right. by exists k, x.
  - intros Ha Hok Hle b Hb.
    rewrite wpg_finally.
    rewrite (wpg_swap _ _ _ (Vec d1 (Z.of_nat (length l1)) cp1)
                      (Vec (Ptr b 0) (Z.of_nat (length l2)) cp2))
      by (by rewrite ?lookup_insert_eq, ?lookup_insert_ne).
    cbn [data_ size_ capacity_].
    apply (wpg_vector_dtor _ tmp d1 (Z.of_nat (length l1)) cp1 l1);
      [apply lookup_insert_eq|done|by apply content_insert_ne|].
    rewrite (release_insert_ne _ _ _ _ l1) by done.
    rewrite delete_insert_eq, delete_insert_ne by done.
    rewrite delete_insert_id by done.
    by apply HQ.
Qed.

(** A buffer that is apart from a released one keeps its content. *)
Lemma content_release h d1 d2 l :
  apart d1 d2 -> content h d2 l -> content (release d1 h) d2 l.
Proof.
  destruct d1 as [|b1 o1], d2 as [|b2 o2]; try done. cbn.
  intros Hne (-> & rest & Hb). split; [done|]. exists rest.
  by rewrite lookup_delete_ne.
Qed.

Lemma room_release h d1 d2 :
  apart d1 d2 -> room (release d1 h) d2 = room h d2.
Proof.
  destruct d1 as [|b1 o1], d2 as [|b2 o2]; try done. cbn.
  intros Hne. by rewrite lookup_delete_ne.
Qed.

Lemma room_insert_ne h b sl d l :
  h !! b = None -> content h d l -> room (<[b := sl]> h) d = room h d.
Proof.
  intros Hb. destruct d as [|b' off]; [done|].
  intros (_ & rest & Hb'). cbn. rewrite lookup_insert_ne; [done|].
  intros ->. congruence.
Qed.

(** A vector is not affected by the allocation of a block, the release
    of a buffer apart from its own, or changes to other objects. *)
Lemma owns_other h h' vs vs' a c s a' c' s' other l cap d :
  owns (World h vs a c s) other l cap ->
  vs !! other = Some (Vec d (Z.of_nat (length l)) cap) ->
  vs' !! other = vs !! other ->
  content h' d l ->
  room h' d = room h d ->
  owns (World h' vs' a' c' s') other l cap.
Proof.
  intros (v & Hv & Hsz & Hcap & Hr & Hc & Hroom & Hnull) Hv' Hvs Hc' Hroom'.
  cbn [vecs heap] in *. rewrite Hv' in Hv. injection Hv as <-.
  exists (Vec d (Z.of_nat (length l)) cap). cbn [vecs heap data_ size_ capacity_] in *.
  rewrite Hvs, Hv', Hroom'. done.
Qed.

Lemma content_insert_apart h b off sl d l :
  apart (Ptr b off) d -> content h d l -> content (<[b := sl]> h) d l.
Proof.
  destruct d as [|b' off']; [done|]. cbn.
  intros Hne (-> & rest & Hb). split; [done|]. exists rest.
  by rewrite lookup_insert_ne.
Qed.

Lemma room_insert_apart h b off sl d :
  apart (Ptr b off) d -> room (<[b := sl]> h) d = room h d.
Proof.
  destruct d as [|b' off']; [done|]. cbn.
  intros Hne. by rewrite lookup_insert_ne.
Qed.

Lemma release_fresh h d b : h !! b = None -> release d h !! b = None.
Proof.
  intros Hb. destruct d as [|b' off]; [done|]. cbn.
  apply lookup_delete_None. by right.
Qed.

Lemma buffer_of_lookup w this d sz cp :
  vecs w !! this = Some (Vec d sz cp) -> buffer_of w this = Some d.
Proof. intros H. unfold buffer_of. by rewrite H. Qed.

Lemma owns_buffer_of w this l cap d :
  owns w this l cap -> buffer_of w this = Some d ->
  vecs w !! this = Some (Vec d (Z.of_nat (length l)) cap) /\
  0 <= cap < 2 ^ 64 /\
  content (heap w) d l /\
  Z.of_nat (room (heap w) d) <= cap /\
  (d = Null -> cap = 0) /\
  Z.of_nat (length l) <= cap.
Proof.
  intros Ho Hd. destruct (owns_inv _ _ _ _ Ho) as (d' & Hv & H).
  rewrite (buffer_of_lookup _ _ _ _ _ Hv) in Hd. injection Hd as ->. done.
Qed.

(** ** Construction, assignment and destruction *)

(** X1.  The copy constructor makes a deep copy.  When
    [vector(other)] returns, the new vector holds the elements of
    [other] with the capacity of [other], in a block that did not exist
    before, so that the two vectors share no memory; every block that
    existed is as it was, and [other] still holds its elements.  When
    it throws, memory and objects are as before the call.  It returns
    when the byte count is representable and neither the allocation
    nor the copy of an element throws. *)
Theorem copy_constructor_deep_copy w this other l cap :
  owns w other l cap ->
  this <> other ->
  (forall w', vector_copy this other w = Ok tt w' ->
     owns w' this l cap /\ owns w' other l cap /\
     (exists b, buffer_of w' this = Some (Ptr b 0) /\ heap w !! b = None) /\
     (forall b sl, heap w !! b = Some sl -> heap w' !! b = Some sl)) /\
  (forall w', vector_copy this other w = Throw w' ->
     heap w' = heap w /\ vecs w' = vecs w) /\
  (cap * @sizeofT T _ < 2 ^ 64 ->
   alloc_throws (allocs w) (wrap (cap * @sizeofT T _)) = false ->
   copies_ok (copies w) l ->
   exists w', vector_copy this other w = Ok tt w').
Proof.
  intros Ho Hne.
  destruct (owns_inv _ _ _ _ Ho) as (d & Hv & Hcap & Hc & Hroom & Hnull & Hlen).
  assert (H : forall ub : Prop, (ub \/ (length l <= slots_for cap)%nat) ->
    wpg ub (vector_copy this other)
      (fun _ w' =>
         owns w' this l cap /\ owns w' other l cap /\
         (exists b, buffer_of w' this = Some (Ptr b 0) /\ heap w !! b = None) /\
         (forall b sl, heap w !! b = Some sl -> heap w' !! b = Some sl))
      (fun w' =>
         (heap w' = heap w /\ vecs w' = vecs w) /\
         (alloc_throws (allocs w) (wrap (cap * @sizeofT T _)) = true \/
          copy_fails (copies w) l)) w).
  { intros ub Hfit. destruct w as [h vs a c s]. cbn [heap vecs allocs copies] in *.
    apply (wpg_vector_copy _ this other d cap l); try done; try lia.
    - intros Ha. cbn. auto.
    - intros Ha k x Hx Hth. cbn. split; [done|]. right. by exists k, x.
    - intros Ha Hok Hle b Hb.
      pose proof (slots_for_le sizeof_pos cap ltac:(lia)) as Hs.
      split; [|split; [|split]].
      + apply owns_buffer; [lia|]. rewrite length_replicate. lia.
      + apply (owns_other h _ vs _ a c s _ _ _ other l cap d Ho Hv).
        * by rewrite lookup_insert_ne.
        * by apply content_insert_ne.
        * by apply (room_insert_ne _ _ _ _ l).
      + exists b. split; [|done]. unfold buffer_of. cbn.
        by rewrite lookup_insert_eq.
      + intros b' sl Hb'. cbn. rewrite lookup_insert_ne; [done|].
        intros ->. congruence. }
  split; [|split].
  - intros w' Hrun. specialize (H True ltac:(by left)).
    apply wpg_partial in H as [H _]. by apply (H tt w').
  - intros w' Hrun. specialize (H True ltac:(by left)).
    apply wpg_partial in H as [_ H]. by destruct (H w' Hrun).
  - intros Hbytes Ha Hok.
    pose proof (slots_for_exact sizeof_pos cap ltac:(lia) Hbytes) as Hs.
    specialize (H False ltac:(right; lia)).
    apply wpg_total in H as [([] & w' & Hrun & _)|(w' & _ & _ & [Hf|Hf])].
    + by exists w'.
    + congruence.
    + destruct (copies_ok_not_fails _ _ Hok Hf).
Qed.

(** X2.  Assignment between two different vectors whose buffers are
    apart.  When [a = b] returns, [a] holds the elements of [b] with
    the capacity of [b], [b] is as it was, the former buffer of [a]
    has been released and no object has been added or removed.  When
    it throws, memory and objects are as before the call: the
    guarantee is strong.  It returns when the byte count is
    representable and neither the allocation nor the copy of an
    element throws. *)
Theorem assign_replaces_content w this other l1 cap1 l2 cap2 d1 d2 :
  owns w this l1 cap1 ->
  owns w other l2 cap2 ->
  buffer_of w this = Some d1 ->
  buffer_of w other = Some d2 ->
  this <> other ->
  apart d1 d2 ->
  (forall w', assign this other w = Ok tt w' ->
     owns w' this l2 cap2 /\ owns w' other l2 cap2 /\
     dom (vecs w') = dom (vecs w) /\
     (forall b off, d1 = Ptr b off -> heap w' !! b = None)) /\
  (forall w', assign this other w = Throw w' ->
     heap w' = heap w /\ vecs w' = vecs w) /\
  (cap2 * @sizeofT T _ < 2 ^ 64 ->
   alloc_throws (allocs w) (wrap (cap2 * @sizeofT T _)) = false ->
   copies_ok (copies w) l2 ->
   exists w', assign this other w = Ok tt w').
Proof.
  intros Ho1 Ho2 Hd1 Hd2 Hne Hap.
  destruct (owns_buffer_of _ _ _ _ _ Ho1 Hd1)
    as (Hv1 & Hcap1 & Hc1 & Hroom1 & Hnull1 & Hlen1).
  destruct (owns_buffer_of _ _ _ _ _ Ho2 Hd2)
    as (Hv2 & Hcap2 & Hc2 & Hroom2 & Hnull2 & Hlen2).
  assert (H : forall ub : Prop, (ub \/ (length l2 <= slots_for cap2)%nat) ->
    wpg ub (assign this other)
      (fun _ w' =>
         owns w' this l2 cap2 /\ owns w' other l2 cap2 /\
         dom (vecs w') = dom (vecs w) /\
         (forall b off, d1 = Ptr b off -> heap w' !! b = None))
      (fun w' =>
         (heap w' = heap w /\ vecs w' = vecs w) /\
         (alloc_throws (allocs w) (wrap (cap2 * @sizeofT T _)) = true \/
          copy_fails (copies w) l2)) w).
  { intros ub Hfit. destruct w as [h vs a c s]. cbn [heap vecs allocs copies] in *.
    apply (wpg_assign _ this other d1 d2 cap1 cap2 l1 l2); try done; try lia.
    intros Ha Hok Hle b Hb.
    pose proof (slots_for_le sizeof_pos cap2 ltac:(lia)) as Hs.
    split; [|split; [|split]].
    - apply owns_buffer; [lia|]. rewrite length_replicate. lia.
    - apply (owns_other h _ vs _ a c s _ _ _ other l2 cap2 d2 Ho2 Hv2).
      + by rewrite lookup_insert_ne.
      + apply content_insert_ne.
        * by apply release_fresh.
        * by apply content_release.
      + rewrite (room_insert_ne _ _ _ _ l2).
        * by apply room_release.
        * by apply release_fresh.
        * by apply content_release.
    - cbn. apply dom_insert_lookup_L. by rewrite Hv1.
    - intros b1 off ->. cbn. destruct Hc1 as (_ & rest & Hb1).
      rewrite lookup_insert_ne by congruence. apply lookup_delete_eq. }
  split; [|split].
  - intros w' Hrun. specialize (H True ltac:(by left)).
    apply wpg_partial in H as [H _]. by apply (H tt w').
  - intros w' Hrun. specialize (H True ltac:(by left)).
    apply wpg_partial in H as [_ H]. by destruct (H w' Hrun).
  - intros Hbytes Ha Hok.
    pose proof (slots_for_exact sizeof_pos cap2 ltac:(lia) Hbytes) as Hs.
    specialize (H False ltac:(right; lia)).
    apply wpg_total in H as [([] & w' & Hrun & _)|(w' & _ & _ & [Hf|Hf])].
    + by exists w'.
    + congruence.
    + destruct (copies_ok_not_fails _ _ Hok Hf).
Qed.

(** X3.  The destructor never throws on a vector that owns its
    elements: it returns, the object is gone, the block of its buffer
    is released, every other block and every other object is as it
    was, and neither the allocator, the copy constructor nor
    [std::swap] has been invoked. *)
Theorem destructor_releases w this l cap d :
  owns w this l cap ->
  buffer_of w this = Some d ->
  exists w',
    vector_dtor this w = Ok tt w' /\
    vecs w' = delete this (vecs w) /\
    heap w' = release d (heap w) /\
    allocs w' = allocs w /\ copies w' = copies w /\ swaps w' = swaps w.
Proof.
  intros Ho Hd.
  destruct (owns_buffer_of _ _ _ _ _ Ho Hd) as (Hv & Hcap & Hc & _).
  destruct w as [h vs a c s]. cbn [heap vecs allocs copies swaps] in *.
  destruct (wpg_returns (vector_dtor this)
              (fun _ w' => vecs w' = delete this vs /\ heap w' = release d h /\
                           allocs w' = a /\ copies w' = c /\ swaps w' = s)
              (World h vs a c s)) as ([] & w' & Hrun & H).
  { by apply (wpg_vector_dtor _ this d (Z.of_nat (length l)) cap l). }
  by exists w'.
Qed.

(** Reading a weakest precondition back as a run. *)
Lemma wpg_run_ok {A} (m : M T A) (a : A) w w' :
  wpg False m (fun x v => x = a /\ v = w') (fun _ => False) w -> m w = Ok a w'.
Proof.
  unfold wpg. destruct (m w) as [x v| |]; [|done|done]. by intros [-> ->].
Qed.



(** ** Exchanging two vectors *)

(** X5.  [swap] exchanges two vectors without touching an element:
    it returns, each vector then holds what the other held, with the
    other's capacity and in the other's buffer, the memory is as it
    was, and neither the allocator, the copy constructor nor
    [std::swap] on [T] has been invoked. *)
Theorem swap_exchanges w this other l1 cap1 l2 cap2 :
  owns w this l1 cap1 ->
  owns w other l2 cap2 ->
  exists w',
    swap this other w = Ok tt w' /\
    owns w' this l2 cap2 /\ owns w' other l1 cap1 /\
    buffer_of w' this = buffer_of w other /\
    buffer_of w' other = buffer_of w this /\
    heap w' = heap w /\
    allocs w' = allocs w /\ copies w' = copies w /\ swaps w' = swaps w.
Proof.
  intros Ho1 Ho2.
  destruct Ho1 as ([d1 s1 c1] & Hv1 & Ho1). destruct Ho2 as ([d2 s2 c2] & Hv2 & Ho2).
  destruct w as [h vs a c s]. cbn [heap vecs allocs copies swaps] in *.
  exists (World h (<[other := Vec d1 s1 c1]> (<[this := Vec d2 s2 c2]> vs)) a c s).
  split.
  { unfold swap, bind, get_vec, set_vec, set_vecs. cbn [vecs heap allocs copies swaps].
    rewrite Hv1. cbn [vecs]. by rewrite Hv2. }
  assert (Ha : (<[other := Vec d1 s1 c1]> (<[this := Vec d2 s2 c2]> vs)) !! this
               = Some (Vec d2 s2 c2)).
  { destruct (decide (this = other)) as [->|Hne].
    - rewrite Hv1 in Hv2. injection Hv2 as <- <- <-. apply lookup_insert_eq.
    - by rewrite lookup_insert_ne, lookup_insert_eq. }
  assert (Hb : (<[other := Vec d1 s1 c1]> (<[this := Vec d2 s2 c2]> vs)) !! other
               = Some (Vec d1 s1 c1)) by apply lookup_insert_eq.
  unfold buffer_of. cbn [heap vecs allocs copies swaps].
  rewrite Ha, Hb, Hv1, Hv2.
  split; [by exists (Vec d2 s2 c2)|].
  split; [by exists (Vec d1 s1 c1)|].
  done.
Qed.

(** X6.  Two successive [swap] of the same two vectors restore the
    state exactly. *)
Theorem swap_twice_identity w this other :
  is_Some (vecs w !! this) ->
  is_Some (vecs w !! other) ->
  (swap this other;;; swap this other) w = Ok tt w.
Proof.
  intros [[d1 s1 c1] Hv1] [[d2 s2 c2] Hv2].
  destruct w as [h vs a c s]. cbn [vecs] in *.
  apply wpg_run_ok. rewrite wpg_bind.
  rewrite (wpg_swap _ _ _ _ _ _ _ _ _ _ _ _ Hv1 Hv2).
  cbn [data_ size_ capacity_].
  assert (Ha : (<[other := Vec d1 s1 c1]> (<[this := Vec d2 s2 c2]> vs)) !! this
               = Some (Vec d2 s2 c2)).
  { destruct (decide (this = other)) as [->|Hne].
    - rewrite Hv1 in Hv2. injection Hv2 as <- <- <-. apply lookup_insert_eq.
    - by rewrite lookup_insert_ne, lookup_insert_eq. }
  assert (Hb : (<[other := Vec d1 s1 c1]> (<[this := Vec d2 s2 c2]> vs)) !! other
               = Some (Vec d1 s1 c1)) by apply lookup_insert_eq.
  rewrite (wpg_swap _ _ _ _ _ _ _ _ _ _ _ _ Ha Hb).
  cbn [data_ size_ capacity_].
  split; [done|]. f_equal. apply map_eq. intros i.
  destruct (decide (i = other)) as [->|Hio].
  { by rewrite lookup_insert_eq. }
  rewrite lookup_insert_ne by done.
  destruct (decide (i = this)) as [->|Hit].
  { by rewrite lookup_insert_eq. }
  by rewrite !lookup_insert_ne.
Qed.

(** ** Capacity control *)

(** X7.  [shrink_to_fit] on a vector that holds [l].  When it
    returns, the vector holds [l] and its capacity is the length of
    [l]; an empty vector that had capacity is left without a buffer.
    When the length already equals the capacity nothing happens.
    When it throws, memory and objects are as before the call.  It
    returns when the byte count is representable and neither the
    allocation nor the copy of an element throws. *)
Theorem shrink_to_fit_result w this l cap :
  owns w this l cap ->
  (forall w', shrink_to_fit this w = Ok tt w' ->
     owns w' this l (Z.of_nat (length l)) /\
     (l = [] -> 0 < cap -> buffer_of w' this = Some Null)) /\
  (Z.of_nat (length l) = cap -> shrink_to_fit this w = Ok tt w) /\
  (forall w', shrink_to_fit this w = Throw w' ->
     heap w' = heap w /\ vecs w' = vecs w) /\
  (Z.of_nat (length l) * @sizeofT T _ < 2 ^ 64 ->
   alloc_throws (allocs w)
     (wrap (Z.of_nat (length l) * @sizeofT T _)) = false ->
   copies_ok (copies w) l ->
   exists w', shrink_to_fit this w = Ok tt w').
Proof.
  intros Ho.
  destruct (owns_inv _ _ _ _ Ho) as (d & Hv & Hcap & Hc & Hroom & Hnull & Hlen).
  assert (Heq : Z.of_nat (length l) = cap -> shrink_to_fit this w = Ok tt w).
  { intros Heq. unfold shrink_to_fit, bind, get_vec. rewrite Hv.
    cbn [size_ capacity_]. by rewrite decide_False by lia. }
  assert (H : forall ub : Prop,
    (ub \/ (length l <= slots_for (Z.of_nat (length l)))%nat) ->
    wpg ub (shrink_to_fit this)
      (fun _ w' =>
         owns w' this l (Z.of_nat (length l)) /\
         (l = [] -> 0 < cap -> buffer_of w' this = Some Null))
      (fun w' =>
         (heap w' = heap w /\ vecs w' = vecs w) /\
         (alloc_throws (allocs w)
            (wrap (Z.of_nat (length l) * @sizeofT T _)) = true \/
          copy_fails (copies w) l)) w).
  { intros ub Hfit.
    destruct (decide (Z.of_nat (length l) = cap)) as [Hfull|Hspare].
    { unfold wpg. rewrite (Heq Hfull). split; [by rewrite Hfull|].
      intros -> ?. cbn in Hfull. lia. }
    destruct w as [h vs a c s]. cbn [heap vecs allocs copies] in *.
    unfold shrink_to_fit. rewrite (wpg_get_vec _ _ _ _ _ _ _ _ _ _ _ Hv).
    cbn [size_ capacity_]. rewrite decide_True by lia.
    eapply wpg_new_buffer; try done.
    - lia.
    - destruct Hfit; auto.
    - intros _ Ha. cbn. auto.
    - intros _ Ha k x Hx Hk Hok Hthrow. cbn. split; [done|].
      right. by exists k, x.
    - intros Hnz Ha Hok Hle b Hb. split.
      + apply owns_buffer; [lia|]. rewrite length_replicate.
        pose proof (slots_for_le sizeof_pos (Z.of_nat (length l)) ltac:(lia)).
        lia.
      + intros ->. done.
    - intros Hz. destruct l; [|cbn in Hz; lia]. split.
      + apply owns_default.
      + intros _ _. unfold buffer_of. cbn. by rewrite lookup_insert_eq. }
  split; [|split; [exact Heq|split]].
  - intros w' Hrun. specialize (H True ltac:(by left)).
    apply wpg_partial in H as [H _]. by apply (H tt w').
  - intros w' Hrun. specialize (H True ltac:(by left)).
    apply wpg_partial in H as [_ H]. by destruct (H w' Hrun).
  - intros Hbytes Ha Hok.
    pose proof (slots_for_exact sizeof_pos (Z.of_nat (length l)) ltac:(lia) Hbytes)
      as Hs.
    specialize (H False ltac:(right; lia)).
    apply wpg_total in H as [([] & w' & Hrun & _)|(w' & _ & _ & [Hf|Hf])].
    + by exists w'.
    + congruence.
    + destruct (copies_ok_not_fails _ _ Hok Hf).
Qed.

(** X8.  [clear] never throws and never releases memory: it returns,
    the vector is then empty with the capacity, the buffer and the
    block it had, and neither the allocator, the copy constructor nor
    [std::swap] has been invoked.  When the length fits in an [int],
    every element has been destroyed. *)
Theorem clear_empties w this l cap :
  owns w this l cap ->
  exists w',
    clear this w = Ok tt w' /\
    owns w' this [] cap /\
    buffer_of w' this = buffer_of w this /\
    room_of w' this = room_of w this /\
    allocs w' = allocs w /\ copies w' = copies w /\ swaps w' = swaps w /\
    (Z.of_nat (length l) < 2 ^ 31 ->
     forall b off sl, buffer_of w' this = Some (Ptr b off) ->
       heap w' !! b = Some sl ->
       forall i, (i < length l)%nat -> sl !! i = Some None).
Proof.
  intros Ho.
  destruct (wpg_returns _ _ _ (wpg_clear False w this l cap Ho))
    as ([] & w' & Hrun & H).
  by exists w'.
Qed.

(** ** Removing the last element *)

(** X9.  [pop_back] on a vector that holds [l ++ [y]] never throws:
    it returns, the vector then holds [l] with the capacity and the
    buffer it had, and neither the allocator, the copy constructor nor
    [std::swap] has been invoked. *)
Theorem pop_back_removes_last w this l (y : T) cap :
  owns w this (l ++ [y]) cap ->
  exists w',
    pop_back this w = Ok tt w' /\
    owns w' this l cap /\
    buffer_of w' this = buffer_of w this /\
    allocs w' = allocs w /\ copies w' = copies w /\ swaps w' = swaps w.
Proof.
  intros Ho.
  destruct (wpg_returns _ _ _ (wpg_pop_back_owns False w this l y cap Ho))
    as ([] & w' & Hrun & H).
  by exists w'.
Qed.

(** ** Appending within the capacity *)

(** [push_back] on a vector that is not full. *)
Lemma wpg_push_back_spare ub w this l cap (v : T) :
  owns w this l cap ->
  Z.of_nat (length l) < cap ->
  (ub \/ (length l < room_of w this)%nat) ->
  wpg ub (push_back this v)
    (fun _ w' =>
       owns w' this (l ++ [v]) cap /\
       buffer_of w' this = buffer_of w this /\
       room_of w' this = room_of w this /\
       allocs w' = allocs w /\ copies w' = copies w + 1 /\
       swaps w' = swaps w /\
       copy_throws (copies w) v = false)
    (fun w' =>
       heap w' = heap w /\ vecs w' = vecs w /\ allocs w' = allocs w /\
       copy_throws (copies w) v = true)
    w.
Proof.
  intros Ho Hlt Hfit.
  destruct (owns_inv _ _ _ _ Ho) as (d & Hv & Hcap & Hc & Hroom & Hnull & Hlen).
  destruct w as [h vs a c s].
  unfold room_of, buffer_of in *. cbn [heap vecs allocs copies swaps] in *.
  rewrite Hv in *. cbn [data_ fmap option_fmap option_map] in *.
  apply (wpg_push_back_rule ub this d cap l v); try done.
  - by rewrite bool_decide_eq_false_2 by lia.
  - intros _ Hcopy b x rest -> Hb. cbn [room] in *. rewrite Hb in Hroom.
    cbn in Hroom. rewrite length_app, length_fmap in Hroom. cbn in Hroom.
    replace (Z.of_nat (length l) + 1) with (Z.of_nat (length (l ++ [v])))
      by (rewrite length_app; cbn; lia).
    split; [|split; [|split]].
    + apply owns_buffer; [done|]. rewrite length_app. cbn. lia.
    + cbn [vecs]. by rewrite lookup_insert_eq.
    + cbn [vecs heap]. rewrite lookup_insert_eq. cbn. rewrite lookup_insert_eq, Hb. cbn.
      rewrite !length_app, !length_fmap, length_app. cbn. lia.
    + done.
  - intros ?. lia.
  - intros ?. lia.
Qed.

(** X10.  [push_back] on a vector that has spare capacity does not
    reallocate.  When the copy of the value succeeds it returns, the
    vector holds one more element, the last one, and has the capacity,
    the buffer and the block it had, and the allocator has not been
    invoked.  When the copy throws, the call throws and memory and
    objects are as before. *)
Theorem push_back_within_capacity w this l cap (v : T) :
  owns w this l cap ->
  Z.of_nat (length l) < cap ->
  (length l < room_of w this)%nat ->
  (copy_throws (copies w) v = false ->
   exists w',
     push_back this v w = Ok tt w' /\
     owns w' this (l ++ [v]) cap /\
     buffer_of w' this = buffer_of w this /\
     room_of w' this = room_of w this /\
     allocs w' = allocs w /\ copies w' = copies w + 1) /\
  (copy_throws (copies w) v = true ->
   exists w',
     push_back this v w = Throw w' /\
     heap w' = heap w /\ vecs w' = vecs w /\ allocs w' = allocs w).
Proof.
  intros Ho Hlt Hroom.
  pose proof (wpg_push_back_spare False w this l cap v Ho Hlt ltac:(by right)) as H.
  apply wpg_total in H
    as [([] & w' & Hrun & H1 & H2 & H3 & H4 & H5 & _ & Hc)
       |(w' & Hrun & H1 & H2 & H3 & Hc)].
  - split; intros Hc'; [|congruence]. by exists w'.
  - split; intros Hc'; [congruence|]. by exists w'.
Qed.

(** A sequence of [push_back] that stays within the capacity of a
    block of exactly that many slots. *)
Lemma wpg_push_backs_spare ub (vals : list T) this cap : forall w l,
  owns w this l cap ->
  room_of w this = Z.to_nat cap ->
  Z.of_nat (length l + length vals) <= cap ->
  copies_ok (copies w) vals ->
  wpg ub (foldr (fun v k => push_back this v;;; k) (ret tt) vals)
    (fun _ w' =>
       owns w' this (l ++ vals) cap /\
       buffer_of w' this = buffer_of w this /\
       allocs w' = allocs w)
    (fun _ => False) w.
Proof.
  induction vals as [|v vals IH]; intros w l Ho Hroom Hlen Hok; cbn [foldr].
  - rewrite wpg_ret, app_nil_r. done.
  - cbn [length] in Hlen. rewrite wpg_bind.
    eapply wpg_mono;
      [apply (wpg_push_back_spare ub w this l cap v Ho); [lia|right; lia]
      |done| |].
    + intros [] w1 (Ho1 & Hb1 & Hr1 & Ha1 & Hc1 & _ & _).
      eapply wpg_mono; [apply (IH w1 (l ++ [v]) Ho1)|done| |done].
      * by rewrite Hr1.
      * rewrite length_app. cbn. lia.
      * intros k x Hx. rewrite Hc1.
        replace (copies w + 1 + Z.of_nat k) with (copies w + Z.of_nat (S k)) by lia.
        by apply Hok.
      * intros [] w2 (Ho2 & Hb2 & Ha2). rewrite <- app_assoc in Ho2.
        split; [done|]. split; congruence.
    + intros w1 (_ & _ & _ & Hth).
      pose proof (Hok O v eq_refl) as H0. rewrite Z.add_0_r in H0. congruence.
Qed.

(** [reserve] beyond the capacity, with the block it leaves. *)
Lemma wpg_reserve_room ub w this l cap n :
  owns w this l cap ->
  cap < n < 2 ^ 64 ->
  (ub \/ (length l <= slots_for n)%nat) ->
  wpg ub (reserve this n)
    (fun _ w' =>
       owns w' this l n /\
       room_of w' this = slots_for n /\
       copies w' = copies w + Z.of_nat (length l))
    (fun w' =>
       alloc_throws (allocs w) (wrap (n * @sizeofT T _)) = true \/
       copy_fails (copies w) l)
    w.
Proof.
  intros Ho Hn Hfit.
  destruct (owns_inv _ _ _ _ Ho) as (d & Hv & Hcap & Hc & Hroom & Hnull & Hlen).
  destruct w as [h vs a c s]. cbn [heap vecs allocs copies] in *.
  unfold reserve. rewrite (wpg_get_vec _ _ _ _ _ _ _ _ _ _ _ Hv).
  cbn [capacity_]. rewrite decide_False by lia.
  eapply wpg_new_buffer; try done.
  - lia.
  - destruct Hfit; auto.
  - intros _ Ha. cbn. auto.
  - intros _ Ha k x Hx Hk Hok Hthrow. cbn. right. by exists k, x.
  - intros _ Ha Hok Hle b Hb.
    pose proof (slots_for_le sizeof_pos n ltac:(lia)).
    split; [|split; [|done]].
    + apply owns_buffer; [lia|]. rewrite length_replicate. lia.
    + unfold room_of. cbn. rewrite lookup_insert_eq. cbn.
      rewrite lookup_insert_eq. cbn.
      rewrite length_app, length_fmap, length_replicate. lia.
  - lia.
Qed.

(** X11.  After [reserve(n)], appending elements up to the length
    [n] does not reallocate: when the byte count is representable,
    the allocation does not throw and no copy throws, [reserve]
    returns and so does every [push_back] of the sequence; the vector
    then holds the old elements followed by the new ones, its capacity
    is [n], its buffer is the one [reserve] left and the allocator has
    not been invoked again. *)
Theorem reserve_then_push_backs w this l cap n (vals : list T) :
  owns w this l cap ->
  cap < n ->
  n * @sizeofT T _ < 2 ^ 64 ->
  Z.of_nat (length l + length vals) <= n ->
  alloc_throws (allocs w) (wrap (n * @sizeofT T _)) = false ->
  copies_ok (copies w) (l ++ vals) ->
  exists w1 w2,
    reserve this n w = Ok tt w1 /\
    foldr (fun v k => push_back this v;;; k) (ret tt) vals w1 = Ok tt w2 /\
    owns w2 this (l ++ vals) n /\
    buffer_of w2 this = buffer_of w1 this /\
    allocs w2 = allocs w1.
Proof.
  intros Ho Hlt Hbytes Hlen Ha Hok.
  assert (Hn : 0 <= n < 2 ^ 64) by nia.
  destruct (owns_inv _ _ _ _ Ho) as (d & _ & Hcap & _).
  destruct Hn as [Hn0 Hn1].
  pose proof (slots_for_exact sizeof_pos n Hn0 Hbytes) as Hs.
  pose proof (wpg_reserve_room False w this l cap n Ho ltac:(lia)
                ltac:(right; lia)) as H.
  apply wpg_total in H as [([] & w1 & Hrun & Ho1 & Hr1 & Hc1)|(w' & _ & [Hf|Hf])].
  - pose proof (wpg_push_backs_spare False vals this n w1 l Ho1) as H2.
    assert (Hok1 : copies_ok (copies w1) vals).
    { intros k x Hx. rewrite Hc1, <- Z.add_assoc, <- Nat2Z.inj_add.
      apply Hok. rewrite lookup_app_r by lia.
      by replace (length l + k - length l)%nat with k by lia. }
    destruct (wpg_returns _ _ _ (H2 ltac:(lia) Hlen Hok1))
      as ([] & w2 & Hrun2 & H3).
    by exists w1, w2.
  - congruence.
  - destruct Hf as (k & x & Hx & Hth).
    rewrite (Hok k x) in Hth; [done|]. by apply lookup_app_l_Some.
Qed.

(** X12.  [push_back] on one vector leaves every vector whose
    buffer is apart from its buffer alone: whether the call returns,
    with or without reallocation, or throws, the other vector holds
    the elements it held, in the buffer it had. *)
Theorem push_back_leaves_others w this other l cap lo co d1 d2 (v : T) :
  owns w this l cap ->
  owns w other lo co ->
  buffer_of w this = Some d1 ->
  buffer_of w other = Some d2 ->
  this <> other ->
  apart d1 d2 ->
  forall w',
    push_back this v w = Ok tt w' \/ push_back this v w = Throw w' ->
    owns w' other lo co /\ buffer_of w' other = Some d2.
Proof.
  intros Ho1 Ho2 Hd1 Hd2 Hne Hap.
  destruct (owns_buffer_of _ _ _ _ _ Ho1 Hd1)
    as (Hv1 & Hcap1 & Hc1 & Hroom1 & Hnull1 & Hlen1).
  destruct (owns_buffer_of _ _ _ _ _ Ho2 Hd2)
    as (Hv2 & Hcap2 & Hc2 & Hroom2 & Hnull2 & Hlen2).
  assert (H : wpg True (push_back this v)
    (fun _ w' => owns w' other lo co /\ buffer_of w' other = Some d2)
    (fun w' => owns w' other lo co /\ buffer_of w' other = Some d2) w).
  { destruct w as [h vs a c s]. cbn [heap vecs allocs copies swaps] in *.
    assert (Hkeep : forall h' vs' a' c' s',
      vs' !! other = vs !! other ->
      content h' d2 lo -> room h' d2 = room h d2 ->
      owns (World h' vs' a' c' s') other lo co /\
      buffer_of (World h' vs' a' c' s') other = Some d2).
    { intros h' vs' a' c' s' Hvs Hc' Hr'. split.
      - by apply (owns_other h _ vs _ a c s _ _ _ other lo co d2 Ho2 Hv2).
      - unfold buffer_of. cbn. by rewrite Hvs, Hv2. }
    apply (wpg_push_back_rule True this d1 cap l v h vs a c s _ _
             Hv1 Hc1 Hcap1 Hlen1 Hnull1 (or_introl I)).
    - intros _. by apply Hkeep.
    - intros _ _ b x rest -> Hb. apply Hkeep.
      + by rewrite lookup_insert_ne.
      + by apply (content_insert_apart _ _ 0).
      + by apply (room_insert_apart _ _ 0).
    - intros _ _ _ c'. by apply Hkeep.
    - intros _ _ _ _ b m Hb _.
      assert (Hc' : forall sl, content (<[b := sl]> (release d1 h)) d2 lo).
      { intros sl. apply content_insert_ne; [by apply release_fresh|].
        by apply content_release. }
      assert (Hr' : forall sl, room (<[b := sl]> (release d1 h)) d2 = room h d2).
      { intros sl. rewrite (room_insert_ne _ _ _ _ lo).
        - by apply room_release.
        - by apply release_fresh.
        - by apply content_release. }
      split; intros _; apply Hkeep; try done; by rewrite lookup_insert_ne. }
  apply wpg_partial in H as [HQ HE].
  intros w' [Hrun|Hrun]; [by apply (HQ tt)|by apply HE].
Qed.

(** ** Inserting and erasing *)

(** The object at position [i] of a vector that holds [l]. *)
Lemma owns_load w this l cap d (i : nat) (x : T) q :
  owns w this l cap ->
  buffer_of w this = Some d ->
  l !! i = Some x ->
  ptr_add d (Z.of_nat i) = Some q ->
  load q w = Ok x w.
Proof.
  intros Ho Hd Hx Hq.
  destruct (owns_buffer_of _ _ _ _ _ Ho Hd) as (Hv & Hcap & Hc & _).
  destruct d as [|b off]; [cbn in Hc; by subst l|].
  destruct Hc as (-> & rest & Hb). cbn in Hq. injection Hq as <-.
  unfold load, slot. rewrite decide_True by lia. rewrite Hb. cbn.
  replace (Z.to_nat (0 + Z.of_nat i)) with i by lia.
  by rewrite (lookup_fmap_app _ _ _ _ Hx).
Qed.

(** X13.  [insert(pos, v)] at position [p] of a vector that holds
    [l].  When it returns, the vector holds the elements of [l] before
    [p], then [v], then the elements of [l] from [p] on; its capacity
    is the one [push_back] leaves; and the iterator returned is
    [begin() + p], which points to the new element.  It returns when
    the block is large enough and neither the copy constructor, the
    allocator nor [std::swap] throws. *)
Theorem insert_places_element w this l cap d (p : nat) (pos : ptr) (v : T) :
  owns w this l cap ->
  buffer_of w this = Some d ->
  (p <= length l)%nat ->
  ptr_add d (Z.of_nat p) = Some pos ->
  let nc := if bool_decide (Z.of_nat (length l) = cap) then grown cap else cap in
  (forall r w', insert this pos v w = Ok r w' ->
     owns w' this (take p l ++ v :: drop p l) nc /\
     (exists d', begin this w' = Ok d' w' /\ ptr_add d' (Z.of_nat p) = Some r) /\
     load r w' = Ok v w') /\
  ((if bool_decide (Z.of_nat (length l) = cap)
    then nc <> 0 /\ (length l < slots_for nc)%nat
    else (length l < room_of w this)%nat) ->
   (forall k x, copy_throws k x = false) ->
   (forall k m, alloc_throws k m = false) ->
   (forall k x y, @swap_throws T _ k x y = None) ->
   exists r w', insert this pos v w = Ok r w').
Proof.
  intros Ho Hd Hp Hpos nc.
  assert (HQ : forall r w',
    owns w' this (take p l ++ v :: drop p l) nc /\
    (exists d', buffer_of w' this = Some d' /\ ptr_add d' (Z.of_nat p) = Some r) ->
    owns w' this (take p l ++ v :: drop p l) nc /\
    (exists d', begin this w' = Ok d' w' /\ ptr_add d' (Z.of_nat p) = Some r) /\
    load r w' = Ok v w').
  { intros r w' (Ho' & d' & Hd' & Hr). split; [done|]. split.
    - exists d'. split; [|done].
      destruct (owns_observers _ _ _ _ Ho') as (d0 & Hd0 & Hbegin & _).
      congruence.
    - apply (owns_load w' this _ nc d' p v r Ho' Hd'); [|done].
      rewrite lookup_app_r by (rewrite length_take; lia).
      rewrite length_take. by replace (p - p `min` length l)%nat with O by lia. }
  split.
  - intros r w' Hrun.
    pose proof (wpg_insert True w this l cap d p pos v Ho Hd Hp Hpos
                  ltac:(by left)) as H.
    apply wpg_partial in H as [H _]. apply HQ. by apply (H r w').
  - intros Hfit Hcopy Halloc Hswap.
    pose proof (wpg_insert False w this l cap d p pos v Ho Hd Hp Hpos
                  ltac:(by right)) as H.
    apply wpg_total in H as [(r & w' & Hrun & _)|(w' & _ & [[Hf _]|[Hf _]])].
    + by exists r, w'.
    + destruct Hf as [(k & x & Hth)|(k & m & Hth)].
      * by rewrite Hcopy in Hth.
      * by rewrite Halloc in Hth.
    + destruct Hf as (k & x & y & Hth). by rewrite Hswap in Hth.
Qed.

(** X14.  The weak guarantee of [insert].  When [insert(pos, v)]
    throws, the vector still owns its elements: it holds [l], with the
    old or the new capacity, or, when it is a [std::swap] that threw,
    it holds one element more than [l].  When [std::swap] cannot throw
    it holds [l]. *)
Theorem insert_failure_keeps_vector w this l cap d (p : nat) (pos : ptr) (v : T) :
  owns w this l cap ->
  buffer_of w this = Some d ->
  (p <= length l)%nat ->
  ptr_add d (Z.of_nat p) = Some pos ->
  let nc := if bool_decide (Z.of_nat (length l) = cap) then grown cap else cap in
  forall w', insert this pos v w = Throw w' ->
    ((owns w' this l cap \/ owns w' this l nc) \/
     (exists l', length l' = S (length l) /\ owns w' this l' nc)) /\
    ((forall k x y, @swap_throws T _ k x y = None) ->
     owns w' this l cap \/ owns w' this l nc).
Proof.
  intros Ho Hd Hp Hpos nc w' Hrun.
  pose proof (wpg_insert True w this l cap d p pos v Ho Hd Hp Hpos
                ltac:(by left)) as H.
  apply wpg_partial in H as [_ H].
  destruct (H w' Hrun) as [[_ Hl]|[Hf Hl]].
  - split; [by left|done].
  - split; [by right|]. intros Hswap.
    destruct Hf as (k & x & y & Hth). by rewrite Hswap in Hth.
Qed.

(** X15.  [erase(pos)] at position [p] of a vector that holds [l].
    When it returns, the vector holds the elements of [l] but the one
    at [p], in their order, its length is one less and its capacity is
    unchanged.  It returns when no [std::swap] throws. *)
Theorem erase_position_content w this l cap d (p : nat) (pos : ptr) :
  owns w this l cap ->
  buffer_of w this = Some d ->
  (p < length l)%nat ->
  ptr_add d (Z.of_nat p) = Some pos ->
  (forall r w', erase this pos w = Ok r w' ->
     owns w' this (take p l ++ drop (S p) l) cap /\
     size this w' = Ok (Z.of_nat (length l) - 1) w') /\
  ((forall k x y, @swap_throws T _ k x y = None) ->
   exists r w', erase this pos w = Ok r w').
Proof.
  intros Ho Hd Hp Hpos. split.
  - intros r w' Hrun.
    pose proof (wpg_erase True w this l cap d p pos Ho Hd Hp Hpos) as H.
    apply wpg_partial in H as [H _]. destruct (H r w' Hrun) as (Ho' & _).
    split; [exact Ho'|].
    destruct (owns_observers _ _ _ _ Ho') as (d0 & _ & _ & _ & Hsize & _).
    rewrite Hsize. do 2 f_equal.
    rewrite length_app, length_take, length_drop. lia.
  - intros Hsw.
    pose proof (wpg_erase False w this l cap d p pos Ho Hd Hp Hpos) as H.
    apply wpg_total in H as [(r & w' & Hrun & _)|(w' & _ & _ & Hf)].
    + by exists r, w'.
    + destruct Hf as (k & x & y & _ & Hth). by rewrite Hsw in Hth.
Qed.

(** X16.  The weak guarantee of the two [erase].  When [erase(pos)]
    or [erase(first, last)] throws, it is a [std::swap] that threw; no
    element has been destroyed: the vector still owns as many elements
    as before, with the same capacity. *)
Theorem erase_failure_keeps_length w this l cap d :
  owns w this l cap ->
  buffer_of w this = Some d ->
  (forall (p : nat) pos w',
     (p < length l)%nat ->
     ptr_add d (Z.of_nat p) = Some pos ->
     erase this pos w = Throw w' ->
     (exists l', length l' = length l /\ owns w' this l' cap) /\
     failed_swap (swaps w) (swaps w + Z.of_nat (length l - S p))) /\
  (forall (f la : nat) first last w',
     (f <= la <= length l)%nat ->
     ptr_add d (Z.of_nat f) = Some first ->
     ptr_add d (Z.of_nat la) = Some last ->
     erase_range this first last w = Throw w' ->
     (exists l', length l' = length l /\ owns w' this l' cap) /\
     failed_swap (swaps w) (swaps w + Z.of_nat (length l - la))).
Proof.
  intros Ho Hd. split.
  - intros p pos w' Hp Hpos Hrun.
    pose proof (wpg_erase True w this l cap d p pos Ho Hd Hp Hpos) as H.
    apply wpg_partial in H as [_ H]. by apply H.
  - intros f la first last w' Hr Hfirst Hlast Hrun.
    pose proof (wpg_erase_range True w this l cap d f la first last
                  Ho Hd Hr Hfirst Hlast) as H.
    apply wpg_partial in H as [_ H]. by apply H.
Qed.

(** ** Round trips *)

(** X17.  [push_back(v)] followed by [pop_back()] leaves a vector
    that holds what it held, with the capacity [push_back] leaves.
    When the pair throws it is [push_back] that threw, and the vector
    holds what it held.  The pair returns when the block is large
    enough and neither the copy constructor nor the allocator
    throws. *)
Theorem push_back_pop_back_round_trip w this l cap (v : T) :
  owns w this l cap ->
  let full := bool_decide (Z.of_nat (length l) = cap) in
  let nc := if full then grown cap else cap in
  (forall w', (push_back this v;;; pop_back this) w = Ok tt w' ->
     owns w' this l nc) /\
  (forall w', (push_back this v;;; pop_back this) w = Throw w' ->
     owns w' this l cap \/ owns w' this l nc) /\
  ((if full then nc <> 0 /\ (length l < slots_for nc)%nat
    else (length l < room_of w this)%nat) ->
   (forall k x, copy_throws k x = false) ->
   (forall k m, alloc_throws k m = false) ->
   exists w', (push_back this v;;; pop_back this) w = Ok tt w').
Proof.
  intros Ho full nc.
  assert (H : forall ub : Prop,
    (ub \/ if full then nc <> 0 /\ (length l < slots_for nc)%nat
           else (length l < room_of w this)%nat) ->
    wpg ub (push_back this v;;; pop_back this)
      (fun _ w' => owns w' this l nc)
      (fun w' =>
         (owns w' this l cap \/ owns w' this l nc) /\ copy_or_alloc_throws) w).
  { intros ub Hfit. rewrite wpg_bind.
    eapply wpg_mono;
      [apply (wpg_push_back sizeof_pos ub w this l cap v Ho Hfit)|done| |].
    - intros [] w1 (Ho1 & _). fold full nc in Ho1.
      eapply wpg_mono; [apply (wpg_pop_back_owns ub w1 this l v nc Ho1)|done| |done].
      by intros [] w2 (Ho2 & _).
    - fold full nc.
      intros w1 [(Hth & Hh & Hvs)|[(_ & _ & Hf & Hh & Hvs)
                                  |(_ & _ & _ & _ & Hth & Ho1 & _)]].
      + split; [left; by apply (owns_ext w)|]. left. eauto.
      + split; [left; by apply (owns_ext w)|].
        destruct Hf as [?|(k & x & _ & ?)]; [right|left]; eauto.
      + split; [by right|]. left. eauto. }
  split; [|split].
  - intros w' Hrun. specialize (H True ltac:(by left)).
    apply wpg_partial in H as [H _]. by apply (H tt w').
  - intros w' Hrun. specialize (H True ltac:(by left)).
    apply wpg_partial in H as [_ H]. by destruct (H w' Hrun).
  - intros Hfit Hcopy Halloc. specialize (H False ltac:(by right)).
    apply wpg_total in H as [([] & w' & Hrun & _)|(w' & _ & _ & Hf)].
    + by exists w'.
    + destruct Hf as [(k & x & Hth)|(k & m & Hth)].
      * by rewrite Hcopy in Hth.
      * by rewrite Halloc in Hth.
Qed.

Lemma take_drop_inserted {A} (l : list A) (p : nat) (v : A) :
  (p <= length l)%nat ->
  take p (take p l ++ v :: drop p l) ++ drop (S p) (take p l ++ v :: drop p l) = l.
Proof.
  intros Hp.
  rewrite take_app_length' by (rewrite length_take; lia).
  rewrite drop_app_ge by (rewrite length_take; lia).
  rewrite length_take.
  replace (S p - p `min` length l)%nat with 1%nat by lia.
  cbn [drop]. rewrite drop_0. apply take_drop.
Qed.

(** X18.  [insert(pos, v)] followed by [erase] at the iterator that
    [insert] returned leaves a vector that holds what it held, in the
    same order.  The pair returns when the block is large enough and
    neither the copy constructor, the allocator nor [std::swap]
    throws. *)
Theorem insert_then_erase_round_trip w this l cap d (p : nat) (pos : ptr) (v : T) :
  owns w this l cap ->
  buffer_of w this = Some d ->
  (p <= length l)%nat ->
  ptr_add d (Z.of_nat p) = Some pos ->
  let full := bool_decide (Z.of_nat (length l) = cap) in
  let nc := if full then grown cap else cap in
  (forall r w', (it <~ insert this pos v;; erase this it) w = Ok r w' ->
     owns w' this l nc) /\
  ((if full then nc <> 0 /\ (length l < slots_for nc)%nat
    else (length l < room_of w this)%nat) ->
   (forall k x, copy_throws k x = false) ->
   (forall k m, alloc_throws k m = false) ->
   (forall k x y, @swap_throws T _ k x y = None) ->
   exists r w', (it <~ insert this pos v;; erase this it) w = Ok r w' /\
                owns w' this l nc).
Proof.
  intros Ho Hd Hp Hpos full nc.
  assert (H : forall ub : Prop,
    (ub \/ if full then nc <> 0 /\ (length l < slots_for nc)%nat
           else (length l < room_of w this)%nat) ->
    wpg ub (it <~ insert this pos v;; erase this it)
      (fun _ w' => owns w' this l nc)
      (fun w' => copy_or_alloc_throws \/ swap_may_throw) w).
  { intros ub Hfit. rewrite wpg_bind.
    eapply wpg_mono;
      [apply (wpg_insert ub w this l cap d p pos v Ho Hd Hp Hpos Hfit)|done| |].
    - fold full nc. intros r w1 (Ho1 & d1 & Hd1 & Hr).
      eapply wpg_mono;
        [apply (wpg_erase ub w1 this _ nc d1 p r Ho1 Hd1); [|done]|done| |].
      + rewrite length_app, length_take. cbn [length]. lia.
      + intros r' w2 (Ho2 & _). by rewrite take_drop_inserted in Ho2.
      + intros w2 (_ & k & x & y & _ & Hth). right. by exists k, x, y.
    - intros w1 [[Hf _]|[Hf _]]; [by left|by right]. }
  split.
  - intros r w' Hrun. specialize (H True ltac:(by left)).
    apply wpg_partial in H as [H _]. by apply (H r w').
  - intros Hfit Hcopy Halloc Hswap. specialize (H False ltac:(by right)).
    apply wpg_total in H as [(r & w' & Hrun & Ho')|(w' & _ & [Hf|Hf])].
    + by exists r, w'.
    + destruct Hf as [(k & x & Hth)|(k & m & Hth)].
      * by rewrite Hcopy in Hth.
      * by rewrite Halloc in Hth.
    + destruct Hf as (k & x & y & Hth). by rewrite Hswap in Hth.
Qed.

(** ** Observers and element access *)

(** X19.  On a vector that holds [l] with capacity [cap], [size()]
    is the length of [l], [capacity()] is [cap], [empty()] tells
    whether [l] is empty, the size does not exceed the capacity,
    [end() - begin()] is the size, and [data()] is [begin()] when the
    capacity is not zero.  None of them changes the state. *)
Theorem observers_agree w this l cap :
  owns w this l cap ->
  size this w = Ok (Z.of_nat (length l)) w /\
  capacity this w = Ok cap w /\
  empty this w = Ok (bool_decide (l = [])) w /\
  Z.of_nat (length l) <= cap /\
  (exists b e,
     begin this w = Ok b w /\ end_ this w = Ok e w /\
     ptr_diff e b = Some (Z.of_nat (length l))) /\
  (0 < cap -> data this w = begin this w).
Proof.
  intros Ho.
  destruct (owns_observers _ _ _ _ Ho)
    as (d & Hd & Hbegin & Hend & Hsize & Hcapacity & Hempty).
  destruct (owns_buffer_of _ _ _ _ _ Ho Hd) as (Hv & Hcap & Hc & _ & _ & Hlen).
  split; [done|]. split; [done|]. split; [done|]. split; [done|]. split.
  - assert (He : exists e, ptr_add d (Z.of_nat (length l)) = Some e).
    { destruct d as [|b off]; [|by eexists].
      cbn in Hc. subst l. by exists Null. }
    destruct He as [e He]. exists d, e. split; [done|]. split.
    + by rewrite Hend, He.
    + by apply ptr_diff_add.
  - intros Hpos. unfold data, begin, bind, get_vec. rewrite Hv.
    cbn [capacity_ data_]. by rewrite decide_False by lia.
Qed.

(** X20.  Element access on a vector that holds [l]: the object
    that [operator[](i)] designates is the element at position [i] of
    [l], for every [i] below the size; [front()] designates the first
    element and [back()] the last one; none of them changes the state.
    Reading through [operator[]] at an index beyond the block is
    undefined. *)
Theorem element_access w this l cap :
  owns w this l cap ->
  (forall (i : nat) x, l !! i = Some x ->
     (p <~ index this (Z.of_nat i);; load p) w = Ok x w) /\
  (forall x, head l = Some x -> (p <~ front this;; load p) w = Ok x w) /\
  (forall x, last l = Some x -> (p <~ back this;; load p) w = Ok x w) /\
  (forall i : nat, (room_of w this <= i)%nat ->
     (p <~ index this (Z.of_nat i);; load p) w = UB).
Proof.
  intros Ho.
  destruct (owns_inv _ _ _ _ Ho) as (d & Hv & Hcap & Hc & Hroom & Hnull & Hlen).
  pose proof (buffer_of_lookup _ _ _ _ _ Hv) as Hd.
  assert (Hidx : forall (i : nat) x, l !! i = Some x ->
            exists q, ptr_add d (Z.of_nat i) = Some q /\ load q w = Ok x w).
  { intros i x Hx. destruct d as [|b off].
    - cbn in Hc. by subst l.
    - eexists. split; [done|]. by apply (owns_load w this l cap (Ptr b off) i x). }
  split; [|split; [|split]].
  - intros i x Hx. destruct (Hidx i x Hx) as (q & Hq & Hload).
    unfold index, bind, get_vec. rewrite Hv. cbn [data_]. by rewrite Hq.
  - intros x Hx. rewrite head_lookup in Hx.
    destruct (Hidx O x Hx) as (q & Hq & Hload).
    unfold front, bind, get_vec. rewrite Hv. cbn [data_ ret].
    destruct d as [|b off]; [cbn in Hc; by subst l|].
    destruct Hc as [-> _]. cbn in Hq. by injection Hq as <-.
  - intros x Hx. rewrite last_lookup in Hx.
    destruct (Hidx _ x Hx) as (q & Hq & Hload).
    assert (0 < length l)%nat by (destruct l; [done|cbn; lia]).
    unfold back, bind, get_vec. rewrite Hv. cbn [data_ size_].
    rewrite wrap_small by lia.
    replace (Z.of_nat (length l) - 1) with (Z.of_nat (Init.Nat.pred (length l)))
      by lia.
    by rewrite Hq.
  - intros i Hi. unfold index, bind, get_vec. rewrite Hv. cbn [data_].
    unfold room_of in Hi. rewrite Hv in Hi. cbn [data_] in Hi.
    destruct d as [|b off]; cbn [ptr_add].
    + case_decide; [done|done].
    + destruct Hc as (-> & rest & Hb). cbn [room] in Hi. rewrite Hb in Hi.
      cbn in Hi. cbn [of_option ret]. unfold load, slot.
      rewrite decide_True by lia. rewrite Hb. cbn.
      rewrite lookup_ge_None_2; [done|]. lia.
Qed.

(** ** Construction of a range of copies *)

(** X21.  The strong guarantee of [copy_construct_all] on raw
    memory.  When the copy of the element at position [k] throws,
    with [k] below [2^31], the copies already made have been
    destroyed: a destination that was raw is raw again, and the
    memory is as before the call. *)
Theorem copy_construct_all_restores_raw bd bs (n : nat) l rest h vs a c s
    (k : nat) (x : T) :
  bs <> bd ->
  h !! bs = Some ((Some <$> l) ++ rest) ->
  h !! bd = Some (replicate n None) ->
  Z.of_nat (length l) < 2 ^ 64 ->
  (length l <= n)%nat ->
  l !! k = Some x ->
  Z.of_nat k < 2 ^ 31 ->
  (forall j y, (j < k)%nat -> l !! j = Some y ->
               copy_throws (c + Z.of_nat j) y = false) ->
  copy_throws (c + Z.of_nat k) x = true ->
  copy_construct_all (Ptr bd 0) (Ptr bs 0) (Z.of_nat (length l))
    (World h vs a c s)
  = Throw (World h vs a (c + Z.of_nat k + 1) s).
Proof.
  intros Hne Hbs Hbd Hlen Hle Hx Hk Hok Hth.
  rewrite (copy_construct_all_rollback bd bs (replicate n None) l rest
             h vs a c s k x); try done.
  - pose proof (lookup_lt_Some _ _ _ Hx) as Hkl.
    rewrite drop_replicate, <- replicate_add.
    replace (k + (n - k))%nat with n by lia.
    by rewrite insert_id.
  - by rewrite length_replicate.
Qed.

(** ** The default constructor *)

(** X22.  [vector()] allocates nothing and builds an empty vector
    without capacity, for which [data()] is the null pointer and
    [begin()] equals [end()].  Destroying it at once gives back the
    state before its construction. *)
Theorem default_constructor_empty w this :
  vecs w !! this = None ->
  (exists w',
     vector_default this w = Ok tt w' /\
     owns w' this [] 0 /\
     heap w' = heap w /\ allocs w' = allocs w /\
     data this w' = Ok Null w' /\
     begin this w' = Ok Null w' /\ end_ this w' = Ok Null w') /\
  (vector_default this;;; vector_dtor this) w = Ok tt w.
Proof.
  intros Hnew. destruct w as [h vs a c s]. cbn [vecs] in Hnew. split.
  - eexists. split; [reflexivity|]. split; [apply owns_default|].
    unfold data, begin, end_, bind, get_vec. cbn [vecs set_vecs heap allocs].
    rewrite lookup_insert_eq. done.
  - apply wpg_run_ok. rewrite wpg_bind. unfold vector_default.
    rewrite wpg_set_vec.
    apply (wpg_vector_dtor _ this Null 0 0 []);
      [apply lookup_insert_eq|done|done|].
    cbn [release]. by rewrite delete_insert_id.
Qed.

End MoreOperations.

(** * Every vector owns its elements, in every reachable state *)

Section Ownership.
Context {T : Type} {elem : Element T} {alloc : Allocator}.
Implicit Types (w : world T) (l : list T).
Implicit Types (h : gmap nat (list (option T))) (vs : gmap nat vec).

Hypothesis sizeof_pos : 0 < @sizeofT T _.

(** ** The invariant under changes of the state *)

Lemma apart_sym (d1 d2 : ptr) : apart d1 d2 -> apart d2 d1.
Proof. destruct d1, d2; cbn; auto. Qed.

Lemma all_own_ext w w' :
  heap w' = heap w -> vecs w' = vecs w -> all_own w -> all_own w'.
Proof.
  intros Hh Hvs (H1 & H2 & H3). split; [|split].
  - intros this v Hv. rewrite Hvs in Hv. destruct (H1 this v Hv) as [l Ho].
    exists l. by apply (owns_ext w).
  - intros a b va vb. rewrite Hvs. apply H2.
  - intros b. rewrite Hh, Hvs. apply H3.
Qed.

Lemma all_own_empty (a c s : Z) : all_own (World (T := T) ∅ ∅ a c s).
Proof.
  split; [|split].
  - intros this v Hv. cbn in Hv. by rewrite lookup_empty in Hv.
  - intros x y vx vy _ Hx. cbn in Hx. by rewrite lookup_empty in Hx.
  - intros b [sl Hb]. cbn in Hb. by rewrite lookup_empty in Hb.
Qed.

(** What the invariant tells of one vector. *)
Lemma all_own_lookup w this d sz cp :
  all_own w ->
  vecs w !! this = Some (Vec d sz cp) ->
  exists l,
    owns w this l cp /\
    sz = Z.of_nat (length l) /\
    0 <= cp < 2 ^ 64 /\
    content (heap w) d l /\
    Z.of_nat (room (heap w) d) <= cp /\
    (d = Null -> cp = 0) /\
    Z.of_nat (length l) <= cp.
Proof.
  intros (H1 & _) Hv. destruct (H1 _ _ Hv) as [l Ho]. cbn [capacity_] in Ho.
  exists l. split; [done|].
  destruct (owns_inv _ _ _ _ Ho) as (d' & Hv' & H).
  rewrite Hv in Hv'. by injection Hv' as <- ->.
Qed.

(** The block of a buffer exists. *)
Lemma content_block h b off l : content h (Ptr b off) l -> is_Some (h !! b).
Proof. intros (_ & rest & Hb). by eexists. Qed.

(** A block that is left when a buffer is released was there, and is
    not the block of that buffer. *)
Lemma released_block h vs this d sz cp b :
  vs !! this = Some (Vec d sz cp) ->
  is_Some (release d h !! b) ->
  is_Some (h !! b) /\
  forall v off, vs !! this = Some v -> data_ v <> Ptr b off.
Proof.
  intros Hv Hb. destruct d as [|bd od]; cbn in Hb.
  - split; [done|]. intros v off Hv'. rewrite Hv in Hv'. by injection Hv' as <-.
  - destruct Hb as [sl Hb]. apply lookup_delete_Some in Hb as [Hne Hb].
    split; [by eexists|]. intros v off Hv'. rewrite Hv in Hv'.
    injection Hv' as <-. cbn. congruence.
Qed.

(** One vector is given new members, the blocks of the others being
    left alone; a block of the new state is the new buffer of that
    vector, or a block of the old state other than its old buffer. *)
Lemma all_own_step h vs a c s h' a' c' s' this v' l' :
  all_own (World h vs a c s) ->
  owns (World h' (<[this := v']> vs) a' c' s') this l' (capacity_ v') ->
  (forall o vo, o <> this -> vs !! o = Some vo ->
     apart (data_ v') (data_ vo) /\
     forall b off, data_ vo = Ptr b off -> h' !! b = h !! b) ->
  (forall b, is_Some (h' !! b) ->
     (exists off, data_ v' = Ptr b off) \/
     (is_Some (h !! b) /\
      forall v off, vs !! this = Some v -> data_ v <> Ptr b off)) ->
  all_own (World h' (<[this := v']> vs) a' c' s').
Proof.
  intros (H1 & H2 & H3) Ho Hothers Hblocks. split; [|split].
  - intros o vo Hvo. cbn [vecs] in Hvo.
    destruct (decide (o = this)) as [->|Hne].
    + rewrite lookup_insert_eq in Hvo. injection Hvo as <-. by exists l'.
    + rewrite lookup_insert_ne in Hvo by done.
      destruct (H1 o vo Hvo) as [l Hl]. exists l.
      apply (owns_frame (World h vs a c s)); [done| |].
      * cbn. by rewrite lookup_insert_ne.
      * intros b off Hb. cbn. unfold buffer_of in Hb. cbn in Hb.
        rewrite Hvo in Hb. cbn in Hb. injection Hb as Hb.
        destruct (Hothers o vo Hne Hvo) as [_ Hh]. by apply (Hh b off).
  - intros x y vx vy Hxy Hx Hy. cbn [vecs] in *.
    destruct (decide (x = this)) as [->|Hx'], (decide (y = this)) as [->|Hy'].
    + done.
    + rewrite lookup_insert_eq in Hx. rewrite lookup_insert_ne in Hy by done.
      injection Hx as <-. by destruct (Hothers y vy Hy' Hy).
    + rewrite lookup_insert_eq in Hy. rewrite lookup_insert_ne in Hx by done.
      injection Hy as <-. apply apart_sym. by destruct (Hothers x vx Hx' Hx).
    + rewrite lookup_insert_ne in Hx, Hy by done. by apply (H2 x y).
  - intros b Hb. cbn [heap vecs] in *.
    destruct (Hblocks b Hb) as [[off Hd]|[Hb' Hnot]].
    + exists this, v', off. by rewrite lookup_insert_eq.
    + destruct (H3 b Hb') as (o & vo & off & Hvo & Hd).
      exists o, vo, off. split; [|done].
      rewrite lookup_insert_ne; [done|]. intros <-. by apply (Hnot vo off).
Qed.

(** The vector at [this] keeps its buffer, whose block changes. *)
Lemma all_own_same_buffer h vs a c s a' c' s' this b sz cp sl' sz' l' :
  all_own (World h vs a c s) ->
  vs !! this = Some (Vec (Ptr b 0) sz cp) ->
  owns (World (<[b := sl']> h) (<[this := Vec (Ptr b 0) sz' cp]> vs) a' c' s')
       this l' cp ->
  all_own (World (<[b := sl']> h) (<[this := Vec (Ptr b 0) sz' cp]> vs) a' c' s').
Proof.
  intros Hown Hv Ho. apply (all_own_step h vs a c s _ _ _ _ _ _ l'); try done.
  - intros o vo Hne Hvo.
    pose proof (proj1 (proj2 Hown) this o _ _ ltac:(done) Hv Hvo) as Hap.
    cbn [data_] in *. split; [done|].
    intros b' off Hd. rewrite Hd in Hap. cbn in Hap.
    by rewrite lookup_insert_ne.
  - intros b' Hb'. cbn [data_]. destruct (decide (b' = b)) as [->|Hne].
    + left. by exists 0.
    + right. rewrite lookup_insert_ne in Hb' by done. split; [done|].
      intros v off Hv'. rewrite Hv in Hv'. injection Hv' as <-. cbn. congruence.
Qed.

(** The vector at [this] gets a new block, its former buffer being
    released. *)
Lemma all_own_new_buffer h vs a c s a' c' s' this d sz cp b sl' sz' cp' l' :
  all_own (World h vs a c s) ->
  vs !! this = Some (Vec d sz cp) ->
  h !! b = None ->
  owns (World (<[b := sl']> (release d h))
              (<[this := Vec (Ptr b 0) sz' cp']> vs) a' c' s') this l' cp' ->
  all_own (World (<[b := sl']> (release d h))
                 (<[this := Vec (Ptr b 0) sz' cp']> vs) a' c' s').
Proof.
  intros Hown Hv Hb Ho. apply (all_own_step h vs a c s _ _ _ _ _ _ l'); try done.
  - intros o [do so co] Hne Hvo.
    pose proof (proj1 (proj2 Hown) this o _ _ ltac:(done) Hv Hvo) as Hap.
    destruct (all_own_lookup _ _ _ _ _ Hown Hvo) as (lo & _ & _ & _ & Hc & _).
    cbn [data_ heap] in *.
    destruct do as [|bo oo]; [done|].
    destruct (content_block _ _ _ _ Hc) as [slo Hbo].
    assert (bo <> b) by congruence.
    split; [cbn; congruence|].
    intros b' off [= <- <-]. rewrite lookup_insert_ne by done.
    destruct d as [|bd od]; [done|]. cbn in Hap |- *.
    by rewrite lookup_delete_ne.
  - intros b' Hb'. cbn [data_]. destruct (decide (b' = b)) as [->|Hne].
    + left. by exists 0.
    + right. rewrite lookup_insert_ne in Hb' by done.
      by apply (released_block h vs this d sz cp).
Qed.

(** The vector at [this] gives its buffer up. *)
Lemma all_own_released h vs a c s a' c' s' this d sz cp :
  all_own (World h vs a c s) ->
  vs !! this = Some (Vec d sz cp) ->
  all_own (World (release d h) (<[this := Vec Null 0 0]> vs) a' c' s').
Proof.
  intros Hown Hv. apply (all_own_step h vs a c s _ _ _ _ _ _ []).
  - done.
  - apply owns_default.
  - intros o [do so co] Hne Hvo. split; [done|].
    pose proof (proj1 (proj2 Hown) this o _ _ ltac:(done) Hv Hvo) as Hap.
    cbn [data_] in *. intros b' off ->.
    destruct d as [|bd od]; [done|]. cbn in Hap |- *.
    by rewrite lookup_delete_ne.
  - intros b' Hb'. right. by apply (released_block h vs this d sz cp).
Qed.

(** A new vector in a new block. *)
Lemma all_own_new_vector h vs a c s a' c' s' this b sl' sz' cp' l' :
  all_own (World h vs a c s) ->
  vs !! this = None ->
  h !! b = None ->
  owns (World (<[b := sl']> h) (<[this := Vec (Ptr b 0) sz' cp']> vs) a' c' s')
       this l' cp' ->
  all_own (World (<[b := sl']> h) (<[this := Vec (Ptr b 0) sz' cp']> vs) a' c' s').
Proof.
  intros Hown Hv Hb Ho. apply (all_own_step h vs a c s _ _ _ _ _ _ l'); try done.
  - intros o [do so co] Hne Hvo.
    destruct (all_own_lookup _ _ _ _ _ Hown Hvo) as (lo & _ & _ & _ & Hc & _).
    cbn [data_ heap] in *.
    destruct do as [|bo oo]; [done|].
    destruct (content_block _ _ _ _ Hc) as [slo Hbo].
    assert (bo <> b) by congruence.
    split; [cbn; congruence|].
    intros b' off [= <- <-]. by rewrite lookup_insert_ne.
  - intros b' Hb'. cbn [data_]. destruct (decide (b' = b)) as [->|Hne].
    + left. by exists 0.
    + right. rewrite lookup_insert_ne in Hb' by done. split; [done|].
      intros v off Hv'. congruence.
Qed.

(** ** Writing a live object over a live object *)

Lemma owns_write_live w this l cap (p : ptr) (x y : T) :
  owns w this l cap ->
  slot w p = Some (Some y) ->
  exists l', owns (write p (Some x) w) this l' cap.
Proof.
  intros Ho Hp. destruct w as [h vs a c s].
  destruct p as [|b off]; [done|]. unfold slot in Hp. cbn [heap] in Hp.
  destruct (decide (0 <= off)) as [Hoff|]; [|done].
  unfold write. cbn [heap]. destruct (h !! b) as [sl|] eqn:Hb; [|done].
  cbn in Hp. cbn [set_heap heap vecs allocs copies swaps].
  destruct (owns_inv _ _ _ _ Ho) as (d & Hv & Hcap & Hc & Hroom & Hnull & Hlen).
  cbn [heap vecs] in *.
  assert (Hother : (forall off', d <> Ptr b off') ->
            owns (World (<[b := <[Z.to_nat off := Some x]> sl]> h) vs a c s)
                 this l cap).
  { intros Hne. apply (owns_frame (World h vs a c s)); [done|done|].
    intros b' off' Hbuf. unfold buffer_of in Hbuf. cbn in Hbuf.
    rewrite Hv in Hbuf. injection Hbuf as ->.
    cbn. rewrite lookup_insert_ne; [done|]. intros ->. by apply (Hne off'). }
  destruct d as [|b' off'].
  { exists l. by apply Hother. }
  destruct (decide (b' = b)) as [->|Hne]; [|exists l; apply Hother; congruence].
  destruct Hc as (-> & rest & Hb'). rewrite Hb in Hb'. injection Hb' as ->.
  cbn [room] in Hroom. rewrite Hb in Hroom. cbn in Hroom.
  rewrite length_app, length_fmap in Hroom.
  destruct (decide (Z.to_nat off < length l)%nat) as [Hi|Hi].
  - exists (<[Z.to_nat off := x]> l). rewrite fmap_insert_app by done.
    apply owns_block; [by rewrite length_insert|done|rewrite length_insert; lia].
  - exists l. rewrite insert_app_r_alt by (rewrite length_fmap; lia).
    apply owns_block; [done|done|rewrite length_insert; lia].
Qed.

Lemma slot_write_live w (p q : ptr) (x y : T) :
  slot w q = Some (Some y) ->
  exists z, slot (write p (Some x) w) q = Some (Some z).
Proof.
  intros Hq. destruct p as [|b off]; [by exists y|]. unfold write.
  destruct (heap w !! b) as [sl|] eqn:Hb; [|by exists y].
  destruct q as [|b' off']; [done|]. unfold slot in *. cbn [set_heap heap].
  destruct (decide (0 <= off')); [|done].
  destruct (decide (b' = b)) as [->|Hne].
  - rewrite lookup_insert_eq. rewrite Hb in Hq. cbn in Hq |- *.
    rewrite list_lookup_insert. case_decide; [by exists x|by exists y].
  - rewrite lookup_insert_ne by done. by exists y.
Qed.

Lemma all_own_write_live w (p : ptr) (x y : T) :
  all_own w -> slot w p = Some (Some y) -> all_own (write p (Some x) w).
Proof.
  intros (H1 & H2 & H3) Hp. split; [|split].
  - intros this v Hv. rewrite vecs_write in Hv.
    destruct (H1 this v Hv) as [l Ho].
    by apply (owns_write_live w this l _ p x y).
  - intros a b va vb. rewrite vecs_write. apply H2.
  - intros b Hb. rewrite vecs_write. apply H3.
    destruct p as [|bp off]; [done|]. unfold write in Hb.
    destruct (heap w !! bp) as [sl|] eqn:Hbp; [|done]. cbn [set_heap heap] in Hb.
    destruct (decide (b = bp)) as [->|Hne]; [by rewrite Hbp|].
    by rewrite lookup_insert_ne in Hb.
Qed.

(** ** Steps that maintain the invariant *)

Lemma maintains_ret {A} (a : A) : maintains (T := T) (ret a).
Proof. intros w Hown. by rewrite wpg_ret. Qed.

Lemma maintains_of_option {A} (o : option A) : maintains (T := T) (of_option o).
Proof. destruct o; [apply maintains_ret|by intros w Hown]. Qed.

Lemma maintains_bind {A B} (m : M T A) (k : A -> M T B) :
  maintains m -> (forall a, maintains (k a)) -> maintains (bind m k).
Proof.
  intros Hm Hk w Hown. rewrite wpg_bind.
  eapply wpg_mono; [apply (Hm w Hown)|done| |done].
  intros a w' Hown'. by apply Hk.
Qed.

Lemma maintains_iterate (n : nat) next (i : Z) (body : Z -> M T unit) :
  (forall j, maintains (body j)) -> maintains (iterate n next i body).
Proof.
  intros Hbody. revert i. induction n as [|n IH]; intros i; cbn [iterate].
  - apply maintains_ret.
  - apply maintains_bind; [apply Hbody|intros _; apply IH].
Qed.

Lemma maintains_get_vec (this : nat) : maintains (T := T) (get_vec this).
Proof. intros w Hown. unfold wpg, get_vec. by destruct (vecs w !! this). Qed.

Lemma maintains_begin (this : nat) : maintains (T := T) (begin this).
Proof.
  apply maintains_bind; [apply maintains_get_vec|intros v; apply maintains_ret].
Qed.

Lemma maintains_end (this : nat) : maintains (T := T) (end_ this).
Proof.
  apply maintains_bind; [apply maintains_get_vec|intros v].
  apply maintains_of_option.
Qed.

Lemma maintains_swap_at (p q : ptr) : maintains (T := T) (swap_at p q).
Proof.
  intros w Hown. unfold wpg, swap_at.
  destruct (slot w p) as [[x|]|] eqn:Hp; try done.
  destruct (slot w q) as [[y|]|] eqn:Hq; try done.
  set (w1 := World (heap w) (vecs w) (allocs w) (copies w) (swaps w + 1)).
  assert (Hown1 : all_own w1) by (by apply (all_own_ext w)).
  assert (Hp1 : slot w1 p = Some (Some x)) by exact Hp.
  assert (Hq1 : slot w1 q = Some (Some y)) by exact Hq.
  destruct (swap_throws (swaps w) x y) as [[x' y']|].
  - destruct (slot_write_live w1 p q x' y Hq1) as [z Hz].
    apply (all_own_write_live _ q y' z); [|done].
    by apply (all_own_write_live _ p x' x).
  - destruct (slot_write_live w1 p q y y Hq1) as [z Hz].
    apply (all_own_write_live _ q x z); [|done].
    by apply (all_own_write_live _ p y x).
Qed.

Lemma maintains_swap_elems (this : nat) (i j : Z) :
  maintains (T := T) (swap_elems this i j).
Proof.
  apply maintains_bind; [apply maintains_get_vec|intros v].
  apply maintains_bind; [apply maintains_of_option|intros p].
  apply maintains_bind; [apply maintains_of_option|intros q].
  apply maintains_swap_at.
Qed.

Lemma maintains_shift_down (fuel : nat) (this : nat) (i j : ptr) :
  maintains (T := T) (shift_down fuel this i j).
Proof.
  revert i j. induction fuel as [|fuel IH]; intros i j; cbn [shift_down].
  - by intros w Hown.
  - apply maintains_bind; [apply maintains_end|intros e].
    destruct (decide (j <> e)); [|apply maintains_ret].
    apply maintains_bind; [apply maintains_swap_at|intros _].
    apply maintains_bind; [apply maintains_of_option|intros i'].
    apply maintains_bind; [apply maintains_of_option|intros j']. apply IH.
Qed.

(** An operation on an object that does not exist is undefined. *)
Lemma wpg_no_object {B} (this : nat) (k : vec -> M T B)
    (Q : B -> world T -> Prop) (E : world T -> Prop) w :
  vecs w !! this = None ->
  wpg True (bind (get_vec this) k) Q E w.
Proof. intros Hv. unfold wpg, bind, get_vec. by rewrite Hv. Qed.

(** ** The operations *)

Lemma maintains_vector_default : maintains (T := T) (this <~ new_address;; vector_default this).
Proof.
  intros [h vs a c s] Hown. rewrite wpg_bind. apply wpg_new_address.
  intros this Hthis. unfold vector_default. rewrite wpg_set_vec.
  apply (all_own_step h vs a c s _ _ _ _ _ _ []); [done|apply owns_default| |].
  - intros o vo _ _. done.
  - intros b Hb. right. split; [done|]. intros v off Hv. congruence.
Qed.

Lemma maintains_swap (this other : nat) : maintains (T := T) (swap this other).
Proof.
  intros [h vs a c s] Hown. unfold swap.
  destruct (vs !! this) as [[d1 s1 c1]|] eqn:Hv1; [|by apply wpg_no_object].
  rewrite (wpg_get_vec _ _ _ _ _ _ _ _ _ _ _ Hv1).
  destruct (vs !! other) as [[d2 s2 c2]|] eqn:Hv2; [|by apply wpg_no_object].
  rewrite (wpg_get_vec _ _ _ _ _ _ _ _ _ _ _ Hv2).
  cbn [data_ size_ capacity_]. rewrite wpg_bind, !wpg_set_vec.
  set (sw := fun z : nat =>
               if decide (z = other) then this
               else if decide (z = this) then other else z).
  assert (Hsw : forall z,
            (<[other := Vec d1 s1 c1]> (<[this := Vec d2 s2 c2]> vs)) !! z
            = vs !! sw z).
  { intros z. unfold sw. destruct (decide (z = other)) as [->|Hzo].
    - by rewrite lookup_insert_eq.
    - rewrite lookup_insert_ne by done. destruct (decide (z = this)) as [->|Hzt].
      + by rewrite lookup_insert_eq.
      + by rewrite lookup_insert_ne. }
  assert (Hinj : forall x y, sw x = sw y -> x = y).
  { intros x y. unfold sw. repeat case_decide; congruence. }
  assert (Hinv : forall z, sw (sw z) = z).
  { intros z. unfold sw. repeat case_decide; congruence. }
  destruct Hown as (H1 & H2 & H3). split; [|split].
  - intros o vo Hvo. cbn [vecs] in Hvo. rewrite Hsw in Hvo.
    destruct (H1 (sw o) vo Hvo) as [l (v0 & Hv0 & Hrest)]. exists l, v0.
    cbn [vecs heap] in *. by rewrite Hsw.
  - intros x y vx vy Hxy Hx Hy. cbn [vecs] in Hx, Hy. rewrite Hsw in Hx, Hy.
    apply (H2 (sw x) (sw y)); [|done|done].
    intros Heq. by apply Hxy, Hinj.
  - intros b Hb. destruct (H3 b Hb) as (o & vo & off & Hvo & Hd).
    exists (sw o), vo, off. cbn [vecs] in *. by rewrite Hsw, Hinv.
Qed.

Lemma maintains_pop_back (this : nat) : maintains (T := T) (pop_back this).
Proof.
  intros [h vs a c s] Hown.
  destruct (vs !! this) as [[d sz cp]|] eqn:Hv; [|by apply wpg_no_object].
  destruct (all_own_lookup _ _ _ _ _ Hown Hv)
    as (l & Ho & -> & Hcap & Hc & Hroom & Hnull & Hlen).
  cbn [heap] in *.
  destruct l as [|y l _] using rev_ind.
  { unfold wpg. by rewrite (pop_back_on_empty _ _ _ Ho). }
  destruct d as [|b off]; [by destruct l|].
  destruct Hc as (-> & rest & Hb). cbn [room] in Hroom. rewrite Hb in Hroom.
  cbn in Hroom. rewrite length_app, length_fmap in Hroom.
  rewrite <- (insert_id h b _ Hb) at 1. rewrite <- (insert_id vs this _ Hv) at 1.
  apply wpg_pop_back; [lia|].
  apply (all_own_same_buffer h vs a c s _ _ _ this b _ cp _ _ l Hown Hv).
  rewrite !length_app in Hroom. cbn [length] in Hroom.
  apply owns_buffer; [done|cbn [length]; lia].
Qed.

Lemma maintains_clear (this : nat) : maintains (T := T) (clear this).
Proof.
  intros [h vs a c s] Hown.
  destruct (vs !! this) as [[d sz cp]|] eqn:Hv; [|by apply wpg_no_object].
  destruct (all_own_lookup _ _ _ _ _ Hown Hv)
    as (l & Ho & -> & Hcap & Hc & Hroom & Hnull & Hlen).
  cbn [heap] in *.
  unfold clear. rewrite (wpg_get_vec _ _ _ _ _ _ _ _ _ _ _ Hv).
  cbn [data_ size_]. rewrite wpg_bind.
  pose proof (to_int_le (Z.of_nat (length l)) ltac:(lia)) as Hle.
  destruct d as [|b off].
  - cbn in Hc. subst l. unfold wpg at 1.
    rewrite destroy_all_nothing by (vm_compute; congruence).
    rewrite (wpg_set_size _ _ _ _ _ _ _ _ _ _ _ Hv). cbn [data_ capacity_].
    rewrite (Hnull eq_refl).
    apply (all_own_step h vs a c s _ _ _ _ _ _ []); [done|apply owns_default| |].
    + intros o vo _ _. done.
    + intros b Hb. right. split; [done|]. intros v off Hv'.
      rewrite Hv in Hv'. by injection Hv' as <-.
  - destruct Hc as (-> & rest & Hb). cbn [room] in Hroom. rewrite Hb in Hroom.
    cbn in Hroom. rewrite length_app, length_fmap in Hroom.
    apply wpg_destroy_all with (sl := (Some <$> l) ++ rest); [exact Hb| |].
    { intros i Hi. destruct (lookup_lt_is_Some_2 l i ltac:(lia)) as [x Hx].
      exists x. by apply lookup_fmap_app. }
    rewrite (wpg_set_size _ _ _ _ _ _ _ _ _ _ _ Hv). cbn [data_ capacity_].
    remember (Z.to_nat (to_int (Z.of_nat (length l)))) as k eqn:Hk.
    apply (all_own_same_buffer h vs a c s _ _ _ this b _ cp _ _ [] Hown Hv).
    apply (owns_buffer h vs a c s this b []
             (replicate k None ++ drop k ((Some <$> l) ++ rest)) cp Hcap).
    rewrite length_app, length_replicate, length_drop, length_app, length_fmap.
    cbn [length]. lia.
Qed.

Lemma maintains_push_back (this : nat) (v : T) : maintains (push_back this v).
Proof.
  intros [h vs a c s] Hown.
  destruct (vs !! this) as [[d sz cp]|] eqn:Hv; [|by apply wpg_no_object].
  destruct (all_own_lookup _ _ _ _ _ Hown Hv)
    as (l & Ho & -> & Hcap & Hc & Hroom & Hnull & Hlen).
  cbn [heap] in *.
  assert (Hsnoc : Z.of_nat (length l) + 1 = Z.of_nat (length (l ++ [v])))
    by (rewrite length_app; cbn; lia).
  apply (wpg_push_back_rule sizeof_pos True this d cp l v h vs a c s _ _
           Hv Hc Hcap Hlen Hnull (or_introl I)).
  - intros _. by apply (all_own_ext (World h vs a c s)).
  - intros Hne _ b x rest -> Hb. rewrite Hsnoc.
    apply (all_own_same_buffer h vs a c s _ _ _ this b _ cp _ _ (l ++ [v]) Hown Hv).
    cbn [room] in Hroom. rewrite Hb in Hroom. cbn in Hroom.
    rewrite length_app, length_fmap in Hroom. cbn [length] in Hroom.
    apply owns_buffer; [done|]. rewrite length_app. cbn [length]. lia.
  - intros _ _ _ c'. by apply (all_own_ext (World h vs a c s)).
  - intros Hfull _ _ _ b m Hb Hm.
    pose proof (wrap_range (cp * 2)) as Hw.
    assert (Hgr : 0 <= grown cp < 2 ^ 64).
    { unfold grown. destruct (decide (cp = 0)); lia. }
    pose proof (slots_for_le sizeof_pos (grown cp) ltac:(lia)) as Hsl.
    split; intros _.
    + apply (all_own_new_buffer h vs a c s _ _ _ this d _ cp b _ _ _ l Hown Hv Hb).
      apply owns_buffer; [done|]. rewrite length_replicate. lia.
    + rewrite Hsnoc.
      apply (all_own_new_buffer h vs a c s _ _ _ this d _ cp b _ _ _ (l ++ [v])
               Hown Hv Hb).
      apply owns_buffer; [done|]. rewrite length_app, length_replicate.
      cbn [length]. lia.
Qed.

Lemma maintains_new_buffer (this : nat) (nc : Z) d sz cp h vs a c s :
  all_own (World h vs a c s) ->
  vs !! this = Some (Vec d sz cp) ->
  0 <= nc < 2 ^ 64 ->
  wpg True (new_buffer this nc) (fun _ w' => all_own w') (fun w' => all_own w')
      (World h vs a c s).
Proof.
  intros Hown Hv Hnc.
  destruct (all_own_lookup _ _ _ _ _ Hown Hv)
    as (l & Ho & -> & Hcap & Hc & Hroom & Hnull & Hlen).
  cbn [heap] in *.
  apply (wpg_new_buffer True this nc d (Z.of_nat (length l)) cp l h vs a c s _ _
           Hv eq_refl ltac:(lia) Hc (or_introl I)).
  - intros _ _. by apply (all_own_ext (World h vs a c s)).
  - intros _ _ k x _ _ _ _. by apply (all_own_ext (World h vs a c s)).
  - intros _ _ _ Hle b Hb.
    pose proof (slots_for_le sizeof_pos nc ltac:(lia)) as Hsl.
    apply (all_own_new_buffer h vs a c s _ _ _ this d _ cp b _ _ _ l Hown Hv Hb).
    apply owns_buffer; [done|]. rewrite length_replicate. lia.
  - intros _. apply (all_own_released h vs a c s _ _ _ this d _ cp Hown Hv).
Qed.

Lemma maintains_reserve (this : nat) (n : Z) :
  0 <= n < 2 ^ 64 -> maintains (reserve this n).
Proof.
  intros Hn [h vs a c s] Hown.
  destruct (vs !! this) as [[d sz cp]|] eqn:Hv; [|by apply wpg_no_object].
  unfold reserve. rewrite (wpg_get_vec _ _ _ _ _ _ _ _ _ _ _ Hv).
  cbn [capacity_]. destruct (decide (cp >= n)); [by rewrite wpg_ret|].
  by apply (maintains_new_buffer this n d sz cp).
Qed.

Lemma maintains_shrink_to_fit (this : nat) : maintains (shrink_to_fit this).
Proof.
  intros [h vs a c s] Hown.
  destruct (vs !! this) as [[d sz cp]|] eqn:Hv; [|by apply wpg_no_object].
  unfold shrink_to_fit. rewrite (wpg_get_vec _ _ _ _ _ _ _ _ _ _ _ Hv).
  cbn [size_ capacity_]. destruct (decide (sz < cp)) as [Hlt|]; [|by rewrite wpg_ret].
  apply (maintains_new_buffer this sz d sz cp); [done|done|].
  destruct (all_own_lookup _ _ _ _ _ Hown Hv) as (l & _ & -> & ? & _). lia.
Qed.

Lemma maintains_vector_copy (other : nat) :
  maintains (this <~ new_address;; vector_copy this other).
Proof.
  intros [h vs a c s] Hown. rewrite wpg_bind. apply wpg_new_address.
  intros this Hthis.
  destruct (vs !! other) as [[d sz cp]|] eqn:Hv;
    [|unfold vector_copy; by apply wpg_no_object].
  destruct (all_own_lookup _ _ _ _ _ Hown Hv)
    as (l & Ho & -> & Hcap & Hc & Hroom & Hnull & Hlen).
  cbn [heap] in *.
  apply (wpg_vector_copy True this other d cp l h vs a c s _ _
           Hv ltac:(lia) Hc (or_introl I)).
  - intros _. by apply (all_own_ext (World h vs a c s)).
  - intros _ k x _ _. by apply (all_own_ext (World h vs a c s)).
  - intros _ _ Hle b Hb.
    pose proof (slots_for_le sizeof_pos cp ltac:(lia)) as Hsl.
    apply (all_own_new_vector h vs a c s _ _ _ this b _ _ _ l Hown Hthis Hb).
    apply owns_buffer; [done|]. rewrite length_replicate. lia.
Qed.

Lemma maintains_assign (this other : nat) : maintains (assign this other).
Proof.
  intros [h vs a c s] Hown. unfold assign.
  destruct (decide (this = other)) as [|Hne]; [by rewrite wpg_ret|].
  rewrite wpg_bind. apply wpg_new_address. intros tmp Htmp. rewrite wpg_bind.
  destruct (vs !! other) as [[d2 sz2 cp2]|] eqn:Hv2;
    [|unfold vector_copy; by apply wpg_no_object].
  destruct (all_own_lookup _ _ _ _ _ Hown Hv2)
    as (l2 & Ho2 & -> & Hcap2 & Hc2 & Hroom2 & Hnull2 & Hlen2).
  cbn [heap] in *.
  apply (wpg_vector_copy True tmp other d2 cp2 l2 h vs a c s _ _
           Hv2 ltac:(lia) Hc2 (or_introl I)).
  - intros _. by apply (all_own_ext (World h vs a c s)).
  - intros _ k x _ _. by apply (all_own_ext (World h vs a c s)).
  - intros _ _ Hle b Hb.
    pose proof (slots_for_le sizeof_pos cp2 ltac:(lia)) as Hsl.
    rewrite wpg_finally.
    destruct (vs !! this) as [[d1 sz1 cp1]|] eqn:Hv1.
    + assert (Hn1 : tmp <> this) by congruence.
      destruct (all_own_lookup _ _ _ _ _ Hown Hv1)
        as (l1 & Ho1 & -> & Hcap1 & Hc1 & Hroom1 & Hnull1 & Hlen1).
      cbn [heap] in *.
      rewrite (wpg_swap _ _ _ (Vec d1 (Z.of_nat (length l1)) cp1)
                        (Vec (Ptr b 0) (Z.of_nat (length l2)) cp2))
        by (by rewrite ?lookup_insert_eq, ?lookup_insert_ne).
      cbn [data_ size_ capacity_].
      apply (wpg_vector_dtor _ tmp d1 (Z.of_nat (length l1)) cp1 l1);
        [apply lookup_insert_eq|done|by apply content_insert_ne|].
      rewrite (release_insert_ne _ _ _ _ l1) by done.
      rewrite delete_insert_eq, delete_insert_ne by done.
      rewrite delete_insert_id by done.
      apply (all_own_new_buffer h vs a c s _ _ _ this d1 _ cp1 b _ _ _ l2
               Hown Hv1 Hb).
      apply owns_buffer; [done|]. rewrite length_replicate. lia.
    + destruct (decide (this = tmp)) as [->|Hn1].
      * rewrite (wpg_swap _ _ _ (Vec (Ptr b 0) (Z.of_nat (length l2)) cp2)
                          (Vec (Ptr b 0) (Z.of_nat (length l2)) cp2))
          by apply lookup_insert_eq.
        cbn [data_ size_ capacity_]. rewrite !insert_insert_eq.
        apply (wpg_vector_dtor _ tmp (Ptr b 0) (Z.of_nat (length l2)) cp2 l2);
          [apply lookup_insert_eq|done| |].
        { split; [done|]. eexists. apply lookup_insert_eq. }
        cbn [release]. rewrite !delete_insert_id by done.
        by apply (all_own_ext (World h vs a c s)).
      * unfold swap. apply wpg_no_object. cbn [vecs].
        by rewrite lookup_insert_ne.
Qed.

Lemma maintains_insert (this : nat) (pos : ptr) (v : T) :
  maintains (insert this pos v).
Proof.
  unfold insert. apply maintains_bind; [apply maintains_begin|intros b].
  apply maintains_bind; [apply maintains_of_option|intros d].
  apply maintains_bind; [apply maintains_push_back|intros _].
  apply maintains_bind; [apply maintains_get_vec|intros v0].
  apply maintains_bind;
    [apply maintains_iterate; intros j; apply maintains_swap_elems|intros _].
  apply maintains_bind; [apply maintains_begin|intros b'].
  apply maintains_of_option.
Qed.

Lemma maintains_erase (this : nat) (pos : ptr) : maintains (T := T) (erase this pos).
Proof.
  unfold erase. apply maintains_bind; [apply maintains_of_option|intros r].
  apply maintains_bind; [apply maintains_begin|intros b].
  apply maintains_bind; [apply maintains_of_option|intros d].
  apply maintains_bind; [apply maintains_get_vec|intros v0].
  apply maintains_bind;
    [apply maintains_iterate; intros j; apply maintains_swap_elems|intros _].
  apply maintains_bind; [apply maintains_pop_back|intros _].
  apply maintains_ret.
Qed.

Lemma maintains_erase_range (this : nat) (first last : ptr) :
  maintains (T := T) (erase_range this first last).
Proof.
  unfold erase_range. apply maintains_bind.
  { intros w Hown. by apply (maintains_shift_down _ this first last w). }
  intros _. apply maintains_bind; [apply maintains_of_option|intros d].
  apply maintains_bind;
    [apply maintains_iterate; intros j; apply maintains_pop_back|intros _].
  apply maintains_bind; [apply maintains_begin|intros b].
  apply maintains_of_option.
Qed.

Lemma maintains_run_op (o : op T) : well_typed o -> maintains (run_op o).
Proof.
  intros Hwt. destruct o; cbn [run_op].
  - apply maintains_vector_default.
  - apply maintains_vector_copy.
  - apply maintains_assign.
  - apply maintains_push_back.
  - apply maintains_pop_back.
  - by apply maintains_reserve.
  - apply maintains_shrink_to_fit.
  - apply maintains_clear.
  - apply maintains_swap.
  - apply maintains_bind; [apply maintains_insert|intros _; apply maintains_ret].
  - apply maintains_bind; [apply maintains_erase|intros _; apply maintains_ret].
  - apply maintains_bind; [apply maintains_erase_range|intros _; apply maintains_ret].
Qed.

Lemma reachable_all_own w : reachable w -> all_own w.
Proof.
  induction 1 as [a c s|o w w' _ IH Hwt Hrun|o w w' _ IH Hwt Hrun].
  - apply all_own_empty.
  - pose proof (maintains_run_op o Hwt w IH) as H.
    apply wpg_partial in H as [H _]. by apply (H tt).
  - pose proof (maintains_run_op o Hwt w IH) as H.
    apply wpg_partial in H as [_ H]. by apply H.
Qed.

(** X24.  Memory safety of the container.  In every state that a
    program reaches through the public operations, whether they
    returned or threw, every vector owns its elements: its size does
    not exceed its capacity, its buffer, when it has one, starts a
    block of at most [capacity] slots, the first [size] of which hold
    live objects, so that reading any element below the size is
    defined; no two vectors have their buffers in the same block; and
    every allocated block is the buffer of a vector, so that no block
    has leaked. *)
Theorem reachable_vectors_own_elements w :
  reachable w ->
  all_own w /\
  (forall this v, vecs w !! this = Some v ->
     0 <= size_ v <= capacity_ v /\
     forall i : nat, Z.of_nat i < size_ v ->
       exists x, (p <~ index this (Z.of_nat i);; load p) w = Ok x w).
Proof.
  intros Hr. pose proof (reachable_all_own w Hr) as Hown.
  split; [done|]. intros this [d sz cp] Hv. cbn [size_ capacity_].
  destruct (all_own_lookup _ _ _ _ _ Hown Hv)
    as (l & Ho & -> & Hcap & Hc & Hroom & Hnull & Hlen).
  split; [lia|]. intros i Hi.
  destruct (lookup_lt_is_Some_2 l i ltac:(lia)) as [x Hx]. exists x.
  unfold index, bind, get_vec. rewrite Hv. cbn [data_].
  destruct d as [|b off]; [cbn in Hc; by subst l|].
  cbn [ptr_add of_option ret].
  apply (owns_load w this l cp (Ptr b off) i x); try done.
  by apply (buffer_of_lookup _ _ _ _ _ Hv).
Qed.

End Ownership.

(** * The further properties on vectors of integers *)

Lemma owns_world_two_first : owns world_two 0 [1; 2; 3] 3.
Proof.
  exists (Vec (Ptr 5 0) 3 3). split; [reflexivity|].
  repeat split; try done.
  exists []. reflexivity.
Qed.

Lemma owns_world_two_second : owns world_two 1 [7; 8] 2.
Proof.
  exists (Vec (Ptr 6 0) 2 2). split; [reflexivity|].
  repeat split; try done.
  exists []. reflexivity.
Qed.

Lemma owns_world_spare : owns world_spare 0 [] 4.
Proof.
  exists (Vec (Ptr 5 0) 0 4). split; [reflexivity|].
  repeat split; try done.
  exists [None; None; None; None]. reflexivity.
Qed.

(** A copy of [1, 2, 3] at address 1. *)
Lemma copy_constructor_deep_copy_witness :
  exists w',
    vector_copy (elem := int_elem) (alloc := plain_alloc) 1 0 world_123 = Ok tt w'.
Proof.
  destruct (copy_constructor_deep_copy (elem := int_elem) (alloc := plain_alloc)
              int_elem_size_pos world_123 1%nat 0%nat [1; 2; 3] 4
              owns_world_123 ltac:(lia)) as (_ & _ & H).
  apply H; [reflexivity|reflexivity|intros k x _; reflexivity].
Defined.

(** [a = b] for [a = [1, 2, 3]] and [b = [7, 8]]. *)
Lemma assign_replaces_content_witness :
  exists w',
    assign (elem := int_elem) (alloc := plain_alloc) 0 1 world_two = Ok tt w'.
Proof.
  destruct (assign_replaces_content (elem := int_elem) (alloc := plain_alloc)
              int_elem_size_pos world_two 0%nat 1%nat [1; 2; 3] 3 [7; 8] 2
              (Ptr 5 0) (Ptr 6 0)
              owns_world_two_first owns_world_two_second eq_refl eq_refl
              ltac:(lia) ltac:(simpl; lia)) as (_ & _ & H).
  apply H; [reflexivity|reflexivity|intros k x _; reflexivity].
Defined.

(** The destructor on [1, 2, 3]. *)
Lemma destructor_releases_witness :
  exists w',
    vector_dtor (T := Z) 0 world_123 = Ok tt w' /\
    vecs w' = delete 0%nat (vecs world_123) /\
    heap w' = release (Ptr 5 0) (heap world_123).
Proof.
  destruct (destructor_releases world_123 0%nat [1; 2; 3] 4 (Ptr 5 0)
              owns_world_123 eq_refl) as (w' & H1 & H2 & H3 & _).
  by exists w'.
Defined.


(** [swap] of [1, 2, 3] and [7, 8]. *)
Lemma swap_exchanges_witness :
  exists w',
    swap (T := Z) 0 1 world_two = Ok tt w' /\
    owns w' 0 [7; 8] 2 /\ owns w' 1 [1; 2; 3] 3.
Proof.
  destruct (swap_exchanges world_two 0%nat 1%nat [1; 2; 3] 3 [7; 8] 2
              owns_world_two_first owns_world_two_second)
    as (w' & H1 & H2 & H3 & _).
  by exists w'.
Defined.

Lemma swap_twice_identity_witness :
  (swap (T := Z) 0 1;;; swap 0 1) world_two = Ok tt world_two.
Proof.
  apply (swap_twice_identity world_two 0%nat 1%nat).
  - exists (Vec (Ptr 5 0) 3 3). reflexivity.
  - exists (Vec (Ptr 6 0) 2 2). reflexivity.
Defined.

(** [shrink_to_fit] on [1, 2, 3] with capacity 4. *)
Lemma shrink_to_fit_result_witness :
  exists w',
    shrink_to_fit (elem := int_elem) (alloc := plain_alloc) 0 world_123 = Ok tt w'.
Proof.
  destruct (shrink_to_fit_result (elem := int_elem) (alloc := plain_alloc)
              int_elem_size_pos world_123 0%nat [1; 2; 3] 4 owns_world_123)
    as (_ & _ & _ & H).
  apply H; [reflexivity|reflexivity|intros k x _; reflexivity].
Defined.

(** [clear] on [1, 2, 3]. *)
Lemma clear_empties_witness :
  exists w', clear (T := Z) 0 world_123 = Ok tt w' /\ owns w' 0 [] 4.
Proof.
  destruct (clear_empties world_123 0%nat [1; 2; 3] 4 owns_world_123)
    as (w' & H1 & H2 & _).
  by exists w'.
Defined.

(** [pop_back] on [1, 2, 3]. *)
Lemma pop_back_removes_last_witness :
  exists w', pop_back (T := Z) 0 world_123 = Ok tt w' /\ owns w' 0 [1; 2] 4.
Proof.
  destruct (pop_back_removes_last world_123 0%nat [1; 2] 3 4 owns_world_123)
    as (w' & H1 & H2 & _).
  by exists w'.
Defined.

(** [pop_back] on an empty vector with a buffer of four slots. *)
Lemma pop_back_empty_undefined_witness :
  pop_back (T := Z) 0 world_spare = UB.
Proof.
  apply (pop_back_empty_undefined world_spare 0%nat [] 4 owns_world_spare).
  reflexivity.
Defined.

(** [push_back(9)] on [1, 2, 3] with capacity 4. *)
Lemma push_back_within_capacity_witness :
  exists w',
    push_back (elem := int_elem) (alloc := plain_alloc) 0 9 world_123 = Ok tt w' /\
    owns w' 0 [1; 2; 3; 9] 4 /\
    buffer_of w' 0 = Some (Ptr 5 0).
Proof.
  destruct (push_back_within_capacity (elem := int_elem) (alloc := plain_alloc)
              int_elem_size_pos world_123 0%nat [1; 2; 3] 4 9
              owns_world_123 ltac:(simpl; lia) ltac:(vm_compute; lia)) as [H _].
  destruct (H eq_refl) as (w' & H1 & H2 & H3 & _).
  by exists w'.
Defined.

(** [reserve(10)] on [1, 2, 3], then [push_back] of 4, 5 and 6. *)
Lemma reserve_then_push_backs_witness :
  exists w1 w2,
    reserve (elem := int_elem) (alloc := plain_alloc) 0 10 world_123 = Ok tt w1 /\
    foldr (fun v k => push_back (elem := int_elem) (alloc := plain_alloc) 0 v;;; k)
      (ret tt) [4; 5; 6] w1 = Ok tt w2 /\
    owns w2 0 [1; 2; 3; 4; 5; 6] 10 /\
    buffer_of w2 0 = buffer_of w1 0.
Proof.
  destruct (reserve_then_push_backs (elem := int_elem) (alloc := plain_alloc)
              int_elem_size_pos world_123 0%nat [1; 2; 3] 4 10 [4; 5; 6]
              owns_world_123 ltac:(lia) ltac:(reflexivity) ltac:(simpl; lia)
              eq_refl ltac:(intros k x _; reflexivity))
    as (w1 & w2 & H1 & H2 & H3 & H4 & _).
  exists w1, w2. split; [exact H1|]. split; [exact H2|]. split; [exact H3|exact H4].
Defined.

(** [push_back(9)] on the full vector [1, 2, 3] beside [7, 8]: the
    reallocation leaves the second vector alone. *)
Lemma push_back_leaves_others_witness :
  exists w',
    push_back (elem := int_elem) (alloc := plain_alloc) 0 9 world_two = Ok tt w' /\
    owns w' 1 [7; 8] 2 /\ buffer_of w' 1 = Some (Ptr 6 0).
Proof.
  assert (Hrun : exists w',
            push_back (elem := int_elem) (alloc := plain_alloc) 0 9 world_two
            = Ok tt w') by (eexists; vm_compute; reflexivity).
  destruct Hrun as [w' Hrun]. exists w'. split; [exact Hrun|].
  apply (push_back_leaves_others (elem := int_elem) (alloc := plain_alloc)
           int_elem_size_pos world_two 0%nat 1%nat [1; 2; 3] 3 [7; 8] 2
           (Ptr 5 0) (Ptr 6 0) 9
           owns_world_two_first owns_world_two_second eq_refl eq_refl
           ltac:(lia) ltac:(simpl; lia) w' (or_introl Hrun)).
Defined.

(** [insert(begin() + 1, 9)] on [1, 2, 3] with capacity 4. *)
Lemma insert_places_element_witness :
  exists r w',
    insert (elem := int_elem) (alloc := plain_alloc) 0 (Ptr 5 1) 9 world_123
    = Ok r w'.
Proof.
  destruct (insert_places_element (elem := int_elem) (alloc := plain_alloc)
              int_elem_size_pos world_123 0%nat [1; 2; 3] 4 (Ptr 5 0) 1 (Ptr 5 1) 9
              owns_world_123 eq_refl ltac:(simpl; lia) eq_refl) as [_ H].
  apply H; [vm_compute; lia|done|done|done].
Defined.

(** [insert(begin() + 1, 9)] on [1, 2, 3] when the copy of the value
    throws. *)
Lemma insert_failure_keeps_vector_witness :
  exists w',
    insert (elem := int_failing_copy 0) (alloc := plain_alloc) 0 (Ptr 5 1) 9
      world_123 = Throw w' /\
    owns w' 0 [1; 2; 3] 4.
Proof.
  assert (Hrun : exists w',
            insert (elem := int_failing_copy 0) (alloc := plain_alloc) 0 (Ptr 5 1) 9
              world_123 = Throw w') by (eexists; vm_compute; reflexivity).
  destruct Hrun as [w' Hrun]. exists w'. split; [exact Hrun|].
  destruct (insert_failure_keeps_vector (elem := int_failing_copy 0)
              (alloc := plain_alloc) (int_size_pos 0)
              world_123 0%nat [1; 2; 3] 4 (Ptr 5 0) 1 (Ptr 5 1) 9
              owns_world_123 eq_refl ltac:(simpl; lia) eq_refl w' Hrun) as [_ H].
  destruct (H ltac:(done)) as [H'|H']; exact H'.
Defined.

(** [erase(begin() + 1)] on [1, 2, 3, 4, 5]. *)
Lemma erase_position_content_witness :
  exists r w', erase (elem := int_elem) 0 (Ptr 5 1) world_12345 = Ok r w'.
Proof.
  destruct (erase_position_content (elem := int_elem)
              world_12345 0%nat [1; 2; 3; 4; 5] 8 (Ptr 5 0) 1 (Ptr 5 1)
              owns_world_12345 eq_refl ltac:(simpl; lia) eq_refl) as [_ H].
  by apply H.
Defined.

(** [erase(begin() + 1)] on [1, 2, 3, 4, 5] when the second
    [std::swap] throws. *)
Lemma erase_failure_keeps_length_witness :
  exists w',
    erase (elem := int_failing_swap 1) 0 (Ptr 5 1) world_12345 = Throw w' /\
    exists l', length l' = 5%nat /\ owns w' 0 l' 8.
Proof.
  assert (Hrun : exists w',
            erase (elem := int_failing_swap 1) 0 (Ptr 5 1) world_12345 = Throw w')
    by (eexists; vm_compute; reflexivity).
  destruct Hrun as [w' Hrun]. exists w'. split; [exact Hrun|].
  destruct (erase_failure_keeps_length (elem := int_failing_swap 1)
              world_12345 0%nat [1; 2; 3; 4; 5] 8 (Ptr 5 0)
              owns_world_12345 eq_refl) as [H _].
  destruct (H 1%nat (Ptr 5 1) w' ltac:(simpl; lia) eq_refl Hrun) as [H' _].
  exact H'.
Defined.

(** [push_back(9)] and [pop_back()] on [1, 2, 3] with capacity 4. *)
Lemma push_back_pop_back_round_trip_witness :
  exists w',
    (push_back (elem := int_elem) (alloc := plain_alloc) 0 9;;; pop_back 0)
      world_123 = Ok tt w'.
Proof.
  destruct (push_back_pop_back_round_trip (elem := int_elem) (alloc := plain_alloc)
              int_elem_size_pos world_123 0%nat [1; 2; 3] 4 9 owns_world_123)
    as (_ & _ & H).
  apply H; [vm_compute; lia|done|done].
Defined.

(** [erase(insert(begin() + 1, 9))] on [1, 2, 3] with capacity 4. *)
Lemma insert_then_erase_round_trip_witness :
  exists r w',
    (it <~ insert (elem := int_elem) (alloc := plain_alloc) 0 (Ptr 5 1) 9;;
     erase (elem := int_elem) 0 it) world_123 = Ok r w' /\
    owns w' 0 [1; 2; 3] 4.
Proof.
  destruct (insert_then_erase_round_trip (elem := int_elem) (alloc := plain_alloc)
              int_elem_size_pos world_123 0%nat [1; 2; 3] 4 (Ptr 5 0) 1 (Ptr 5 1) 9
              owns_world_123 eq_refl ltac:(simpl; lia) eq_refl) as [_ H].
  apply H; [vm_compute; lia|done|done|done].
Defined.

(** The observers on [1, 2, 3] with capacity 4. *)
Lemma observers_agree_witness :
  size (T := Z) 0 world_123 = Ok 3 world_123 /\
  capacity (T := Z) 0 world_123 = Ok 4 world_123.
Proof.
  destruct (observers_agree world_123 0%nat [1; 2; 3] 4 owns_world_123)
    as (H1 & H2 & _).
  by split.
Defined.

(** The element at index 2 of [1, 2, 3]. *)
Lemma element_access_witness :
  (p <~ index (T := Z) 0 2;; load p) world_123 = Ok 3 world_123.
Proof.
  destruct (element_access world_123 0%nat [1; 2; 3] 4 owns_world_123)
    as (H & _).
  apply (H 2%nat 3). reflexivity.
Defined.

(** Three integers copied into raw memory when the second copy
    throws. *)
Lemma copy_construct_all_restores_raw_witness :
  copy_construct_all (elem := int_failing_copy 1) (Ptr 1 0) (Ptr 0 0) 3
    (world_blocks 2)
  = Throw (World (heap (world_blocks 2)) ∅ 0 2 0).
Proof.
  apply (copy_construct_all_restores_raw (elem := int_failing_copy 1)
           1%nat 0%nat 3 [7; 7; 7] [] (heap (world_blocks 2)) ∅ 0 0 0 1%nat 7);
    try reflexivity; try (simpl; lia).
Defined.

(** A vector built at address 0 of the empty state and destroyed. *)
Lemma default_constructor_empty_witness :
  (vector_default (T := Z) 0;;; vector_dtor 0) empty_world = Ok tt empty_world.
Proof.
  destruct (default_constructor_empty empty_world 0%nat eq_refl) as [_ H].
  exact H.
Defined.

(** The state left by [vector a; vector b(a);]. *)
Lemma reachable_vectors_own_elements_witness : all_own world_copy_of_empty.
Proof.
  destruct (reachable_vectors_own_elements (elem := int_elem) (alloc := plain_alloc)
              int_elem_size_pos world_copy_of_empty reachable_copy_of_empty)
    as [H _].
  exact H.
Defined.
